(** * Schema initialisation and seed script of the express delivery system

    A shallow embedding of [database/scripts/init_collections_and_seed.mongosh.js]
    together with a small model of the document store the script talks to,
    and the properties of the provision-and-seed run proved over it.

    The script is a straight-line sequence of calls on the global [db]
    handle.  Every call either returns or throws; a throw ends the run and
    leaves what was already written in place.  The embedding therefore is a
    state-and-error monad over the store.

    The database behind [db] is not part of the repository.  Its calls are
    modelled here, each from what the specification says of it; the script
    itself ([ensureCollection], the payloads, the order of the calls, the
    resolution of identifiers) is translated from the source.  [print] only
    writes to the console and is left out. *)

From stdpp Require Import strings list.
From Stdlib Require Import ZArith Lia Sorted.

Local Open Scope Z_scope.
Local Open Scope string_scope.
Local Open Scope list_scope.

(** ** Association lists

    Documents and the collection namespace are keyed by strings; both are
    kept as association lists, first binding wins. *)

Section AList.
Context {V : Type}.

Fixpoint alookup (k : string) (l : list (string * V)) : option V :=
  match l with
  | [] => None
  | (k', v) :: l' => if String.eqb k' k then Some v else alookup k l'
  end.

Fixpoint aset (k : string) (v : V) (l : list (string * V))
    : list (string * V) :=
  match l with
  | [] => [(k, v)]
  | (k', v') :: l' =>
      if String.eqb k' k then (k, v) :: l' else (k', v') :: aset k v l'
  end.
End AList.

(** ** Values and documents *)

(** Identifiers are ObjectIds; the store hands them out from a counter. *)
Definition oid := N.

(** The values the script stores.  Number literals are kept as exact
    decimals ([VNum m k] is [m / 10^k]), dates as milliseconds since the
    epoch (what [Date.getTime] returns), embedded documents as association
    lists in literal order. *)
#[warnings="-register-all"]
Inductive value : Type :=
| VNull
| VBool (b : bool)
| VNum (mantissa : Z) (scale : N)
| VStr (s : string)
| VDate (ms : Z)
| VOid (o : oid)
| VDoc (fs : list (string * value)).

Fixpoint value_eqb (a b : value) {struct a} : bool :=
  match a, b with
  | VNull, VNull => true
  | VBool x, VBool y => Bool.eqb x y
  | VNum m k, VNum m' k' =>
      Z.eqb (m * 10 ^ Z.of_N k') (m' * 10 ^ Z.of_N k)
  | VStr x, VStr y => String.eqb x y
  | VDate x, VDate y => Z.eqb x y
  | VOid x, VOid y => N.eqb x y
  | VDoc xs, VDoc ys =>
      (fix go (xs ys : list (string * value)) {struct xs} : bool :=
         match xs, ys with
         | [], [] => true
         | (k, v) :: xs', (k', w) :: ys' =>
             String.eqb k k' && value_eqb v w && go xs' ys'
         | _, _ => false
         end) xs ys
  | _, _ => false
  end.

Fixpoint values_eqb (xs ys : list value) : bool :=
  match xs, ys with
  | [], [] => true
  | x :: xs', y :: ys' => value_eqb x y && values_eqb xs' ys'
  | _, _ => false
  end.

(** A stored document: its [_id] and its other top-level fields, in the
    order they were written. *)
Record doc : Type := Doc { _id : oid; fields : list (string * value) }.

Definition lookup_field (k : string) (fs : list (string * value))
    : option value := alookup k fs.

(** Setting a field keeps its place when it is there and appends it when
    it is not. *)
Definition set_field (k : string) (v : value) (fs : list (string * value))
    : list (string * value) := aset k v fs.

Definition field_names (d : doc) : list string := map fst (fields d).

(** Reading a field; a missing field reads as null, as it does for query
    matching and for index keys. *)
Definition get_field (d : doc) (k : string) : value :=
  default VNull (lookup_field k (fields d)).

(** An equality query such as [{ email: customerEmail }]. *)
Definition query := list (string * value).

Definition matches (q : query) (d : doc) : bool :=
  forallb (λ kv, value_eqb (get_field d kv.1) kv.2) q.

(** ** Indexes, collections, the store *)

Inductive direction : Type := Asc | Desc.

Definition direction_eqb (a b : direction) : bool :=
  match a, b with Asc, Asc | Desc, Desc => true | _, _ => false end.

Definition key_spec := list (string * direction).

Fixpoint key_spec_eqb (a b : key_spec) : bool :=
  match a, b with
  | [], [] => true
  | (f, d) :: a', (g, e) :: b' =>
      String.eqb f g && direction_eqb d e && key_spec_eqb a' b'
  | _, _ => false
  end.

Record index : Type :=
  Index { ix_name : string; ix_key : key_spec; ix_unique : bool }.

(** [indexes] lists the indexes made with [createIndex]; the primary key on
    [_id] is the identifier counter of the store. *)
Record collection : Type :=
  Collection { docs : list doc; indexes : list index }.

Definition empty_collection : collection := Collection [] [].

Record store : Type :=
  Store { colls : list (string * collection); next_oid : oid }.

Definition empty_store : store := Store [] 0%N.

Definition coll_of (s : store) (c : string) : collection :=
  default empty_collection (alookup c (colls s)).

Definition docs_of (s : store) (c : string) : list doc := docs (coll_of s c).
Definition indexes_of (s : store) (c : string) : list index :=
  indexes (coll_of s c).

(** ** The monad of a run *)

Inductive error : Type :=
| NamespaceExists
| IndexOptionsConflict
| IndexKeySpecsConflict
| DuplicateKey
| TypeError.

Inductive result (A : Type) : Type :=
| Ok (a : A)
| Threw (e : error).
Arguments Ok {A} a.
Arguments Threw {A} e.

Definition M (A : Type) : Type := store → result A * store.

Definition ret {A} (a : A) : M A := λ s, (Ok a, s).
Definition throw {A} (e : error) : M A := λ s, (Threw e, s).
Definition bind {A B} (m : M A) (k : A → M B) : M B :=
  λ s, match m s with
       | (Ok a, s') => k a s'
       | (Threw e, s') => (Threw e, s')
       end.

Notation "'let*' x ':=' m 'in' k" := (bind m (λ x, k))
  (at level 10, x name, m at level 100, k at level 200, only parsing).
Notation "m ';;' k" := (bind m (λ _, k))
  (at level 100, k at level 200, right associativity, only parsing).

(** ** Store primitives

    The calls on [db] and on a collection handle.  A call that throws
    leaves the store as it was. *)

Definition index_key (ix : index) (d : doc) : list value :=
  map (λ kd, get_field d kd.1) (ix_key ix).

(** Modelled from the spec: the enforcement of a unique index by the store,
    which "rejects duplicate key combinations" (glossary, Index).  Would
    adding [d] to [ds] break the unique index [ix]? *)
Definition violates (ix : index) (ds : list doc) (d : doc) : bool :=
  ix_unique ix &&
  existsb (λ d', values_eqb (index_key ix d') (index_key ix d)) ds.

(** Do the documents [ds] satisfy the unique index [ix]? *)
Fixpoint unique_on (ix : index) (ds : list doc) : bool :=
  match ds with
  | [] => true
  | d :: ds' =>
      negb (existsb (λ d', values_eqb (index_key ix d') (index_key ix d)) ds')
      && unique_on ix ds'
  end.

Definition put_coll (c : string) (col : collection) (s : store) : store :=
  Store (aset c col (colls s)) (next_oid s).

Definition bump_oid (s : store) : store :=
  Store (colls s) (N.succ (next_oid s)).

(** Modelled from the spec: insertion into a collection of the store.  It
    allocates the next identifier and enforces the unique indexes of the
    collection: a second document with a key already present is rejected
    with a uniqueness violation and not stored (sections 5 and 8). *)
Definition insert_fields (c : string) (fs : list (string * value)) : M doc :=
  λ s,
    let col := coll_of s c in
    let d := Doc (next_oid s) fs in
    if existsb (λ ix, violates ix (docs col) d) (indexes col)
    then (Threw DuplicateKey, s)
    else (Ok d, bump_oid (put_coll c (Collection (docs col ++ [d]) (indexes col)) s)).

(** Modelled from the spec: [insertOne], the plain insert of a document by
    any client of the store; the script itself inserts through upserts
    only. *)
Definition insertOne (c : string) (fs : list (string * value)) : M doc :=
  insert_fields c fs.

(** Modelled from the spec: [db.getCollectionInfos({ name })] and
    [db.createCollection(name)], the existence check and the creation of a
    collection of section 4.1. *)
Definition getCollectionInfos (name : string) : M (list string) :=
  λ s, (Ok (match alookup name (colls s) with Some _ => [name] | None => [] end), s).

Definition createCollection (name : string) : M unit :=
  λ s, match alookup name (colls s) with
       | Some _ => (Threw NamespaceExists, s)
       | None => (Ok tt, put_coll name empty_collection s)
       end.

(** Modelled from the spec: [createIndex] (section 4.2).  A name that is
    taken with the same keys and options is a no-op; a name that is taken
    with another definition is an error and alters nothing.  On what the
    specification leaves open the model refuses, as the store does: keys
    already indexed under another name, and a unique index that the
    documents at hand already break. *)
Definition createIndex (c : string) (key : key_spec) (unique : bool)
    (name : string) : M unit :=
  λ s,
    let col := coll_of s c in
    match List.find (λ ix, String.eqb (ix_name ix) name) (indexes col) with
    | Some ix =>
        if key_spec_eqb (ix_key ix) key && Bool.eqb (ix_unique ix) unique
        then (Ok tt, s)
        else (Threw IndexKeySpecsConflict, s)
    | None =>
        if existsb (λ ix, key_spec_eqb (ix_key ix) key) (indexes col)
        then (Threw IndexOptionsConflict, s)
        else
          let ix := Index name key unique in
          if unique && negb (unique_on ix (docs col))
          then (Threw DuplicateKey, s)
          else (Ok tt, put_coll c (Collection (docs col) (indexes col ++ [ix])) s)
    end.

(** Modelled from the spec: [findOne], the lookup by key; null when
    nothing matches. *)
Definition findOne (c : string) (q : query) : M (option doc) :=
  λ s, (Ok (List.find (matches q) (docs_of s c)), s).

(** The document an upsert inserts: the equality fields of the query, then
    the [$setOnInsert] payload on top. *)
Definition upsert_fields (q : query) (soi : list (string * value))
    : list (string * value) :=
  foldl (λ fs kv, set_field kv.1 kv.2 fs) q soi.

(** Modelled from the spec: the find-or-create primitive of the store
    (section 4.3), an update whose only operator is [$setOnInsert], with
    [upsert: true]: a matching document is left as it is; without one, a
    document is inserted.  The boolean tells whether an insert
    happened. *)
Definition upsert (c : string) (q : query) (soi : list (string * value))
    : M (bool * doc) :=
  λ s, match List.find (matches q) (docs_of s c) with
       | Some d => (Ok (false, d), s)
       | None =>
           match insert_fields c (upsert_fields q soi) s with
           | (Ok d, s') => (Ok (true, d), s')
           | (Threw e, s') => (Threw e, s')
           end
       end.

(** Modelled from the spec: what [findOneAndUpdate] hands back, which
    differs between clients (section 9, open question): mongosh with
    [returnDocument: "after"] returns the document in both cases, others
    return null when nothing was inserted (or when something was). *)
Record driver : Type :=
  Driver { returns_on_match : bool; returns_on_insert : bool }.

Definition mongosh : driver := Driver true true.

Definition findOneAndUpdate (drv : driver) (c : string) (q : query)
    (soi : list (string * value)) : M (option doc) :=
  let* r := upsert c q soi in
  let returned :=
    if r.1 then returns_on_insert drv else returns_on_match drv in
  ret (if returned then Some r.2 else None).

Definition updateOne (c : string) (q : query) (soi : list (string * value))
    : M unit :=
  upsert c q soi ;; ret tt.

(** An update by another actor: [$set] of one field on the documents of
    [c] that match [q].  The script does no such thing; it is what the run
    must not undo. *)
Definition external_set (c : string) (q : query) (k : string) (v : value)
    (s : store) : store :=
  put_coll c
    (Collection
       (map (λ d, if matches q d then Doc (_id d) (set_field k v (fields d))
                  else d) (docs_of s c))
       (indexes_of s c)) s.

(** ** The script *)

Definition collections_users : string := "users".
Definition collections_deliveries : string := "deliveries".
Definition collections_tracking_events : string := "tracking_events".
Definition collections_notifications : string := "notifications".

(** [ensureCollection]: create the collection when [getCollectionInfos]
    finds none of that name; the handle returned is the name. *)
Definition ensureCollection (name : string) : M string :=
  let* infos := getCollectionInfos name in
  let exists_ := (0 <? length infos)%nat in
  (if negb exists_ then createCollection name else ret tt) ;;
  ret name.

Definition customerEmail : string := "customer@example.com".
Definition courierEmail : string := "courier@example.com".
Definition deliveryMarker : string := "seed_delivery_1".

Definition customerDefaults (now : Z) : list (string * value) :=
  [ ("email", VStr customerEmail);
    ("password_hash", VStr "$2b$10$seed.placeholder.hash.for.customer");
    ("role", VStr "customer");
    ("name", VStr "Seed Customer");
    ("phone", VStr "+15550000001");
    ("createdAt", VDate now) ].

Definition courierDefaults (now : Z) : list (string * value) :=
  [ ("email", VStr courierEmail);
    ("password_hash", VStr "$2b$10$seed.placeholder.hash.for.courier");
    ("role", VStr "courier");
    ("name", VStr "Seed Courier");
    ("phone", VStr "+15550000002");
    ("createdAt", VDate now) ].

Definition deliveryDefaults (now : Z) (customerId : oid)
    : list (string * value) :=
  [ ("seedMarker", VStr deliveryMarker);
    ("customerId", VOid customerId);
    ("courierId", VNull);
    ("pickupAddress",
      VDoc [ ("line1", VStr "123 Pickup St");
             ("city", VStr "San Francisco");
             ("state", VStr "CA");
             ("postalCode", VStr "94103");
             ("country", VStr "US") ]);
    ("dropoffAddress",
      VDoc [ ("line1", VStr "987 Dropoff Ave");
             ("city", VStr "San Francisco");
             ("state", VStr "CA");
             ("postalCode", VStr "94107");
             ("country", VStr "US") ]);
    ("packageDetails",
      VDoc [ ("description", VStr "Small box");
             ("weightKg", VNum 12 1);
             ("fragile", VBool false) ]);
    ("price", VNum 1999 2);
    ("status", VStr "requested");
    ("createdAt", VDate now);
    ("updatedAt", VDate now) ].

Definition event1 (now : Z) (deliveryId : oid) : list (string * value) :=
  [ ("deliveryId", VOid deliveryId);
    ("location", VDoc [ ("lat", VNum 377749 4); ("lng", VNum (-1224194) 4) ]);
    ("heading", VNum 90 0);
    ("speed", VNum 0 0);
    ("createdAt", VDate (now - 2 * 60 * 1000));
    ("seedMarker", VStr "seed_tracking_1") ].

Definition event2 (now : Z) (deliveryId : oid) : list (string * value) :=
  [ ("deliveryId", VOid deliveryId);
    ("location", VDoc [ ("lat", VNum 377765 4); ("lng", VNum (-1224172) 4) ]);
    ("heading", VNum 95 0);
    ("speed", VNum 42 1);
    ("createdAt", VDate (now - 1 * 60 * 1000));
    ("seedMarker", VStr "seed_tracking_2") ].

Definition notificationDefaults (now : Z) (customerId : oid)
    : list (string * value) :=
  [ ("seedMarker", VStr "seed_notification_1");
    ("userId", VOid customerId);
    ("type", VStr "delivery_requested");
    ("title", VStr "Delivery requested");
    ("message", VStr "Your delivery request has been created.");
    ("read", VBool false);
    ("createdAt", VDate now) ].

(** [x._id] where [x] may be null: reading a property of null throws. *)
Definition id_of (d : option doc) : M oid :=
  match d with
  | Some d => ret (_id d)
  | None => throw TypeError
  end.

(** Collections and indexes (lines 36 to 60 of the script). *)
Definition provision : M (string * string * string * string) :=
  let* users := ensureCollection collections_users in
  let* deliveries := ensureCollection collections_deliveries in
  let* trackingEvents := ensureCollection collections_tracking_events in
  let* notifications := ensureCollection collections_notifications in
  createIndex users [("email", Asc)] true "users_email_unique" ;;
  createIndex deliveries [("customerId", Asc)] false "deliveries_customerId" ;;
  createIndex deliveries [("courierId", Asc)] false "deliveries_courierId" ;;
  createIndex deliveries [("status", Asc)] false "deliveries_status" ;;
  createIndex deliveries [("createdAt", Desc)] false "deliveries_createdAt_desc" ;;
  createIndex trackingEvents [("deliveryId", Asc); ("createdAt", Desc)] false
    "tracking_deliveryId_createdAt_desc" ;;
  createIndex notifications [("userId", Asc); ("read", Asc)] false
    "notifications_userId_read" ;;
  ret (users, deliveries, trackingEvents, notifications).

(** Seed data (lines 68 to 199 of the script), on documents whose [_id]
    is an ObjectId.  An ObjectId is an object and never falsy, so
    [x?._id || y] takes [y] exactly when [x] is null (lines 102 and 103);
    [x || y] likewise (line 147).  Documents that carry another value as
    [_id] are the matter of [Loose.seed] below, which this one agrees
    with. *)
Definition seed (drv : driver) (now : Z)
    (users deliveries trackingEvents notifications : string) : M unit :=
  let* customerUpsert :=
    findOneAndUpdate drv users [("email", VStr customerEmail)]
      (customerDefaults now) in
  let* courierUpsert :=
    findOneAndUpdate drv users [("email", VStr courierEmail)]
      (courierDefaults now) in
  let* customerId :=
    match customerUpsert with
    | Some d => ret (_id d)
    | None =>
        let* found := findOne users [("email", VStr customerEmail)] in
        id_of found
    end in
  let* courierId :=
    match courierUpsert with
    | Some d => ret (_id d)
    | None =>
        let* found := findOne users [("email", VStr courierEmail)] in
        id_of found
    end in
  let* deliveryUpsert :=
    findOneAndUpdate drv deliveries [("seedMarker", VStr deliveryMarker)]
      (deliveryDefaults now customerId) in
  let* delivery :=
    match deliveryUpsert with
    | Some d => ret (Some d)
    | None => findOne deliveries [("seedMarker", VStr deliveryMarker)]
    end in
  let* deliveryId := id_of delivery in
  updateOne trackingEvents [("seedMarker", VStr "seed_tracking_1")]
    (event1 now deliveryId) ;;
  updateOne trackingEvents [("seedMarker", VStr "seed_tracking_2")]
    (event2 now deliveryId) ;;
  updateOne notifications [("seedMarker", VStr "seed_notification_1")]
    (notificationDefaults now customerId).

(** The whole script; [now] is the value of [new Date()] on line 16, in
    milliseconds. *)
Definition main (drv : driver) (now : Z) : M unit :=
  let* h := provision in
  let '(users, deliveries, trackingEvents, notifications) := h in
  seed drv now users deliveries trackingEvents notifications.

(** Successive runs, one clock value per run; a run that throws ends the
    sequence. *)
Fixpoint runs (drv : driver) (nows : list Z) : M unit :=
  match nows with
  | [] => ret tt
  | now :: rest => main drv now ;; runs drv rest
  end.

Definition run_on (s : store) (m : M unit) : store := (m s).2.


(** ** Notions used to state the properties *)

(** The store after a run, and the first run on the empty store. *)
Definition fresh (drv : driver) (now : Z) : store :=
  run_on empty_store (main drv now).

(** Documents of [c] in [s'] beyond those [s] already had. *)
Definition new_docs (s s' : store) (c : string) : list doc :=
  drop (length (docs_of s c)) (docs_of s' c).

(** A store only ever grows: documents and indexes are appended, and
    collections stay. *)
Definition grows_to (s s' : store) : Prop :=
  (∀ c, docs_of s c `prefix_of` docs_of s' c) ∧
  (∀ c, indexes_of s c `prefix_of` indexes_of s' c) ∧
  (∀ c, is_Some (alookup c (colls s)) → is_Some (alookup c (colls s'))) ∧
  (next_oid s <= next_oid s')%N.

Definition count_where (q : query) (ds : list doc) : nat :=
  length (List.filter (matches q) ds).

(** The identifying keys the script uses, per collection. *)
Definition customerKey : query := [("email", VStr customerEmail)].
Definition courierKey : query := [("email", VStr courierEmail)].
Definition deliveryKey : query := [("seedMarker", VStr deliveryMarker)].
Definition tracking1Key : query := [("seedMarker", VStr "seed_tracking_1")].
Definition tracking2Key : query := [("seedMarker", VStr "seed_tracking_2")].
Definition notificationKey : query :=
  [("seedMarker", VStr "seed_notification_1")].

Definition seed_keys (c : string) : list query :=
  if String.eqb c collections_users then [customerKey; courierKey]
  else if String.eqb c collections_deliveries then [deliveryKey]
  else if String.eqb c collections_tracking_events
       then [tracking1Key; tracking2Key]
  else if String.eqb c collections_notifications then [notificationKey]
  else [].

(** [v] is the identifier of a document of [c] that matches [q]. *)
Definition resolves (s : store) (c : string) (q : query) (v : value) : Prop :=
  ∃ p, In p (docs_of s c) ∧ matches q p = true ∧ v = VOid (_id p).

(** The field names of a User as the data model of the specification
    lists them (the identifier apart). *)
Definition spec_user_field_names : list string :=
  ["email"; "passwordHash"; "role"; "name"; "phone"; "createdAt"].

(** The field names the script gives a User. *)
Definition user_field_names : list string :=
  ["email"; "password_hash"; "role"; "name"; "phone"; "createdAt"].

(** The index table of the specification, per collection. *)
Definition index_table (c : string) : list index :=
  if String.eqb c "users" then
    [Index "users_email_unique" [("email", Asc)] true]
  else if String.eqb c "deliveries" then
    [Index "deliveries_customerId" [("customerId", Asc)] false;
     Index "deliveries_courierId" [("courierId", Asc)] false;
     Index "deliveries_status" [("status", Asc)] false;
     Index "deliveries_createdAt_desc" [("createdAt", Desc)] false]
  else if String.eqb c "tracking_events" then
    [Index "tracking_deliveryId_createdAt_desc"
       [("deliveryId", Asc); ("createdAt", Desc)] false]
  else if String.eqb c "notifications" then
    [Index "notifications_userId_read" [("userId", Asc); ("read", Asc)] false]
  else [].

Definition find_index (name : string) (ixs : list index) : option index :=
  List.find (λ ix, String.eqb (ix_name ix) name) ixs.

(** Every unique index of every collection holds of its documents. *)
Definition indexes_respected (s : store) : Prop :=
  ∀ c ix, In ix (indexes_of s c) → ix_unique ix = true →
          unique_on ix (docs_of s c) = true.

(** Does a value mention the identifier [o]? *)
Fixpoint mentions (o : oid) (v : value) {struct v} : bool :=
  match v with
  | VOid o' => N.eqb o' o
  | VDoc fs =>
      (fix go (fs : list (string * value)) : bool :=
         match fs with
         | [] => false
         | (_, w) :: fs' => mentions o w || go fs'
         end) fs
  | _ => false
  end.

Definition doc_mentions (o : oid) (d : doc) : bool :=
  existsb (λ kv, mentions o kv.2) (fields d).

(** *** Sorted queries

    Modelled from the spec: a query sorted on the keys of an index, each
    key in its declared direction (section 8, Ordering).  The order of
    values the store sorts by: first by kind (null, numbers, strings,
    documents, identifiers, booleans, dates), then within the kind. *)
Definition kind_rank (v : value) : Z :=
  match v with
  | VNull => 2
  | VNum _ _ => 3
  | VStr _ => 4
  | VDoc _ => 5
  | VOid _ => 8
  | VBool _ => 9
  | VDate _ => 10
  end.

Definition then_compare (c : comparison) (d : comparison) : comparison :=
  match c with Eq => d | _ => c end.

Fixpoint value_compare (a b : value) {struct a} : comparison :=
  match a, b with
  | VNull, VNull => Eq
  | VBool x, VBool y => Bool.compare x y
  | VNum m k, VNum m' k' =>
      Z.compare (m * 10 ^ Z.of_N k') (m' * 10 ^ Z.of_N k)
  | VStr x, VStr y => String.compare x y
  | VDate x, VDate y => Z.compare x y
  | VOid x, VOid y => N.compare x y
  | VDoc xs, VDoc ys =>
      (fix go (xs ys : list (string * value)) {struct xs} : comparison :=
         match xs, ys with
         | [], [] => Eq
         | [], _ :: _ => Lt
         | _ :: _, [] => Gt
         | (k, v) :: xs', (k', w) :: ys' =>
             then_compare (Z.compare (kind_rank v) (kind_rank w))
               (then_compare (String.compare k k')
                  (then_compare (value_compare v w) (go xs' ys')))
         end) xs ys
  | _, _ => Z.compare (kind_rank a) (kind_rank b)
  end.

Definition directed (d : direction) (c : comparison) : comparison :=
  match d with Asc => c | Desc => CompOpp c end.

(** Comparison of two documents under a sort specification. *)
Fixpoint doc_compare (key : key_spec) (a b : doc) : comparison :=
  match key with
  | [] => Eq
  | (f, d) :: key' =>
      then_compare (directed d (value_compare (get_field a f) (get_field b f)))
        (doc_compare key' a b)
  end.

Fixpoint insert_sorted (key : key_spec) (d : doc) (ds : list doc) : list doc :=
  match ds with
  | [] => [d]
  | d' :: ds' =>
      match doc_compare key d d' with
      | Gt => d' :: insert_sorted key d ds'
      | _ => d :: ds
      end
  end.

Definition sort_docs (key : key_spec) (ds : list doc) : list doc :=
  foldr (insert_sorted key) [] ds.

(** Modelled from the spec: [c.find(q).sort(key)], the documents of [c]
    that match [q], sorted. *)
Definition find_sorted (c : string) (q : query) (key : key_spec) (s : store)
    : list doc :=
  sort_docs key (List.filter (matches q) (docs_of s c)).

(** *** Relations between the store before and after a command *)

Definition growing {A} (m : M A) : Prop := ∀ s, grows_to s (m s).2.

Definition same_docs (s s' : store) : Prop := ∀ c, docs_of s' c = docs_of s c.

Definition relates (R : store → store → Prop) {A} (m : M A) : Prop :=
  ∀ s, R s (m s).2.

Definition preserves (P : store → Prop) {A} (m : M A) : Prop :=
  ∀ s, P s → P (m s).2.

(** The indexes and collections a completed provisioning leaves behind. *)
Definition provisioned (s : store) : Prop :=
  (∀ c, In c [collections_users; collections_deliveries;
              collections_tracking_events; collections_notifications] →
        is_Some (alookup c (colls s))) ∧
  (∀ c ix, In ix (index_table c) →
           find_index (ix_name ix) (indexes_of s c) = Some ix).

(** *** What a run adds to a store

    The steps of the seed, as the script issues them: collection, key and
    insert-only payload.  A dependent step carries an identifier that
    resolves to its parent in the store at hand. *)
Inductive seed_step (now : Z) (s : store)
    : string → query → list (string * value) → Prop :=
| step_customer :
    seed_step now s collections_users customerKey (customerDefaults now)
| step_courier :
    seed_step now s collections_users courierKey (courierDefaults now)
| step_delivery cid :
    resolves s collections_users customerKey (VOid cid) →
    seed_step now s collections_deliveries deliveryKey
      (deliveryDefaults now cid)
| step_event1 did :
    resolves s collections_deliveries deliveryKey (VOid did) →
    seed_step now s collections_tracking_events tracking1Key (event1 now did)
| step_event2 did :
    resolves s collections_deliveries deliveryKey (VOid did) →
    seed_step now s collections_tracking_events tracking2Key (event2 now did)
| step_notification cid :
    resolves s collections_users customerKey (VOid cid) →
    seed_step now s collections_notifications notificationKey
      (notificationDefaults now cid).

(** A document the run has added: the payload of one of the steps, under a
    key that nothing matched before the run. *)
Definition seeded_doc (now : Z) (s0 s : store) (c : string) (d : doc) : Prop :=
  ∃ q soi, seed_step now s c q soi ∧
           fields d = upsert_fields q soi ∧
           List.find (matches q) (docs_of s0 c) = None.

Definition seed_inv (now : Z) (s0 s : store) : Prop :=
  grows_to s0 s ∧
  ∀ c d, In d (new_docs s0 s c) → seeded_doc now s0 s c d.

(** The specification's wording on the fields of a User: one the run
    creates has the field names of the data model, [passwordHash] among
    them. *)
Definition user_fields_as_specified : Prop :=
  ∀ drv now s d,
    In d (new_docs s (run_on s (main drv now)) collections_users) →
    field_names d ≡ₚ spec_user_field_names.

(** The emails of the users of a store, a missing one reading as null. *)
Definition emails (s : store) : list value :=
  map (λ d, get_field d "email") (docs_of s collections_users).

Definition emails_unique (s : store) : Prop := NoDup (emails s).

(** No two values of a list are equal for the store: whichever two are
    taken, they do not compare equal.  Numbers compare by value, so [1]
    and [1.0] are not distinct. *)
Definition distinct (l : list value) : Prop :=
  ∀ i j a b, (i < j)%nat → l !! i = Some a → l !! j = Some b →
             value_compare a b ≠ Eq.

Definition emails_distinct (s : store) : Prop := distinct (emails s).

(** *** The order of the steps

    The place of a document in the order of the steps, told from its
    collection and its key: customer, courier, delivery, first and second
    tracking event, notification. *)
Definition step_rank (c : string) (d : doc) : nat :=
  if String.eqb c collections_users then
    if matches customerKey d then 0 else 1
  else if String.eqb c collections_deliveries then 2
  else if String.eqb c collections_tracking_events then
    if matches tracking1Key d then 3 else 4
  else 5.

(** The store hands out identifiers in insertion order, so among the
    documents a run has added the one of an earlier step has the smaller
    identifier. *)
Definition created_in_order (s0 s : store) : Prop :=
  ∀ c1 d1 c2 d2,
    In d1 (new_docs s0 s c1) → In d2 (new_docs s0 s c2) →
    (step_rank c1 d1 < step_rank c2 d2)%nat → (_id d1 < _id d2)%N.

(** The invariant of a run that has not yet reached step [k]. *)
Definition order_inv (s0 : store) (k : nat) (s : store) : Prop :=
  grows_to s0 s ∧
  (∀ c d, In d (new_docs s0 s c) →
          (_id d < next_oid s)%N ∧ (step_rank c d < k)%nat) ∧
  created_in_order s0 s.

Definition stage (s0 : store) (k k' : nat) {A} (m : M A) : Prop :=
  ∀ s, order_inv s0 k s → order_inv s0 k' (m s).2.

Definition pure_cmd {A} (m : M A) : Prop := ∀ s, (m s).2 = s.

(** The store of a fresh run after some other actor has moved the delivery
    on: [status] set to ["in_transit"]. *)
Definition status_changed : store :=
  external_set collections_deliveries deliveryKey "status" (VStr "in_transit")
    (fresh mongosh 1000).

(** A store in which a run has work left: the users are there, the courier
    first, and nothing else is. *)
Definition users_only : store :=
  run_on empty_store
    (insertOne collections_users [("email", VStr courierEmail)] ;;
     insertOne collections_users [("email", VStr customerEmail)] ;;
     ret tt).

(** A store whose two users have the same number for an email, written
    with and without a decimal. *)
Definition decimal_emails : store :=
  run_on empty_store
    (insertOne collections_users [("email", VNum 1 0)] ;;
     insertOne collections_users [("email", VNum 10 1)] ;;
     ret tt).

(** A store that no unique index has guarded: two users, one email. *)
Definition duplicate_emails : store :=
  run_on empty_store
    (insertOne collections_users [("email", VStr customerEmail)] ;;
     insertOne collections_users [("email", VStr customerEmail)] ;;
     ret tt).

(** *** Further notions: what a command may throw, and what it leaves alone *)

(** The four collections of the script. *)
Definition script_collections : list string :=
  [collections_users; collections_deliveries;
   collections_tracking_events; collections_notifications].

Definition throws_only (P : error → Prop) {A} (m : M A) : Prop :=
  ∀ s e, (m s).1 = Threw e → P e.

Definition index_error (e : error) : Prop :=
  e = IndexKeySpecsConflict ∨ e = IndexOptionsConflict ∨ e = DuplicateKey.

Definition same_indexes (s s' : store) : Prop :=
  ∀ c, indexes_of s' c = indexes_of s c.

(** A store on which some other index already sits under the name the
    script wants for the email index. *)
Definition conflicting_index : store :=
  run_on empty_store
    (createIndex collections_users [("email", Desc)] false "users_email_unique" ;;
     insertOne collections_users [("email", VStr customerEmail)] ;;
     ret tt).

(** Under every key of the script there is a document. *)
Definition all_seeded (s : store) : Prop :=
  ∀ c q, In q (seed_keys c) →
         ∃ d, List.find (matches q) (docs_of s c) = Some d.

(** The field names of the embedded document under [k]. *)
Definition subfield_names (d : doc) (k : string) : list string :=
  match get_field d k with
  | VDoc fs => map fst fs
  | _ => []
  end.

(** The time a document was stamped with. *)
Definition created_at (d : doc) : option Z :=
  match get_field d "createdAt" with
  | VDate t => Some t
  | _ => None
  end.

(** The steps behind the documents a run has added to [c], in the order
    the documents were added. *)
Definition ranks (s0 s : store) (c : string) : list nat :=
  map (step_rank c) (new_docs s0 s c).

(** The invariant of a run that has not yet reached step [k], with the
    steps behind the added documents of each collection strictly
    increasing: no step has added two. *)
Definition once_inv (s0 : store) (k : nat) (s : store) : Prop :=
  order_inv s0 k s ∧ ∀ c, StronglySorted lt (ranks s0 s c).

Definition staged (I : nat → store → Prop) (k k' : nat) {A} (m : M A) : Prop :=
  ∀ s, I k s → I k' (m s).2.

(** The indexes already on the four collections are indexes of the table:
    nothing stands in the way of provisioning. *)
Definition compatible (s : store) : Prop :=
  ∀ c ix, In c script_collections → In ix (indexes_of s c) →
          In ix (index_table c).

(** The collection [c] is as it was, or as absent as it was. *)
Definition same_at (c : string) (s s' : store) : Prop :=
  alookup c (colls s') = alookup c (colls s).

(** [v] is the identifier of the first document of [c] that matches [q]:
    the one [findOne] returns. *)
Definition first_id (s : store) (c : string) (q : query) (v : value) : Prop :=
  ∃ p, List.find (matches q) (docs_of s c) = Some p ∧ v = VOid (_id p).

(** The references of a document of [c] go to the first document under the
    parent's key. *)
Definition refers_to_first (s : store) (c : string) (d : doc) : Prop :=
  (c = collections_deliveries →
   first_id s collections_users customerKey (get_field d "customerId")) ∧
  (c = collections_tracking_events →
   first_id s collections_deliveries deliveryKey (get_field d "deliveryId")) ∧
  (c = collections_notifications →
   first_id s collections_users customerKey (get_field d "userId")).

Definition first_inv (s0 s : store) : Prop :=
  grows_to s0 s ∧ ∀ c d, In d (new_docs s0 s c) → refers_to_first s c d.

(** A store with two deliveries under the key of the script. *)
Definition two_deliveries : store :=
  run_on empty_store
    (insertOne collections_deliveries [("seedMarker", VStr deliveryMarker)] ;;
     insertOne collections_deliveries
       [("seedMarker", VStr deliveryMarker); ("status", VStr "delivered")] ;;
     ret tt).

(** ** The script over documents with any identifier

    Above, a document's [_id] is an ObjectId, which is what the store gives
    every document it inserts for the script.  A document written by
    another client may carry any value as [_id], null included, and the
    calls may be answered by any client.  This module embeds the seed once
    more for that general case: [_id] is a value, [x?._id || y] takes [y]
    whenever [x] is null or its [_id] is falsy, and the calls on the
    collections go through an interface. *)
Module Loose.

Record doc : Type := Doc { _id : value; fields : list (string * value) }.

Definition get_field (d : doc) (k : string) : value :=
  default VNull (alookup k (fields d)).

Definition matches (q : query) (d : doc) : bool :=
  forallb (λ kv, value_eqb (get_field d kv.1) kv.2) q.

(** What JavaScript takes for false among the values read back from the
    store: null, [false], zero and the empty string. *)
Definition truthy (v : value) : bool :=
  match v with
  | VNull => false
  | VBool b => b
  | VNum m _ => negb (Z.eqb m 0)
  | VStr s => negb (String.eqb s "")
  | VDate _ | VOid _ | VDoc _ => true
  end.

(** *** The monad of a run, over any state *)

Definition M (S A : Type) : Type := S → result A * S.

Definition ret {S A} (a : A) : M S A := λ s, (Ok a, s).
Definition throw {S A} (e : error) : M S A := λ s, (Threw e, s).
Definition bind {S A B} (m : M S A) (k : A → M S B) : M S B :=
  λ s, match m s with
       | (Ok a, s') => k a s'
       | (Threw e, s') => (Threw e, s')
       end.

Notation "'let!' x ':=' m 'in' k" := (bind m (λ x, k))
  (at level 10, x name, m at level 100, k at level 200, only parsing).
Notation "m '>>' k" := (bind m (λ _, k))
  (at level 100, k at level 200, right associativity, only parsing).

(** *** The calls of the script on a collection handle *)

Record client (S : Type) : Type := Client {
  findOneAndUpdate :
    string → query → list (string * value) → M S (option doc);
  findOne : string → query → M S (option doc);
  updateOne : string → query → list (string * value) → M S unit }.
Arguments findOneAndUpdate {S} _ _ _ _.
Arguments findOne {S} _ _ _.
Arguments updateOne {S} _ _ _ _.

(** *** The seed *)

Definition deliveryDefaults (now : Z) (customerId : value)
    : list (string * value) :=
  [ ("seedMarker", VStr deliveryMarker);
    ("customerId", customerId);
    ("courierId", VNull);
    ("pickupAddress",
      VDoc [ ("line1", VStr "123 Pickup St");
             ("city", VStr "San Francisco");
             ("state", VStr "CA");
             ("postalCode", VStr "94103");
             ("country", VStr "US") ]);
    ("dropoffAddress",
      VDoc [ ("line1", VStr "987 Dropoff Ave");
             ("city", VStr "San Francisco");
             ("state", VStr "CA");
             ("postalCode", VStr "94107");
             ("country", VStr "US") ]);
    ("packageDetails",
      VDoc [ ("description", VStr "Small box");
             ("weightKg", VNum 12 1);
             ("fragile", VBool false) ]);
    ("price", VNum 1999 2);
    ("status", VStr "requested");
    ("createdAt", VDate now);
    ("updatedAt", VDate now) ].

Definition event1 (now : Z) (deliveryId : value) : list (string * value) :=
  [ ("deliveryId", deliveryId);
    ("location", VDoc [ ("lat", VNum 377749 4); ("lng", VNum (-1224194) 4) ]);
    ("heading", VNum 90 0);
    ("speed", VNum 0 0);
    ("createdAt", VDate (now - 2 * 60 * 1000));
    ("seedMarker", VStr "seed_tracking_1") ].

Definition event2 (now : Z) (deliveryId : value) : list (string * value) :=
  [ ("deliveryId", deliveryId);
    ("location", VDoc [ ("lat", VNum 377765 4); ("lng", VNum (-1224172) 4) ]);
    ("heading", VNum 95 0);
    ("speed", VNum 42 1);
    ("createdAt", VDate (now - 1 * 60 * 1000));
    ("seedMarker", VStr "seed_tracking_2") ].

Definition notificationDefaults (now : Z) (customerId : value)
    : list (string * value) :=
  [ ("seedMarker", VStr "seed_notification_1");
    ("userId", customerId);
    ("type", VStr "delivery_requested");
    ("title", VStr "Delivery requested");
    ("message", VStr "Your delivery request has been created.");
    ("read", VBool false);
    ("createdAt", VDate now) ].

(** [x._id] where [x] may be null: reading a property of null throws. *)
Definition id_of {S} (d : option doc) : M S value :=
  match d with
  | Some d => ret (_id d)
  | None => throw TypeError
  end.

(** [x?._id || y]: [y] is evaluated, and is the result, when [x] is null
    or the [_id] of [x] is falsy. *)
Definition id_or {S} (x : option doc) (y : M S value) : M S value :=
  match x with
  | Some d => if truthy (_id d) then ret (_id d) else y
  | None => y
  end.

(** Seed data (lines 68 to 199 of the script), on the calls of [cl]. *)
Definition seed {S} (cl : client S) (now : Z)
    (users deliveries trackingEvents notifications : string) : M S unit :=
  let! customerUpsert :=
    findOneAndUpdate cl users [("email", VStr customerEmail)]
      (customerDefaults now) in
  let! courierUpsert :=
    findOneAndUpdate cl users [("email", VStr courierEmail)]
      (courierDefaults now) in
  let! customerId :=
    id_or customerUpsert
      (let! found := findOne cl users [("email", VStr customerEmail)] in
       id_of found) in
  let! courierId :=
    id_or courierUpsert
      (let! found := findOne cl users [("email", VStr courierEmail)] in
       id_of found) in
  let! deliveryUpsert :=
    findOneAndUpdate cl deliveries [("seedMarker", VStr deliveryMarker)]
      (deliveryDefaults now customerId) in
  let! delivery :=
    match deliveryUpsert with
    | Some d => ret (Some d)
    | None => findOne cl deliveries [("seedMarker", VStr deliveryMarker)]
    end in
  let! deliveryId := id_of delivery in
  updateOne cl trackingEvents [("seedMarker", VStr "seed_tracking_1")]
    (event1 now deliveryId) >>
  updateOne cl trackingEvents [("seedMarker", VStr "seed_tracking_2")]
    (event2 now deliveryId) >>
  updateOne cl notifications [("seedMarker", VStr "seed_notification_1")]
    (notificationDefaults now customerId).

(** *** The store *)

Record collection : Type :=
  Collection { docs : list doc; indexes : list index }.

Definition empty_collection : collection := Collection [] [].

Record store : Type :=
  Store { colls : list (string * collection); next_oid : oid }.

Definition empty_store : store := Store [] 0%N.

Definition coll_of (s : store) (c : string) : collection :=
  default empty_collection (alookup c (colls s)).

Definition docs_of (s : store) (c : string) : list doc := docs (coll_of s c).
Definition indexes_of (s : store) (c : string) : list index :=
  indexes (coll_of s c).

Definition index_key (ix : index) (d : doc) : list value :=
  map (λ kd, get_field d kd.1) (ix_key ix).

(** Modelled from the spec: the enforcement of a unique index, as above. *)
Definition violates (ix : index) (ds : list doc) (d : doc) : bool :=
  ix_unique ix &&
  existsb (λ d', values_eqb (index_key ix d') (index_key ix d)) ds.

Fixpoint unique_on (ix : index) (ds : list doc) : bool :=
  match ds with
  | [] => true
  | d :: ds' =>
      negb (existsb (λ d', values_eqb (index_key ix d') (index_key ix d)) ds')
      && unique_on ix ds'
  end.

Definition put_coll (c : string) (col : collection) (s : store) : store :=
  Store (aset c col (colls s)) (next_oid s).

Definition bump_oid (s : store) : store :=
  Store (colls s) (N.succ (next_oid s)).

(** Modelled from the spec: insertion by the store for an upsert, which
    gives the new document a fresh ObjectId and enforces the unique
    indexes of the collection. *)
Definition insert_fields (c : string) (fs : list (string * value))
    : M store doc :=
  λ s,
    let col := coll_of s c in
    let d := Doc (VOid (next_oid s)) fs in
    if existsb (λ ix, violates ix (docs col) d) (indexes col)
    then (Threw DuplicateKey, s)
    else (Ok d, bump_oid (put_coll c (Collection (docs col ++ [d]) (indexes col)) s)).


(** Modelled from the spec: existence check and creation of a collection
    (section 4.1). *)
Definition getCollectionInfos (name : string) : M store (list string) :=
  λ s, (Ok (match alookup name (colls s) with Some _ => [name] | None => [] end), s).

Definition createCollection (name : string) : M store unit :=
  λ s, match alookup name (colls s) with
       | Some _ => (Threw NamespaceExists, s)
       | None => (Ok tt, put_coll name empty_collection s)
       end.

(** Modelled from the spec: [createIndex] (section 4.2), as above. *)
Definition createIndex (c : string) (key : key_spec) (unique : bool)
    (name : string) : M store unit :=
  λ s,
    let col := coll_of s c in
    match List.find (λ ix, String.eqb (ix_name ix) name) (indexes col) with
    | Some ix =>
        if key_spec_eqb (ix_key ix) key && Bool.eqb (ix_unique ix) unique
        then (Ok tt, s)
        else (Threw IndexKeySpecsConflict, s)
    | None =>
        if existsb (λ ix, key_spec_eqb (ix_key ix) key) (indexes col)
        then (Threw IndexOptionsConflict, s)
        else
          let ix := Index name key unique in
          if unique && negb (unique_on ix (docs col))
          then (Threw DuplicateKey, s)
          else (Ok tt, put_coll c (Collection (docs col) (indexes col ++ [ix])) s)
    end.

Definition upsert_fields (q : query) (soi : list (string * value))
    : list (string * value) :=
  foldl (λ fs kv, aset kv.1 kv.2 fs) q soi.

(** Modelled from the spec: the find-or-create primitive of the store
    (section 4.3), as above. *)
Definition upsert (c : string) (q : query) (soi : list (string * value))
    : M store (bool * doc) :=
  λ s, match List.find (matches q) (docs_of s c) with
       | Some d => (Ok (false, d), s)
       | None =>
           match insert_fields c (upsert_fields q soi) s with
           | (Ok d, s') => (Ok (true, d), s')
           | (Threw e, s') => (Threw e, s')
           end
       end.

(** The calls as the store answers them, one after the other, through a
    client of return shape [drv]. *)
Definition store_client (drv : driver) : client store :=
  Client store
    (λ c q soi,
       let! r := upsert c q soi in
       let returned :=
         if r.1 then returns_on_insert drv else returns_on_match drv in
       ret (if returned then Some r.2 else None))
    (λ c q, λ s, (Ok (List.find (matches q) (docs_of s c)), s))
    (λ c q soi, upsert c q soi >> ret tt).

(** *** The script *)

Definition ensureCollection (name : string) : M store string :=
  let! infos := getCollectionInfos name in
  let exists_ := (0 <? length infos)%nat in
  (if negb exists_ then createCollection name else ret tt) >>
  ret name.

Definition provision : M store (string * string * string * string) :=
  let! users := ensureCollection collections_users in
  let! deliveries := ensureCollection collections_deliveries in
  let! trackingEvents := ensureCollection collections_tracking_events in
  let! notifications := ensureCollection collections_notifications in
  createIndex users [("email", Asc)] true "users_email_unique" >>
  createIndex deliveries [("customerId", Asc)] false "deliveries_customerId" >>
  createIndex deliveries [("courierId", Asc)] false "deliveries_courierId" >>
  createIndex deliveries [("status", Asc)] false "deliveries_status" >>
  createIndex deliveries [("createdAt", Desc)] false "deliveries_createdAt_desc" >>
  createIndex trackingEvents [("deliveryId", Asc); ("createdAt", Desc)] false
    "tracking_deliveryId_createdAt_desc" >>
  createIndex notifications [("userId", Asc); ("read", Asc)] false
    "notifications_userId_read" >>
  ret (users, deliveries, trackingEvents, notifications).

Definition main (drv : driver) (now : Z) : M store unit :=
  let! h := provision in
  let '(users, deliveries, trackingEvents, notifications) := h in
  seed (store_client drv) now users deliveries trackingEvents notifications.

(** *** Notions used to state the properties *)

Definition new_docs (s s' : store) (c : string) : list doc :=
  drop (length (docs_of s c)) (docs_of s' c).

Definition extends (s s' : store) : Prop :=
  ∀ c, docs_of s c `prefix_of` docs_of s' c.







(** Another client at work between the calls of the script: it empties
    the collection [victim] before every lookup the script makes there.
    The script's own client returns nothing from an upsert. *)
Definition clear (c : string) (s : store) : store :=
  put_coll c (Collection [] (indexes_of s c)) s.



End Loose.

(** ** The two embeddings side by side

    A store whose documents all have ObjectIds, read as a store of
    documents with any identifier; an outcome of a run likewise.  On such
    stores the two embeddings of the script are to agree. *)
Definition loose_doc (d : doc) : Loose.doc :=
  Loose.Doc (VOid (_id d)) (fields d).

Definition loose_collection (col : collection) : Loose.collection :=
  Loose.Collection (map loose_doc (docs col)) (indexes col).

Definition loose_store (s : store) : Loose.store :=
  Loose.Store (map (λ kc, (kc.1, loose_collection kc.2)) (colls s))
    (next_oid s).

Definition loose_outcome {A B} (f : A → B) (r : result A * store)
    : result B * Loose.store :=
  (match r.1 with Ok a => Ok (f a) | Threw e => Threw e end,
   loose_store r.2).

(** [m'] does on the store read loosely what [m] does on the store, the
    results related by [f]. *)
Definition agrees {A B} (f : A → B) (m : M A) (m' : Loose.M Loose.store B)
    : Prop :=
  ∀ s, m' (loose_store s) = loose_outcome f (m s).

(** * Proofs *)

(** ** Equality of values

    Two values are equal for the store when they compare equal: numbers
    by their value, whatever the number of decimals they were written
    with, everything else by its content. *)

Lemma string_compare_refl s : String.compare s s = Eq.
Proof.
  induction s as [|a s IH]; [done|]. simpl.
  unfold Ascii.compare. by rewrite N.compare_refl.
Qed.

Lemma string_compare_eq s t : String.compare s t = Eq ↔ s = t.
Proof.
  split; [apply String.compare_eq_iff | intros ->; apply string_compare_refl].
Qed.

Lemma then_compare_Eq c d : then_compare c d = Eq ↔ c = Eq ∧ d = Eq.
Proof. destruct c; simpl; intuition discriminate. Qed.

Lemma value_compare_kind a b :
  value_compare a b = Eq → kind_rank a = kind_rank b.
Proof. destruct a, b; simpl; first [discriminate | reflexivity]. Qed.

Lemma value_eqb_compare : ∀ a b, value_eqb a b = true ↔ value_compare a b = Eq.
Proof.
  fix IH 1. intros a b. destruct a, b; simpl;
    try (split; discriminate); try (split; reflexivity).
  - destruct b, b0; simpl; split; first [discriminate | reflexivity].
  - by rewrite Z.eqb_eq, Z.compare_eq_iff.
  - by rewrite String.eqb_eq, string_compare_eq.
  - by rewrite Z.eqb_eq, Z.compare_eq_iff.
  - by rewrite N.eqb_eq, N.compare_eq_iff.
  - revert fs0. induction fs as [|[k v] fs IHfs]; intros [|[k' w] fs'];
      try (split; discriminate); [split; reflexivity|].
    rewrite !andb_true_iff, String.eqb_eq, (IH v w), IHfs.
    rewrite !then_compare_Eq, string_compare_eq, Z.compare_eq_iff.
    split.
    + intros [[-> Hv] Hr]. repeat split; try done. by apply value_compare_kind.
    + intros (_ & -> & Hv & Hr). done.
Qed.

Lemma value_eqb_refl : ∀ a, value_eqb a a = true.
Proof.
  fix IH 1. intros a. destruct a; simpl; try reflexivity.
  - by destruct b.
  - apply Z.eqb_refl.
  - apply String.eqb_refl.
  - apply Z.eqb_refl.
  - apply N.eqb_refl.
  - induction fs as [|[k v] fs IHfs]; [done|].
    by rewrite String.eqb_refl, IH, IHfs.
Qed.

Lemma value_eqb_sym : ∀ a b, value_eqb a b = value_eqb b a.
Proof.
  fix IH 1. intros a b. destruct a, b; simpl; try reflexivity.
  - by destruct b, b0.
  - apply Z.eqb_sym.
  - apply String.eqb_sym.
  - apply Z.eqb_sym.
  - apply N.eqb_sym.
  - revert fs0. induction fs as [|[k v] fs IHfs]; intros [|[k' w] fs'];
      try reflexivity.
    by rewrite String.eqb_sym, (IH v w), IHfs.
Qed.

(** A value equals a string only if it is that string. *)
Lemma value_eqb_str a s : value_eqb a (VStr s) = true ↔ a = VStr s.
Proof.
  destruct a; simpl; try (split; discriminate).
  rewrite String.eqb_eq. split; congruence.
Qed.

Lemma values_eqb_refl xs : values_eqb xs xs = true.
Proof. induction xs as [|x xs IH]; [done|]. simpl. by rewrite value_eqb_refl. Qed.

Lemma values_eqb_sym : ∀ xs ys, values_eqb xs ys = values_eqb ys xs.
Proof.
  induction xs as [|x xs IH]; intros [|y ys]; simpl; try reflexivity.
  by rewrite value_eqb_sym, IH.
Qed.


(** ** Association lists *)

Lemma alookup_aset_eq {V} k (v : V) l : alookup k (aset k v l) = Some v.
Proof.
  induction l as [|[k' v'] l IH]; simpl.
  - by rewrite String.eqb_refl.
  - destruct (String.eqb k' k) eqn:E; simpl.
    + by rewrite String.eqb_refl.
    + by rewrite E.
Qed.

Lemma alookup_aset_ne {V} k k' (v : V) l :
  k ≠ k' → alookup k' (aset k v l) = alookup k' l.
Proof.
  intros Hne. induction l as [|[k0 v0] l IH]; simpl.
  - destruct (String.eqb k k') eqn:E; [|done].
    apply String.eqb_eq in E. done.
  - destruct (String.eqb k0 k) eqn:E; simpl.
    + apply String.eqb_eq in E. subst k0.
      destruct (String.eqb k k') eqn:E'; [|done].
      apply String.eqb_eq in E'. done.
    + by rewrite IH.
Qed.

(** ** Reading the store after a write *)

Lemma coll_of_put_eq c col s : coll_of (put_coll c col s) c = col.
Proof. unfold coll_of, put_coll; simpl. by rewrite alookup_aset_eq. Qed.

Lemma coll_of_put_ne c c' col s :
  c ≠ c' → coll_of (put_coll c col s) c' = coll_of s c'.
Proof. intros. unfold coll_of, put_coll; simpl. by rewrite alookup_aset_ne. Qed.

Lemma is_Some_put c c' col s :
  is_Some (alookup c' (colls s)) → is_Some (alookup c' (colls (put_coll c col s))).
Proof.
  intros H. unfold put_coll; simpl. destruct (decide (c = c')) as [->|Hne].
  - rewrite alookup_aset_eq. eauto.
  - by rewrite alookup_aset_ne.
Qed.

(** ** Growth *)

Global Instance grows_to_preorder : PreOrder grows_to.
Proof.
  split.
  - intros s. split; [|split; [|split]]; [done | done | done | lia].
  - intros s1 s2 s3 (D1 & I1 & C1 & N1) (D2 & I2 & C2 & N2).
    split; [|split; [|split]].
    + intros c. etrans; [apply D1 | apply D2].
    + intros c. etrans; [apply I1 | apply I2].
    + auto.
    + lia.
Qed.

Lemma growing_ret {A} (a : A) : growing (ret a).
Proof. intros s. reflexivity. Qed.

Lemma growing_throw {A} e : growing (@throw A e).
Proof. intros s. reflexivity. Qed.

Lemma growing_bind {A B} (m : M A) (k : A → M B) :
  growing m → (∀ a, growing (k a)) → growing (bind m k).
Proof.
  intros Hm Hk s. unfold bind. specialize (Hm s).
  destruct (m s) as [[a|e] s1]; simpl in *; [|done].
  etrans; [exact Hm | apply Hk].
Qed.

Lemma growing_eq {A} (m : M A) s r s' :
  growing m → m s = (r, s') → grows_to s s'.
Proof. intros Hm E. specialize (Hm s). by rewrite E in Hm. Qed.

Lemma put_coll_grows c col s :
  docs (coll_of s c) `prefix_of` docs col →
  indexes (coll_of s c) `prefix_of` indexes col →
  grows_to s (put_coll c col s).
Proof.
  intros Hd Hi. split; [|split; [|split]].
  - intros c'. unfold docs_of. destruct (decide (c = c')) as [->|Hne].
    + by rewrite coll_of_put_eq.
    + by rewrite coll_of_put_ne.
  - intros c'. unfold indexes_of. destruct (decide (c = c')) as [->|Hne].
    + by rewrite coll_of_put_eq.
    + by rewrite coll_of_put_ne.
  - intros c'. apply is_Some_put.
  - simpl. lia.
Qed.


(** ** Searching a list that grows *)

Lemma find_app_Some {A} (f : A → bool) l l' x :
  List.find f l = Some x → List.find f (l ++ l') = Some x.
Proof.
  induction l as [|a l IH]; simpl; [done|].
  destruct (f a); [done | exact IH].
Qed.

Lemma find_app_None {A} (f : A → bool) l l' :
  List.find f l = None → List.find f (l ++ l') = List.find f l'.
Proof.
  induction l as [|a l IH]; simpl; [done|].
  destruct (f a); [done | exact IH].
Qed.

Lemma find_prefix_Some {A} (f : A → bool) (l l' : list A) x :
  l `prefix_of` l' → List.find f l = Some x → List.find f l' = Some x.
Proof. intros [k ->]. apply find_app_Some. Qed.

Lemma find_prefix_None {A} (f : A → bool) (l l' : list A) :
  l `prefix_of` l' → List.find f l' = None → List.find f l = None.
Proof.
  intros [k ->] H. destruct (List.find f l) as [x|] eqn:E; [|done].
  by rewrite (find_app_Some f l k x E) in H.
Qed.

Lemma In_prefix {A} (l l' : list A) x : l `prefix_of` l' → In x l → In x l'.
Proof. intros [k ->] H. apply in_or_app. by left. Qed.

Lemma drop_prefix_snoc {A} (l0 l : list A) x :
  l0 `prefix_of` l → drop (length l0) (l ++ [x]) = drop (length l0) l ++ [x].
Proof.
  intros [k ->]. rewrite <- app_assoc.
  by rewrite !drop_app_length.
Qed.

(** ** What the store primitives do *)

Lemma insert_fields_ok c fs s d s' :
  insert_fields c fs s = (Ok d, s') →
  d = Doc (next_oid s) fs ∧
  docs_of s' c = docs_of s c ++ [d] ∧
  (∀ c', c' ≠ c → docs_of s' c' = docs_of s c') ∧
  (∀ c', indexes_of s' c' = indexes_of s c') ∧
  next_oid s' = N.succ (next_oid s) ∧
  (∀ ix, In ix (indexes_of s c) → violates ix (docs_of s c) d = false) ∧
  grows_to s s'.
Proof.
  unfold insert_fields.
  destruct (existsb _ _) eqn:Hv; [discriminate|].
  intros [= <- <-].
  assert (Hg : grows_to s (put_coll c
            (Collection (docs (coll_of s c) ++ [Doc (next_oid s) fs])
                        (indexes (coll_of s c))) s)).
  { apply put_coll_grows; simpl; [by apply prefix_app_r | done]. }
  split; [done|]. split; [|split; [|split; [|split; [|split]]]].
  - unfold docs_of, bump_oid, coll_of; simpl. by rewrite alookup_aset_eq.
  - intros c' Hne. unfold docs_of, bump_oid, coll_of; simpl.
    by rewrite alookup_aset_ne.
  - intros c'. unfold indexes_of, bump_oid, coll_of; simpl.
    destruct (decide (c = c')) as [->|Hne].
    + by rewrite alookup_aset_eq.
    + by rewrite alookup_aset_ne.
  - done.
  - intros ix Hix.
    destruct (violates ix _ _) eqn:E; [|done].
    assert (existsb (λ ix, violates ix (docs (coll_of s c)) (Doc (next_oid s) fs))
              (indexes (coll_of s c)) = true) as Hex
      by (apply existsb_exists; eauto).
    congruence.
  - destruct Hg as (D & I & C & N).
    split; [|split; [|split]]; [exact D | exact I | exact C | simpl; lia].
Qed.

Lemma insert_fields_threw c fs s e s' :
  insert_fields c fs s = (Threw e, s') → s' = s ∧ e = DuplicateKey.
Proof.
  unfold insert_fields. destruct (existsb _ _); [|discriminate].
  by intros [= <- <-].
Qed.

Lemma upsert_matched c q soi s d :
  List.find (matches q) (docs_of s c) = Some d →
  upsert c q soi s = (Ok (false, d), s).
Proof. intros H. unfold upsert. by rewrite H. Qed.

Lemma upsert_cases c q soi s :
  match upsert c q soi s with
  | (Ok (ins, d), s') =>
      if ins
      then List.find (matches q) (docs_of s c) = None ∧
           insert_fields c (upsert_fields q soi) s = (Ok d, s')
      else List.find (matches q) (docs_of s c) = Some d ∧ s' = s
  | (Threw e, s') => s' = s
  end.
Proof.
  unfold upsert. destruct (List.find _ _) as [d|] eqn:Hf; [done|].
  destruct (insert_fields _ _ _) as [[d|e] s'] eqn:Hi; [done|].
  by apply insert_fields_threw in Hi as [-> _].
Qed.

Lemma upsert_grows c q soi : growing (upsert c q soi).
Proof.
  intros s. pose proof (upsert_cases c q soi s) as H.
  destruct (upsert c q soi s) as [[[[] d]|e] s']; simpl.
  - destruct H as [_ H]. by apply insert_fields_ok in H as (_ & _ & _ & _ & _ & _ & ?).
  - destruct H as [_ ->]. reflexivity.
  - subst. reflexivity.
Qed.

Lemma createCollection_grows c : growing (createCollection c).
Proof.
  intros s. unfold createCollection.
  destruct (alookup c (colls s)) eqn:E; simpl; [reflexivity|].
  apply put_coll_grows; unfold coll_of; rewrite E; simpl; apply prefix_nil.
Qed.

Lemma ensureCollection_grows c : growing (ensureCollection c).
Proof.
  unfold ensureCollection. apply growing_bind; [intros s; reflexivity|].
  intros infos. apply growing_bind; [|intros; apply growing_ret].
  destruct (negb _); [apply createCollection_grows | apply growing_ret].
Qed.

Lemma createIndex_grows c key u name : growing (createIndex c key u name).
Proof.
  intros s. unfold createIndex.
  destruct (List.find _ _) as [ix|].
  - destruct (_ && _); reflexivity.
  - destruct (existsb _ _); [reflexivity|].
    destruct (_ && _); [reflexivity|]. simpl.
    apply put_coll_grows; simpl; [done | by apply prefix_app_r].
Qed.

Lemma findOne_grows c q : growing (findOne c q).
Proof. intros s. reflexivity. Qed.

Lemma findOneAndUpdate_grows drv c q soi : growing (findOneAndUpdate drv c q soi).
Proof.
  unfold findOneAndUpdate. apply growing_bind; [apply upsert_grows|].
  intros r. apply growing_ret.
Qed.

Lemma updateOne_grows c q soi : growing (updateOne c q soi).
Proof.
  unfold updateOne. apply growing_bind; [apply upsert_grows|].
  intros r. apply growing_ret.
Qed.

Lemma id_of_grows d : growing (id_of d).
Proof. destruct d; [apply growing_ret | apply growing_throw]. Qed.

Lemma provision_grows : growing provision.
Proof.
  unfold provision.
  repeat (apply growing_bind; [first [apply ensureCollection_grows | apply createIndex_grows]|intros ?]).
  apply growing_ret.
Qed.

Lemma seed_grows drv now u d t n : growing (seed drv now u d t n).
Proof.
  unfold seed.
  repeat first
    [ apply growing_ret
    | apply findOneAndUpdate_grows
    | apply updateOne_grows
    | apply findOne_grows
    | apply id_of_grows
    | apply growing_bind; [|intros ?]
    | match goal with |- growing (match ?x with _ => _ end) => destruct x end ].
Qed.

(** ** The client's return shape does not matter

    Whatever [findOneAndUpdate] hands back, the lookup that follows a null
    finds the document the upsert matched or inserted. *)

Lemma upsert_find c q soi s ins d s' :
  matches q (Doc (next_oid s) (upsert_fields q soi)) = true →
  upsert c q soi s = (Ok (ins, d), s') →
  List.find (matches q) (docs_of s' c) = Some d ∧ matches q d = true.
Proof.
  intros Hself E. pose proof (upsert_cases c q soi s) as H. rewrite E in H.
  destruct ins.
  - destruct H as [Hn Hi].
    apply insert_fields_ok in Hi as (-> & Hd & _).
    rewrite Hd, (find_app_None _ _ _ Hn). simpl. by rewrite Hself.
  - destruct H as [Hf ->]. split; [done|].
    by apply find_some in Hf as [_ ?].
Qed.

Lemma find_grows q c s s' d :
  grows_to s s' →
  List.find (matches q) (docs_of s c) = Some d →
  List.find (matches q) (docs_of s' c) = Some d.
Proof. intros (D & _) H. eapply find_prefix_Some; [apply D | done]. Qed.

Lemma bind_ok {A B} (m : M A) (k : A → M B) s a s1 :
  m s = (Ok a, s1) → bind m k s = k a s1.
Proof. intros H. unfold bind. by rewrite H. Qed.

Lemma bind_threw {A B} (m : M A) (k : A → M B) s e s1 :
  m s = (Threw e, s1) → bind m k s = (Threw e, s1).
Proof. intros H. unfold bind. by rewrite H. Qed.

Lemma findOneAndUpdate_ok drv c q soi s ins d s' :
  upsert c q soi s = (Ok (ins, d), s') →
  findOneAndUpdate drv c q soi s =
    (Ok (if (if ins then returns_on_insert drv else returns_on_match drv)
         then Some d else None), s').
Proof. intros H. unfold findOneAndUpdate. by rewrite (bind_ok _ _ _ _ _ H). Qed.

Lemma findOneAndUpdate_threw drv c q soi s e s' :
  upsert c q soi s = (Threw e, s') →
  findOneAndUpdate drv c q soi s = (Threw e, s').
Proof. intros H. unfold findOneAndUpdate. by rewrite (bind_threw _ _ _ _ _ H). Qed.

Lemma resolve_id (r : option doc) c q d s :
  List.find (matches q) (docs_of s c) = Some d →
  r = Some d ∨ r = None →
  match r with
  | Some d0 => ret (_id d0)
  | None => let* found := findOne c q in id_of found
  end s = (Ok (_id d), s).
Proof.
  intros F [-> | ->]; [done|].
  unfold bind, findOne. by rewrite F.
Qed.

Lemma resolve_doc (r : option doc) c q d s :
  List.find (matches q) (docs_of s c) = Some d →
  r = Some d ∨ r = None →
  match r with
  | Some d0 => ret (Some d0)
  | None => findOne c q
  end s = (Ok (Some d), s).
Proof. intros F [-> | ->]; [done|]. unfold findOne. by rewrite F. Qed.

Lemma returned_or_null (b : bool) (d : doc) :
  (if b then Some d else None) = Some d ∨ (if b then Some d else None) = None.
Proof. destruct b; auto. Qed.

Lemma seed_driver_independent drv now u d t n s :
  seed drv now u d t n s = seed mongosh now u d t n s.
Proof.
  unfold seed.
  destruct (upsert u [("email", VStr customerEmail)] (customerDefaults now) s)
    as [[[ins1 d1]|e1] s1] eqn:E1;
    [|by rewrite !(bind_threw _ _ _ _ _ (findOneAndUpdate_threw _ _ _ _ _ _ _ E1))].
  rewrite !(bind_ok _ _ _ _ _ (findOneAndUpdate_ok _ _ _ _ _ _ _ _ E1)).
  apply upsert_find in E1 as [F1 _]; [|reflexivity].
  destruct (upsert u [("email", VStr courierEmail)] (courierDefaults now) s1)
    as [[[ins2 d2]|e2] s2] eqn:E2;
    [|by rewrite !(bind_threw _ _ _ _ _ (findOneAndUpdate_threw _ _ _ _ _ _ _ E2))].
  rewrite !(bind_ok _ _ _ _ _ (findOneAndUpdate_ok _ _ _ _ _ _ _ _ E2)).
  pose proof (upsert_grows u [("email", VStr courierEmail)] (courierDefaults now) s1) as G2.
  rewrite E2 in G2. simpl in G2.
  apply upsert_find in E2 as [F2 _]; [|reflexivity].
  apply (find_grows _ _ _ _ _ G2) in F1.
  rewrite !(bind_ok _ _ _ _ _ (resolve_id _ _ _ _ _ F1 (returned_or_null _ _))).
  rewrite !(bind_ok _ _ _ _ _ (resolve_id _ _ _ _ _ F2 (returned_or_null _ _))).
  destruct (upsert d [("seedMarker", VStr deliveryMarker)]
              (deliveryDefaults now (_id d1)) s2)
    as [[[ins3 d3]|e3] s3] eqn:E3;
    [|by rewrite !(bind_threw _ _ _ _ _ (findOneAndUpdate_threw _ _ _ _ _ _ _ E3))].
  rewrite !(bind_ok _ _ _ _ _ (findOneAndUpdate_ok _ _ _ _ _ _ _ _ E3)).
  apply upsert_find in E3 as [F3 _]; [|reflexivity].
  rewrite !(bind_ok _ _ _ _ _ (resolve_doc _ _ _ _ _ F3 (returned_or_null _ _))).
  reflexivity.
Qed.

Lemma main_driver_independent drv now s :
  main drv now s = main mongosh now s.
Proof.
  unfold main, bind.
  destruct (provision s) as [[[[[u d] t] n]|e] s1]; [|done].
  apply seed_driver_independent.
Qed.

(** ** What a run adds to a store *)

Lemma resolves_mono s s' c q v :
  grows_to s s' → resolves s c q v → resolves s' c q v.
Proof.
  intros (D & _) (p & Hin & Hm & ->).
  exists p. split; [|done]. eapply In_prefix; [apply D | done].
Qed.

Lemma seed_step_mono now s s' c q soi :
  grows_to s s' → seed_step now s c q soi → seed_step now s' c q soi.
Proof.
  intros G []; constructor; by eapply resolves_mono.
Qed.

Lemma seeded_doc_mono now s0 s s' c d :
  grows_to s s' → seeded_doc now s0 s c d → seeded_doc now s0 s' c d.
Proof.
  intros G (q & soi & St & Hf & Hn).
  exists q, soi. split; [by eapply seed_step_mono | done].
Qed.

Lemma seed_step_selfmatch now s c q soi i :
  seed_step now s c q soi → matches q (Doc i (upsert_fields q soi)) = true.
Proof. intros []; reflexivity. Qed.

Lemma upsert_seed_inv now s0 c q soi s r s' :
  seed_inv now s0 s → seed_step now s c q soi →
  upsert c q soi s = (r, s') →
  seed_inv now s0 s' ∧
  ∀ ins d, r = Ok (ins, d) →
    List.find (matches q) (docs_of s' c) = Some d ∧
    In d (docs_of s' c) ∧ matches q d = true.
Proof.
  intros [G N] St E.
  pose proof (upsert_cases c q soi s) as H. rewrite E in H.
  destruct r as [[ins d]|e].
  - assert (Hpost : List.find (matches q) (docs_of s' c) = Some d ∧
                    In d (docs_of s' c) ∧ matches q d = true).
    { apply upsert_find in E as [F Hm];
        [|by eapply seed_step_selfmatch].
      split; [done|]. split; [|done]. by apply find_some in F as [? _]. }
    split; [|by intros ? ? [= <- <-]].
    destruct ins.
    + destruct H as [Hn Hi].
      apply insert_fields_ok in Hi as (Hd & Hdocs & Hother & _ & _ & _ & Gs).
      split; [by etrans|].
      intros c' d' Hin. destruct (decide (c' = c)) as [->|Hne].
      * unfold new_docs in Hin. rewrite Hdocs in Hin.
        rewrite drop_prefix_snoc in Hin by apply G.
        apply in_app_or in Hin as [Hold|[<-|[]]].
        -- eapply seeded_doc_mono; [exact Gs|]. by apply N.
        -- exists q, soi. split; [by eapply seed_step_mono|].
           split; [by rewrite Hd|].
           eapply find_prefix_None; [apply G | exact Hn].
      * unfold new_docs in Hin. rewrite Hother in Hin by done.
        eapply seeded_doc_mono; [exact Gs|]. by apply N.
    + destruct H as [_ ->]. by split.
  - subst s'. split; [by split | by intros].
Qed.

Lemma updateOne_seed_inv now s0 c q soi s :
  seed_inv now s0 s → seed_step now s c q soi →
  seed_inv now s0 (updateOne c q soi s).2.
Proof.
  intros HJ St. unfold updateOne, bind.
  destruct (upsert c q soi s) as [r s'] eqn:E.
  eapply upsert_seed_inv in E as [HJ' _]; [|done..].
  by destruct r.
Qed.

(** ** Provisioning *)

Lemma key_spec_eqb_eq a b : key_spec_eqb a b = true ↔ a = b.
Proof.
  revert b. induction a as [|[f d] a IH]; intros [|[g e] b]; simpl;
    try (split; [discriminate | congruence]); [split; reflexivity|].
  rewrite !andb_true_iff, String.eqb_eq, IH.
  split.
  - intros [[-> Hd] ->]. by destruct d, e.
  - intros [= -> -> ->]. by destruct e.
Qed.

Lemma bind_inv_ok {A B} (m : M A) (k : A → M B) s b s' :
  bind m k s = (Ok b, s') →
  ∃ a s1, m s = (Ok a, s1) ∧ k a s1 = (Ok b, s').
Proof.
  unfold bind. destruct (m s) as [[a|e] s1]; [eauto | discriminate].
Qed.

Lemma ensureCollection_eq c s :
  ensureCollection c s =
    (Ok c, match alookup c (colls s) with
           | Some _ => s
           | None => put_coll c empty_collection s
           end).
Proof.
  unfold ensureCollection, bind, getCollectionInfos, createCollection.
  destruct (alookup c (colls s)) eqn:E; simpl; [done|]. by rewrite E.
Qed.

Lemma ensureCollection_present c s :
  is_Some (alookup c (colls s)) → ensureCollection c s = (Ok c, s).
Proof. intros [col E]. rewrite ensureCollection_eq. by rewrite E. Qed.

Lemma ensureCollection_creates c s :
  is_Some (alookup c (colls (ensureCollection c s).2)).
Proof.
  rewrite ensureCollection_eq. simpl.
  destruct (alookup c (colls s)) eqn:E; [by rewrite E|].
  simpl. rewrite alookup_aset_eq. eauto.
Qed.

Lemma ensureCollection_docs c s c' :
  docs_of (ensureCollection c s).2 c' = docs_of s c'.
Proof.
  rewrite ensureCollection_eq. simpl.
  destruct (alookup c (colls s)) eqn:E; [done|].
  unfold docs_of. destruct (decide (c = c')) as [->|Hne].
  - rewrite coll_of_put_eq. unfold coll_of. by rewrite E.
  - by rewrite coll_of_put_ne.
Qed.

Lemma createIndex_docs c key u name s c' :
  docs_of (createIndex c key u name s).2 c' = docs_of s c'.
Proof.
  unfold createIndex.
  destruct (find _ _); [by destruct (_ && _)|].
  destruct (existsb _ _); [done|]. destruct (_ && _); [done|]. simpl.
  unfold docs_of. destruct (decide (c = c')) as [->|Hne].
  - by rewrite coll_of_put_eq.
  - by rewrite coll_of_put_ne.
Qed.

Lemma find_index_name name ixs ix :
  find_index name ixs = Some ix → ix_name ix = name.
Proof.
  intros H. apply find_some in H as [_ H]. by apply String.eqb_eq in H.
Qed.

Lemma createIndex_ok c key u name s s' :
  createIndex c key u name s = (Ok tt, s') →
  find_index name (indexes_of s' c) = Some (Index name key u).
Proof.
  unfold createIndex, indexes_of. fold (find_index name (indexes (coll_of s c))).
  destruct (find_index _ _) as [ix|] eqn:F.
  - destruct (_ && _) eqn:E; [|discriminate]. intros [= <-].
    apply andb_true_iff in E as [Hk Hu].
    apply key_spec_eqb_eq in Hk. apply Bool.eqb_prop in Hu.
    rewrite F. f_equal. apply find_index_name in F.
    destruct ix; simpl in *; by subst.
  - destruct (existsb _ _); [discriminate|].
    destruct (_ && _); [discriminate|]. intros [= <-].
    rewrite coll_of_put_eq. simpl. unfold find_index in *.
    rewrite (find_app_None _ _ _ F). simpl. by rewrite String.eqb_refl.
Qed.

Lemma createIndex_present c key u name s :
  find_index name (indexes_of s c) = Some (Index name key u) →
  createIndex c key u name s = (Ok tt, s).
Proof.
  unfold createIndex, indexes_of, find_index. intros ->. simpl.
  assert (key_spec_eqb key key = true) as -> by by apply key_spec_eqb_eq.
  by rewrite Bool.eqb_reflx.
Qed.

Lemma find_index_grows name c s s' ix :
  grows_to s s' →
  find_index name (indexes_of s c) = Some ix →
  find_index name (indexes_of s' c) = Some ix.
Proof. intros (_ & I & _) H. eapply find_prefix_Some; [apply I | done]. Qed.

Global Instance same_docs_preorder : PreOrder same_docs.
Proof.
  split.
  - by intros s c.
  - intros s1 s2 s3 H1 H2 c. by rewrite H2, H1.
Qed.

Lemma relates_ret R `{!PreOrder R} {A} (a : A) : relates R (ret a).
Proof. intros s. simpl. reflexivity. Qed.

Lemma relates_bind R `{!PreOrder R} {A B} (m : M A) (k : A → M B) :
  relates R m → (∀ a, relates R (k a)) → relates R (bind m k).
Proof.
  intros Hm Hk s. unfold bind. specialize (Hm s).
  destruct (m s) as [[a|e] s1]; simpl in *; [|done].
  etrans; [exact Hm | apply Hk].
Qed.

Lemma provision_same_docs : relates same_docs provision.
Proof.
  unfold provision.
  repeat (apply (relates_bind same_docs);
          [first [ intros s c; apply ensureCollection_docs
                 | intros s c; apply createIndex_docs ] | intros ?]).
  apply (relates_ret same_docs).
Qed.

Lemma provision_names s h s' :
  provision s = (Ok h, s') →
  h = (collections_users, collections_deliveries,
       collections_tracking_events, collections_notifications).
Proof.
  unfold provision. intros H.
  repeat (rewrite (bind_ok _ _ _ _ _ (ensureCollection_eq _ _)) in H).
  repeat (apply bind_inv_ok in H as (? & ? & _ & H)).
  by injection H as <- _.
Qed.

Lemma provision_provisioned s h s' :
  provision s = (Ok h, s') → provisioned s'.
Proof.
  unfold provision. intros H.
  pose proof (ensureCollection_creates collections_users s) as C1.
  pose proof (ensureCollection_grows collections_users s) as G1.
  destruct (ensureCollection collections_users s) as [r1 s1] eqn:E1.
  rewrite ensureCollection_eq in E1. injection E1 as <- E1.
  rewrite (bind_ok _ _ _ _ _ (ensureCollection_eq _ _)) in H. rewrite E1 in H.
  clear E1. simpl in C1, G1.
  pose proof (ensureCollection_creates collections_deliveries s1) as C2.
  pose proof (ensureCollection_grows collections_deliveries s1) as G2.
  destruct (ensureCollection collections_deliveries s1) as [r2 s2] eqn:E2.
  rewrite ensureCollection_eq in E2. injection E2 as <- E2.
  rewrite (bind_ok _ _ _ _ _ (ensureCollection_eq _ _)) in H. rewrite E2 in H.
  clear E2. simpl in C2, G2.
  pose proof (ensureCollection_creates collections_tracking_events s2) as C3.
  pose proof (ensureCollection_grows collections_tracking_events s2) as G3.
  destruct (ensureCollection collections_tracking_events s2) as [r3 s3] eqn:E3.
  rewrite ensureCollection_eq in E3. injection E3 as <- E3.
  rewrite (bind_ok _ _ _ _ _ (ensureCollection_eq _ _)) in H. rewrite E3 in H.
  clear E3. simpl in C3, G3.
  pose proof (ensureCollection_creates collections_notifications s3) as C4.
  pose proof (ensureCollection_grows collections_notifications s3) as G4.
  destruct (ensureCollection collections_notifications s3) as [r4 s4] eqn:E4.
  rewrite ensureCollection_eq in E4. injection E4 as <- E4.
  rewrite (bind_ok _ _ _ _ _ (ensureCollection_eq _ _)) in H. rewrite E4 in H.
  clear E4. simpl in C4, G4.
  apply bind_inv_ok in H as ([] & t1 & I1 & H).
  apply bind_inv_ok in H as ([] & t2 & I2 & H).
  apply bind_inv_ok in H as ([] & t3 & I3 & H).
  apply bind_inv_ok in H as ([] & t4 & I4 & H).
  apply bind_inv_ok in H as ([] & t5 & I5 & H).
  apply bind_inv_ok in H as ([] & t6 & I6 & H).
  apply bind_inv_ok in H as ([] & t7 & I7 & H).
  injection H as _ <-.
  pose proof (growing_eq _ _ _ _ (createIndex_grows _ _ _ _) I1) as K1.
  pose proof (growing_eq _ _ _ _ (createIndex_grows _ _ _ _) I2) as K2.
  pose proof (growing_eq _ _ _ _ (createIndex_grows _ _ _ _) I3) as K3.
  pose proof (growing_eq _ _ _ _ (createIndex_grows _ _ _ _) I4) as K4.
  pose proof (growing_eq _ _ _ _ (createIndex_grows _ _ _ _) I5) as K5.
  pose proof (growing_eq _ _ _ _ (createIndex_grows _ _ _ _) I6) as K6.
  pose proof (growing_eq _ _ _ _ (createIndex_grows _ _ _ _) I7) as K7.
  apply createIndex_ok in I1, I2, I3, I4, I5, I6, I7.
  assert (Gs4 : grows_to s4 t7) by (repeat (etrans; [eassumption|]); reflexivity).
  split.
  - intros c Hc. destruct Gs4 as (_ & _ & Cs & _). apply Cs.
    simpl in Hc. destruct Hc as [<-|[<-|[<-|[<-|[]]]]].
    + destruct G2 as (_ & _ & X2 & _), G3 as (_ & _ & X3 & _), G4 as (_ & _ & X4 & _). auto.
    + destruct G3 as (_ & _ & X3 & _), G4 as (_ & _ & X4 & _). auto.
    + destruct G4 as (_ & _ & X4 & _). auto.
    + auto.
  - intros c ix Hin. unfold index_table in Hin.
    repeat match type of Hin with
    | In _ (if String.eqb ?c ?n then _ else _) =>
        let E := fresh "E" in
        destruct (String.eqb c n) eqn:E;
        [apply String.eqb_eq in E; subst c|]
    end; simpl in Hin.
    + destruct Hin as [<-|[]]. simpl.
      eapply find_index_grows; [|exact I1].
      repeat (etrans; [eassumption|]); reflexivity.
    + destruct Hin as [<-|[<-|[<-|[<-|[]]]]]; simpl.
      * eapply find_index_grows; [|exact I2].
        repeat (etrans; [eassumption|]); reflexivity.
      * eapply find_index_grows; [|exact I3].
        repeat (etrans; [eassumption|]); reflexivity.
      * eapply find_index_grows; [|exact I4].
        repeat (etrans; [eassumption|]); reflexivity.
      * eapply find_index_grows; [|exact I5].
        repeat (etrans; [eassumption|]); reflexivity.
    + destruct Hin as [<-|[]]. simpl.
      eapply find_index_grows; [|exact I6].
      repeat (etrans; [eassumption|]); reflexivity.
    + destruct Hin as [<-|[]]. simpl. exact I7.
    + destruct Hin.
Qed.

Lemma provision_again s :
  provisioned s →
  provision s = (Ok (collections_users, collections_deliveries,
                     collections_tracking_events, collections_notifications), s).
Proof.
  intros [Hc Hi]. unfold provision.
  rewrite (bind_ok _ _ _ _ _ (ensureCollection_present collections_users s
             (Hc collections_users ltac:(simpl; auto)))).
  rewrite (bind_ok _ _ _ _ _ (ensureCollection_present collections_deliveries s
             (Hc collections_deliveries ltac:(simpl; auto)))).
  rewrite (bind_ok _ _ _ _ _ (ensureCollection_present collections_tracking_events s
             (Hc collections_tracking_events ltac:(simpl; auto)))).
  rewrite (bind_ok _ _ _ _ _ (ensureCollection_present collections_notifications s
             (Hc collections_notifications ltac:(simpl; auto)))).
  repeat (rewrite (bind_ok _ _ s tt s);
          [|apply createIndex_present;
            apply (Hi _ (Index _ _ _)); simpl; auto 10]).
  reflexivity.
Qed.

(** ** The seed keeps its invariant *)

Lemma seed_keeps_inv now s0 s :
  seed_inv now s0 s →
  seed_inv now s0
    (seed mongosh now collections_users collections_deliveries
       collections_tracking_events collections_notifications s).2.
Proof.
  intros J0. unfold seed.
  destruct (upsert collections_users [("email", VStr customerEmail)]
              (customerDefaults now) s) as [r1 s1] eqn:E1.
  pose proof (upsert_seed_inv now s0 _ _ _ _ _ _ J0 (step_customer now s) E1)
    as [J1 P1].
  destruct r1 as [[ins1 d1]|e1];
    [|by rewrite (bind_threw _ _ _ _ _ (findOneAndUpdate_threw _ _ _ _ _ _ _ E1))].
  rewrite (bind_ok _ _ _ _ _ (findOneAndUpdate_ok _ _ _ _ _ _ _ _ E1)).
  destruct (P1 _ _ eq_refl) as (F1 & _ & _). clear P1 E1.
  destruct (upsert collections_users [("email", VStr courierEmail)]
              (courierDefaults now) s1) as [r2 s2] eqn:E2.
  pose proof (upsert_seed_inv now s0 _ _ _ _ _ _ J1 (step_courier now s1) E2)
    as [J2 P2].
  pose proof (growing_eq _ _ _ _ (upsert_grows _ _ _) E2) as G2.
  destruct r2 as [[ins2 d2]|e2];
    [|by rewrite (bind_threw _ _ _ _ _ (findOneAndUpdate_threw _ _ _ _ _ _ _ E2))].
  rewrite (bind_ok _ _ _ _ _ (findOneAndUpdate_ok _ _ _ _ _ _ _ _ E2)).
  destruct (P2 _ _ eq_refl) as (F2 & _ & _). clear P2 E2.
  apply (find_grows _ _ _ _ _ G2) in F1.
  rewrite (bind_ok _ _ _ _ _ (resolve_id _ _ _ _ _ F1 (returned_or_null _ _))).
  rewrite (bind_ok _ _ _ _ _ (resolve_id _ _ _ _ _ F2 (returned_or_null _ _))).
  assert (R1 : resolves s2 collections_users customerKey (VOid (_id d1))).
  { apply find_some in F1 as [? ?]. by exists d1. }
  destruct (upsert collections_deliveries [("seedMarker", VStr deliveryMarker)]
              (deliveryDefaults now (_id d1)) s2) as [r3 s3] eqn:E3.
  pose proof (upsert_seed_inv now s0 _ _ _ _ _ _ J2
                (step_delivery now s2 _ R1) E3) as [J3 P3].
  pose proof (growing_eq _ _ _ _ (upsert_grows _ _ _) E3) as G3.
  destruct r3 as [[ins3 d3]|e3];
    [|by rewrite (bind_threw _ _ _ _ _ (findOneAndUpdate_threw _ _ _ _ _ _ _ E3))].
  rewrite (bind_ok _ _ _ _ _ (findOneAndUpdate_ok _ _ _ _ _ _ _ _ E3)).
  destruct (P3 _ _ eq_refl) as (F3 & _ & _). clear P3 E3.
  rewrite (bind_ok _ _ _ _ _ (resolve_doc _ _ _ _ _ F3 (returned_or_null _ _))).
  rewrite (bind_ok _ _ s3 (_id d3) s3) by done.
  assert (R3 : resolves s3 collections_deliveries deliveryKey (VOid (_id d3))).
  { apply find_some in F3 as [? ?]. by exists d3. }
  apply (resolves_mono _ _ _ _ _ G3) in R1.
  pose proof (updateOne_seed_inv now s0 _ _ _ _ J3 (step_event1 now s3 _ R3)) as J4.
  pose proof (updateOne_grows collections_tracking_events
                [("seedMarker", VStr "seed_tracking_1")] (event1 now (_id d3)) s3) as G4.
  unfold bind at 1.
  destruct (updateOne collections_tracking_events _ (event1 now (_id d3)) s3)
    as [[[]|e4] s4]; [|done]. simpl in J4, G4.
  apply (resolves_mono _ _ _ _ _ G4) in R1, R3.
  pose proof (updateOne_seed_inv now s0 _ _ _ _ J4 (step_event2 now s4 _ R3)) as J5.
  pose proof (updateOne_grows collections_tracking_events
                [("seedMarker", VStr "seed_tracking_2")] (event2 now (_id d3)) s4) as G5.
  unfold bind at 1.
  destruct (updateOne collections_tracking_events _ (event2 now (_id d3)) s4)
    as [[[]|e5] s5]; [|done]. simpl in J5, G5.
  apply (resolves_mono _ _ _ _ _ G5) in R1.
  exact (updateOne_seed_inv now s0 _ _ _ _ J5 (step_notification now s5 _ R1)).
Qed.

Lemma new_docs_same s0 s c :
  same_docs s0 s → new_docs s0 s c = [].
Proof. intros H. unfold new_docs. rewrite (H c). apply drop_all. Qed.

Lemma main_seed_inv drv now s : seed_inv now s (run_on s (main drv now)).
Proof.
  unfold run_on. rewrite main_driver_independent. unfold main, bind.
  pose proof (provision_grows s) as G.
  pose proof (provision_same_docs s) as D.
  destruct (provision s) as [[h|e] s1] eqn:E; simpl in G, D.
  - apply provision_names in E as ->.
    apply seed_keeps_inv. split; [done|].
    intros c d. by rewrite new_docs_same.
  - simpl. split; [done|]. intros c d. by rewrite new_docs_same.
Qed.

(** ** The first run on the empty store, and runs after it *)

Lemma fresh_any_driver drv now : fresh drv now = fresh mongosh now.
Proof. unfold fresh, run_on. by rewrite main_driver_independent. Qed.

Lemma fresh_run drv now : main drv now empty_store = (Ok tt, fresh drv now).
Proof.
  rewrite fresh_any_driver, main_driver_independent.
  lazy -[Z.sub Z.mul]. reflexivity.
Qed.

Lemma fresh_rerun drv now now' :
  main drv now' (fresh mongosh now) = (Ok tt, fresh mongosh now).
Proof. rewrite main_driver_independent. lazy -[Z.sub Z.mul]. reflexivity. Qed.

Lemma runs_after_fresh drv now nows :
  runs drv nows (fresh mongosh now) = (Ok tt, fresh mongosh now).
Proof.
  induction nows as [|now' nows IH]; simpl; [done|].
  by rewrite (bind_ok _ _ _ _ _ (fresh_rerun drv now now')).
Qed.

Lemma fresh_users now :
  docs_of (fresh mongosh now) collections_users =
    [ Doc 0%N (upsert_fields customerKey (customerDefaults now));
      Doc 1%N (upsert_fields courierKey (courierDefaults now)) ].
Proof. reflexivity. Qed.

Lemma fresh_deliveries now :
  docs_of (fresh mongosh now) collections_deliveries =
    [ Doc 2%N (upsert_fields deliveryKey (deliveryDefaults now 0%N)) ].
Proof. reflexivity. Qed.

Lemma fresh_tracking_events now :
  docs_of (fresh mongosh now) collections_tracking_events =
    [ Doc 3%N (upsert_fields tracking1Key (event1 now 2%N));
      Doc 4%N (upsert_fields tracking2Key (event2 now 2%N)) ].
Proof. reflexivity. Qed.

Lemma fresh_notifications now :
  docs_of (fresh mongosh now) collections_notifications =
    [ Doc 5%N (upsert_fields notificationKey (notificationDefaults now 0%N)) ].
Proof. reflexivity. Qed.

(** C1. Running the whole script any number of times, N >= 1, on an empty
    store ends in the state the first run alone produces (so every document
    keeps every field value through the reruns, whatever the clock says on
    the later runs); that state has two users, one with role customer and
    one with role courier, one delivery, two tracking events and one
    notification. *)
Theorem idempotent_rerun (drv : driver) (now : Z) (nows : list Z) :
  runs drv (now :: nows) empty_store = (Ok tt, fresh drv now) ∧
  length (docs_of (fresh drv now) collections_users) = 2%nat ∧
  count_where [("role", VStr "customer")]
    (docs_of (fresh drv now) collections_users) = 1%nat ∧
  count_where [("role", VStr "courier")]
    (docs_of (fresh drv now) collections_users) = 1%nat ∧
  length (docs_of (fresh drv now) collections_deliveries) = 1%nat ∧
  length (docs_of (fresh drv now) collections_tracking_events) = 2%nat ∧
  length (docs_of (fresh drv now) collections_notifications) = 1%nat.
Proof.
  split.
  - simpl. rewrite (bind_ok _ _ _ _ _ (fresh_run drv now)).
    rewrite fresh_any_driver. apply runs_after_fresh.
  - rewrite fresh_any_driver, fresh_users, fresh_deliveries,
      fresh_tracking_events, fresh_notifications.
    repeat split; reflexivity.
Qed.

(** C9. On a fresh run every timestamp comes from the one [now]: the two
    users, the delivery and the notification have [createdAt = now], the
    delivery has [updatedAt = now], and the tracking events are stamped
    two minutes and one minute before [now], both strictly before the
    delivery's [createdAt]. *)
Theorem fresh_timestamps (drv : driver) (now : Z) :
  ∃ customer courier delivery e1 e2 notification,
    docs_of (fresh drv now) collections_users = [customer; courier] ∧
    docs_of (fresh drv now) collections_deliveries = [delivery] ∧
    docs_of (fresh drv now) collections_tracking_events = [e1; e2] ∧
    docs_of (fresh drv now) collections_notifications = [notification] ∧
    get_field customer "createdAt" = VDate now ∧
    get_field courier "createdAt" = VDate now ∧
    get_field delivery "createdAt" = VDate now ∧
    get_field delivery "updatedAt" = get_field delivery "createdAt" ∧
    get_field notification "createdAt" = VDate now ∧
    get_field e1 "seedMarker" = VStr "seed_tracking_1" ∧
    get_field e2 "seedMarker" = VStr "seed_tracking_2" ∧
    get_field e1 "createdAt" = VDate (now - 120000) ∧
    get_field e2 "createdAt" = VDate (now - 60000) ∧
    now - 120000 < now ∧ now - 60000 < now.
Proof.
  rewrite fresh_any_driver, fresh_users, fresh_deliveries,
    fresh_tracking_events, fresh_notifications.
  eexists _, _, _, _, _, _.
  repeat (split; [reflexivity|]). lia.
Qed.

(** C10. On a fresh run the courier user exists, but nothing refers to it:
    the delivery's [courierId] is null, the notification's [userId] is the
    customer's identifier, and no document of any collection holds the
    courier's identifier in any field. *)
Theorem courier_unreferenced (drv : driver) (now : Z) :
  ∃ customer courier delivery notification,
    docs_of (fresh drv now) collections_users = [customer; courier] ∧
    matches courierKey courier = true ∧
    docs_of (fresh drv now) collections_deliveries = [delivery] ∧
    docs_of (fresh drv now) collections_notifications = [notification] ∧
    get_field delivery "courierId" = VNull ∧
    get_field notification "userId" = VOid (_id customer) ∧
    _id customer ≠ _id courier ∧
    Forall (λ c, Forall (λ d, doc_mentions (_id courier) d = false) (docs c.2))
      (colls (fresh drv now)).
Proof.
  rewrite fresh_any_driver, fresh_users, fresh_deliveries, fresh_notifications.
  eexists _, _, _, _.
  repeat (split; [reflexivity|]).
  split; [discriminate|].
  lazy -[Z.sub Z.mul]. repeat constructor.
Qed.

(** C8. Of the two tracking events of a fresh run, [seed_tracking_2] is
    stamped strictly later than [seed_tracking_1]; the delivery's events
    sorted on (deliveryId ascending, createdAt descending) come out with
    [seed_tracking_2] first. *)
Theorem tracking_events_order (drv : driver) (now : Z) :
  ∃ delivery e1 e2 t1 t2,
    docs_of (fresh drv now) collections_deliveries = [delivery] ∧
    docs_of (fresh drv now) collections_tracking_events = [e1; e2] ∧
    get_field e1 "seedMarker" = VStr "seed_tracking_1" ∧
    get_field e2 "seedMarker" = VStr "seed_tracking_2" ∧
    get_field e1 "createdAt" = VDate t1 ∧
    get_field e2 "createdAt" = VDate t2 ∧
    t1 < t2 ∧
    find_sorted collections_tracking_events
      [("deliveryId", VOid (_id delivery))]
      [("deliveryId", Asc); ("createdAt", Desc)] (fresh drv now) = [e2; e1].
Proof.
  rewrite fresh_any_driver. unfold find_sorted.
  rewrite fresh_deliveries, fresh_tracking_events.
  eexists _, _, _, _, _.
  repeat (split; [reflexivity|]).
  split; [lia|].
  lazy -[Z.sub Z.mul Z.compare].
  assert (Z.compare (now - 2 * 60 * 1000) (now - 1 * 60 * 1000) = Lt) as ->
    by (apply Z.compare_lt_iff; lia).
  reflexivity.
Qed.

(** ** The shape of what a run adds *)

Lemma seeded_user now s0 s d :
  seeded_doc now s0 s collections_users d →
  fields d = upsert_fields customerKey (customerDefaults now) ∨
  fields d = upsert_fields courierKey (courierDefaults now).
Proof.
  intros (q & soi & St & Hf & _).
  inversion St; subst; try discriminate; auto.
Qed.

Lemma seeded_delivery now s0 s d :
  seeded_doc now s0 s collections_deliveries d →
  ∃ cid, resolves s collections_users customerKey (VOid cid) ∧
         fields d = upsert_fields deliveryKey (deliveryDefaults now cid).
Proof.
  intros (q & soi & St & Hf & _).
  inversion St; subst; try discriminate; eauto.
Qed.

Lemma seeded_tracking_event now s0 s d :
  seeded_doc now s0 s collections_tracking_events d →
  ∃ did, resolves s collections_deliveries deliveryKey (VOid did) ∧
         (fields d = upsert_fields tracking1Key (event1 now did) ∨
          fields d = upsert_fields tracking2Key (event2 now did)).
Proof.
  intros (q & soi & St & Hf & _).
  inversion St; subst; try discriminate; eauto.
Qed.

Lemma seeded_notification now s0 s d :
  seeded_doc now s0 s collections_notifications d →
  ∃ cid, resolves s collections_users customerKey (VOid cid) ∧
         fields d = upsert_fields notificationKey (notificationDefaults now cid).
Proof.
  intros (q & soi & St & Hf & _).
  inversion St; subst; try discriminate; eauto.
Qed.

Lemma get_field_fields d fs k :
  fields d = fs → get_field d k = default VNull (lookup_field k fs).
Proof. intros <-. reflexivity. Qed.

Lemma matches_fields q d fs :
  fields d = fs → matches q d = matches q (Doc 0%N fs).
Proof. intros <-. reflexivity. Qed.

(** A document the run added matches no key that was matched before the
    run. *)
Lemma seeded_doc_key now s0 s c d q0 :
  seeded_doc now s0 s c d → In q0 (seed_keys c) → matches q0 d = true →
  List.find (matches q0) (docs_of s0 c) = None.
Proof.
  intros (q & soi & St & Hf & Hn) Hq Hm.
  rewrite (matches_fields _ _ _ Hf) in Hm.
  destruct St; simpl in Hq;
    repeat (destruct Hq as [<-|Hq]; [try exact Hn; try discriminate Hm|]);
    destruct Hq.
Qed.

Lemma docs_of_new s s' c :
  grows_to s s' → docs_of s' c = docs_of s c ++ new_docs s s' c.
Proof.
  intros (D & _). destruct (D c) as [k Hk]. unfold new_docs.
  rewrite Hk. by rewrite drop_app_length.
Qed.

Lemma filter_none {A} (f : A → bool) l :
  (∀ x, In x l → f x = false) → List.filter f l = [].
Proof.
  induction l as [|a l IH]; simpl; [done|]. intros H.
  rewrite (H a) by auto. apply IH. auto.
Qed.

(** C2. A run leaves every document that was already in the store where it
    was and as it was; in particular a document matching the key of a
    find-or-create step keeps every field, whatever its values.  The
    insert-only payload reaches the store only through an insert: when the
    key has a match the upsert returns it and the store is unchanged, and
    the run adds no document under that key. *)
Theorem existing_documents_untouched (drv : driver) (now : Z) (s : store) :
  (∀ c, docs_of s c `prefix_of` docs_of (run_on s (main drv now)) c) ∧
  (∀ c q soi d,
     List.find (matches q) (docs_of s c) = Some d →
     upsert c q soi s = (Ok (false, d), s)) ∧
  (∀ c q d,
     In q (seed_keys c) → In d (docs_of s c) → matches q d = true →
     List.filter (matches q) (docs_of (run_on s (main drv now)) c) =
     List.filter (matches q) (docs_of s c)).
Proof.
  pose proof (main_seed_inv drv now s) as [G N].
  split; [apply G|]. split; [intros; by apply upsert_matched|].
  intros c q d Hq Hin Hm.
  rewrite (docs_of_new _ _ c G), List.filter_app.
  rewrite (filter_none _ (new_docs _ _ _)); [by rewrite app_nil_r|].
  intros d' Hd'. destruct (matches q d') eqn:E; [|done].
  pose proof (seeded_doc_key _ _ _ _ _ _ (N _ _ Hd') Hq E) as Hnone.
  pose proof (find_none _ _ Hnone _ Hin) as Hf. congruence.
Qed.

(** C4, as the script has it: every User a run creates has exactly the
    fields [email], [password_hash], [role], [name], [phone], [createdAt]
    beside its identifier, and its role is customer or courier. *)
Theorem created_user_fields (drv : driver) (now : Z) (s : store) (d : doc) :
  In d (new_docs s (run_on s (main drv now)) collections_users) →
  field_names d = user_field_names ∧
  (get_field d "role" = VStr "customer" ∨ get_field d "role" = VStr "courier").
Proof.
  pose proof (main_seed_inv drv now s) as [G N].
  intros Hd. apply N, seeded_user in Hd as [Hf|Hf].
  - unfold field_names. rewrite (get_field_fields _ _ _ Hf), Hf. auto.
  - unfold field_names. rewrite (get_field_fields _ _ _ Hf), Hf. auto.
Qed.

(** C4, counterexample: the customer of a fresh run has [password_hash],
    not [passwordHash]. *)
Lemma user_fields_counterexample :
  In (Doc 0%N (upsert_fields customerKey (customerDefaults 0)))
     (new_docs empty_store (run_on empty_store (main mongosh 0))
        collections_users) ∧
  field_names (Doc 0%N (upsert_fields customerKey (customerDefaults 0))) =
    ["email"; "password_hash"; "role"; "name"; "phone"; "createdAt"] ∧
  ¬ user_fields_as_specified.
Proof.
  assert (Hin : In (Doc 0%N (upsert_fields customerKey (customerDefaults 0)))
     (new_docs empty_store (run_on empty_store (main mongosh 0))
        collections_users)) by (lazy -[Z.sub Z.mul]; left; reflexivity).
  split; [exact Hin|]. split; [reflexivity|].
  intros H. specialize (H _ _ _ _ Hin).
  assert (Hp : In "password_hash" spec_user_field_names).
  { eapply Permutation_in; [exact H|]. right. left. reflexivity. }
  simpl in Hp. repeat (destruct Hp as [Hp|Hp]; [discriminate Hp|]). exact Hp.
Qed.

Lemma created_user_fields_witness :
  field_names (Doc 1%N (upsert_fields courierKey (courierDefaults 7))) =
    user_field_names ∧
  (get_field (Doc 1%N (upsert_fields courierKey (courierDefaults 7))) "role"
     = VStr "customer" ∨
   get_field (Doc 1%N (upsert_fields courierKey (courierDefaults 7))) "role"
     = VStr "courier").
Proof.
  apply (created_user_fields mongosh 7 empty_store).
  vm_compute. right. left. reflexivity.
Defined.

(** ** Indexes *)

Lemma alookup_None {V} c (l : list (string * V)) :
  ¬ In c (map fst l) → alookup c l = None.
Proof.
  induction l as [|[k v] l IH]; simpl; [done|]. intros H.
  destruct (String.eqb k c) eqn:E.
  - apply String.eqb_eq in E. tauto.
  - apply IH. tauto.
Qed.

Lemma index_table_other c :
  ¬ In c [collections_users; collections_deliveries;
          collections_tracking_events; collections_notifications] →
  index_table c = [].
Proof.
  intros H. unfold index_table.
  repeat match goal with
  | |- context [String.eqb c ?n] =>
      let E := fresh "E" in
      destruct (String.eqb c n) eqn:E;
      [apply String.eqb_eq in E; subst c; exfalso; apply H; simpl; tauto|]
  end.
  reflexivity.
Qed.

Lemma indexes_of_table (s : store) :
  map fst (colls s) =
    [collections_users; collections_deliveries;
     collections_tracking_events; collections_notifications] →
  (∀ c, In c [collections_users; collections_deliveries;
              collections_tracking_events; collections_notifications] →
        indexes_of s c = index_table c) →
  ∀ c, indexes_of s c = index_table c.
Proof.
  intros Hk Hin c.
  destruct (in_dec String.string_dec c (map fst (colls s))) as [Hc|Hc].
  - rewrite Hk in Hc. auto.
  - unfold indexes_of, coll_of. rewrite (alookup_None _ _ Hc).
    rewrite index_table_other; [done | by rewrite <- Hk].
Qed.

(** C5. Provisioning an empty store gives each collection exactly the
    indexes of the table, name, keys, directions and uniqueness, and the
    seed adds none.  From any store, a provisioning that completes leaves
    every index of the table in place under its name, and provisioning
    again changes nothing: no index is added, renamed or altered. *)
Theorem index_provisioning :
  (∀ c, indexes_of (provision empty_store).2 c = index_table c) ∧
  (∀ drv now c, indexes_of (fresh drv now) c = index_table c) ∧
  (∀ s h s', provision s = (Ok h, s') →
     (∀ c ix, In ix (index_table c) →
              find_index (ix_name ix) (indexes_of s' c) = Some ix) ∧
     provision s' = (Ok h, s')).
Proof.
  split; [|split].
  - apply indexes_of_table; [by lazy|].
    intros c [<-|[<-|[<-|[<-|[]]]]]; by lazy.
  - intros drv now. rewrite fresh_any_driver.
    apply indexes_of_table; [by lazy -[Z.sub Z.mul]|].
    intros c [<-|[<-|[<-|[<-|[]]]]]; by lazy -[Z.sub Z.mul].
  - intros s h s' H. pose proof (provision_provisioned _ _ _ H) as P.
    split; [apply P|].
    apply provision_names in H as ->. by apply provision_again.
Qed.

Lemma index_provisioning_witness :
  find_index "deliveries_createdAt_desc"
    (indexes_of (provision empty_store).2 collections_deliveries) =
    Some (Index "deliveries_createdAt_desc" [("createdAt", Desc)] false) ∧
  provision (provision empty_store).2 =
    (Ok (collections_users, collections_deliveries,
         collections_tracking_events, collections_notifications),
     (provision empty_store).2).
Proof.
  destruct index_provisioning as (_ & _ & H).
  destruct (H empty_store
              (collections_users, collections_deliveries,
               collections_tracking_events, collections_notifications)
              (provision empty_store).2 eq_refl) as [Hi Hp].
  split; [|exact Hp].
  apply (Hi collections_deliveries
           (Index "deliveries_createdAt_desc" [("createdAt", Desc)] false)).
  simpl. auto.
Defined.

(** ** Unique indexes *)

Lemma preserves_ret P {A} (a : A) : preserves P (ret a).
Proof. by intros s. Qed.

Lemma preserves_throw P {A} e : preserves P (@throw A e).
Proof. by intros s. Qed.

Lemma preserves_bind P {A B} (m : M A) (k : A → M B) :
  preserves P m → (∀ a, preserves P (k a)) → preserves P (bind m k).
Proof.
  intros Hm Hk s Hs. unfold bind. specialize (Hm s Hs).
  destruct (m s) as [[a|e] s1]; simpl in *; [by apply Hk | done].
Qed.

Lemma unique_on_snoc ix ds d :
  unique_on ix ds = true →
  existsb (λ d', values_eqb (index_key ix d') (index_key ix d)) ds = false →
  unique_on ix (ds ++ [d]) = true.
Proof.
  induction ds as [|a ds IH]; simpl; [done|].
  intros [Ha Hu]%andb_true_iff [Had Hd]%orb_false_iff.
  apply andb_true_iff. split; [|by apply IH].
  rewrite existsb_app. simpl.
  apply negb_true_iff in Ha. rewrite Ha. simpl.
  by rewrite values_eqb_sym, Had.
Qed.

Lemma insert_fields_respects c fs :
  preserves indexes_respected (insert_fields c fs).
Proof.
  intros s Hs. destruct (insert_fields c fs s) as [[d|e] s'] eqn:E; simpl.
  - apply insert_fields_ok in E as (_ & Hd & Ho & Hi & _ & Hv & _).
    intros c' ix Hix Hu. rewrite Hi in Hix.
    destruct (decide (c' = c)) as [->|Hne].
    + rewrite Hd. apply unique_on_snoc; [by apply Hs|].
      specialize (Hv ix Hix). unfold violates in Hv. by rewrite Hu in Hv.
    + rewrite Ho by done. by apply Hs.
  - by apply insert_fields_threw in E as [-> _].
Qed.

Lemma upsert_respects c q soi : preserves indexes_respected (upsert c q soi).
Proof.
  intros s Hs. unfold upsert.
  destruct (find _ _); [done|].
  pose proof (insert_fields_respects c (upsert_fields q soi) s Hs) as H.
  by destruct (insert_fields _ _ _) as [[d|e] s'].
Qed.

Lemma createCollection_respects c :
  preserves indexes_respected (createCollection c).
Proof.
  intros s Hs. unfold createCollection.
  destruct (alookup c (colls s)) eqn:E; [done|]. simpl.
  intros c' ix. unfold indexes_of, docs_of.
  destruct (decide (c = c')) as [->|Hne].
  - rewrite coll_of_put_eq. by intros [].
  - rewrite coll_of_put_ne by done. apply Hs.
Qed.

Lemma ensureCollection_respects c :
  preserves indexes_respected (ensureCollection c).
Proof.
  unfold ensureCollection. apply preserves_bind; [by intros s|].
  intros infos. apply preserves_bind; [|intros; apply preserves_ret].
  destruct (negb _); [apply createCollection_respects | apply preserves_ret].
Qed.

Lemma createIndex_respects c key u name :
  preserves indexes_respected (createIndex c key u name).
Proof.
  intros s Hs. unfold createIndex.
  destruct (find _ _); [by destruct (_ && _)|].
  destruct (existsb _ _); [done|].
  destruct (u && negb _) eqn:E; [done|]. simpl.
  intros c' ix. unfold indexes_of, docs_of.
  destruct (decide (c = c')) as [->|Hne].
  - rewrite coll_of_put_eq. simpl. intros [Hix|[<-|[]]]%in_app_or Hu.
    + by apply Hs.
    + simpl in Hu. subst u. simpl in E. by apply negb_false_iff in E.
  - rewrite coll_of_put_ne by done. apply Hs.
Qed.

Lemma provision_respects : preserves indexes_respected provision.
Proof.
  unfold provision.
  repeat (apply preserves_bind;
          [first [apply ensureCollection_respects | apply createIndex_respects]
          |intros ?]).
  apply preserves_ret.
Qed.

Lemma seed_respects drv now u d t n :
  preserves indexes_respected (seed drv now u d t n).
Proof.
  unfold seed, findOneAndUpdate, updateOne.
  repeat first
    [ apply preserves_ret
    | apply preserves_throw
    | apply upsert_respects
    | apply preserves_bind; [|intros ?]
    | match goal with
      | |- preserves _ (match ?x with _ => _ end) => destruct x
      | |- preserves _ (findOne _ _) => by intros ?
      | |- preserves _ (id_of ?x) => destruct x
      end ].
Qed.

Lemma main_respects drv now : preserves indexes_respected (main drv now).
Proof.
  unfold main. apply preserves_bind; [apply provision_respects|].
  intros [[[u d] t] n]. apply seed_respects.
Qed.

Lemma main_ok_email_index drv now s s' :
  main drv now s = (Ok tt, s') →
  find_index "users_email_unique" (indexes_of s' collections_users) =
    Some (Index "users_email_unique" [("email", Asc)] true).
Proof.
  unfold main. intros H.
  apply bind_inv_ok in H as (h & s1 & Hp & Hs).
  pose proof (provision_provisioned _ _ _ Hp) as [_ Hi].
  pose proof (provision_names _ _ _ Hp) as ->.
  pose proof (growing_eq _ _ _ _ (seed_grows _ _ _ _ _ _) Hs) as G.
  eapply find_index_grows; [exact G|].
  apply (Hi collections_users (Index "users_email_unique" [("email", Asc)] true)).
  simpl. auto.
Qed.

Lemma unique_email_NoDup name ds :
  unique_on (Index name [("email", Asc)] true) ds = true →
  NoDup (map (λ d, get_field d "email") ds).
Proof.
  induction ds as [|a ds IH]; [constructor|].
  intros H. cbn [unique_on] in H. apply andb_true_iff in H as [Ha Hu].
  cbn [map]. constructor; [|by apply IH].
  intros Hin. apply negb_true_iff in Ha.
  apply list_elem_of_In, in_map_iff in Hin as (d & He & Hd).
  assert (existsb
    (λ d', values_eqb (index_key (Index name [("email", Asc)] true) d')
                      (index_key (Index name [("email", Asc)] true) a)) ds = true)
    as Hex; [|congruence].
  apply existsb_exists. exists d. split; [done|].
  unfold index_key. cbn [ix_key map fst]. rewrite He. apply values_eqb_refl.
Qed.

Lemma upsert_emails c q soi :
  (c = collections_users →
   ∃ e, q = [("email", e)] ∧
        default VNull (lookup_field "email" (upsert_fields q soi)) = e) →
  preserves emails_unique (upsert c q soi).
Proof.
  intros Hc s Hs. pose proof (upsert_cases c q soi s) as H.
  destruct (upsert c q soi s) as [[[[] d]|e] s']; simpl.
  - destruct H as [Hn Hi].
    apply insert_fields_ok in Hi as (Hd & Hdocs & Hother & _).
    destruct (decide (c = collections_users)) as [Heq|Hne].
    + destruct (Hc Heq) as (e & -> & He). subst c.
      unfold emails_unique, emails in *. rewrite Hdocs, map_app.
      apply NoDup_app. split; [done|]. split; [|apply NoDup_singleton].
      intros v Hv Hv'. apply list_elem_of_singleton in Hv'. subst v.
      apply list_elem_of_In, in_map_iff in Hv as (d0 & Hd0 & Hin).
      pose proof (find_none _ _ Hn _ Hin) as Hm.
      unfold matches in Hm. simpl in Hm. rewrite andb_true_r in Hm.
      assert (value_eqb (get_field d0 "email") e = true); [|congruence].
      rewrite Hd0, Hd. unfold get_field. simpl. rewrite He. apply value_eqb_refl.
    + unfold emails_unique, emails in *. by rewrite Hother.
  - by destruct H as [_ ->].
  - by subst.
Qed.

Lemma seed_emails drv now :
  preserves emails_unique
    (seed drv now collections_users collections_deliveries
       collections_tracking_events collections_notifications).
Proof.
  unfold seed, findOneAndUpdate, updateOne.
  repeat first
    [ apply preserves_ret
    | apply preserves_throw
    | apply upsert_emails; intros Hc;
      first [ discriminate Hc | eexists; split; reflexivity ]
    | apply preserves_bind; [|intros ?]
    | match goal with
      | |- preserves _ (match ?x with _ => _ end) => destruct x
      | |- preserves _ (findOne _ _) => by intros ?
      | |- preserves _ (id_of ?x) => destruct x
      end ].
Qed.

Lemma main_emails drv now : preserves emails_unique (main drv now).
Proof.
  intros s Hs. unfold main, bind.
  pose proof (provision_same_docs s) as D.
  destruct (provision s) as [[h|e] s1] eqn:E; simpl in D.
  - apply provision_names in E as ->. apply seed_emails.
    unfold emails_unique, emails. by rewrite (D collections_users).
  - simpl. unfold emails_unique, emails. by rewrite (D collections_users).
Qed.

(** C7. No run, however it ends, brings a second user with an email that
    is already there: emails that are unique before a run are unique after
    it, and unique indexes that hold before it hold after it.  After a run
    that completes the store itself enforces it: the users take part in
    the unique index on [email], so (from a store whose unique indexes
    hold) no two users have the same email, and inserting a user whose
    email some user already has fails with a duplicate-key error and
    leaves the store as it was. *)
Theorem email_unique (drv : driver) (now : Z) (s : store) :
  (emails_unique s → emails_unique (run_on s (main drv now))) ∧
  (indexes_respected s → indexes_respected (run_on s (main drv now))) ∧
  (∀ s', main drv now s = (Ok tt, s') →
     (indexes_respected s → emails_unique s') ∧
     (∀ fs d, In d (docs_of s' collections_users) →
              default VNull (lookup_field "email" fs) = get_field d "email" →
              insertOne collections_users fs s' = (Threw DuplicateKey, s'))).
Proof.
  split; [apply main_emails|]. split; [apply main_respects|].
  intros s' Hok.
  pose proof (main_ok_email_index _ _ _ _ Hok) as Hix.
  apply find_some in Hix as [Hin _].
  split.
  - intros Hs. pose proof (main_respects drv now s Hs) as Hr.
    rewrite Hok in Hr. simpl in Hr.
    eapply unique_email_NoDup. by apply (Hr _ _ Hin).
  - intros fs d Hd He. unfold insertOne, insert_fields.
    assert (existsb
      (λ ix, violates ix (docs (coll_of s' collections_users))
                      (Doc (next_oid s') fs))
      (indexes (coll_of s' collections_users)) = true) as ->; [|done].
    apply existsb_exists. eexists. split; [exact Hin|].
    unfold violates. cbn [ix_unique andb].
    apply existsb_exists. exists d. split; [exact Hd|].
    unfold index_key. cbn [ix_key map fst].
    replace (get_field (Doc (next_oid s') fs) "email")
      with (get_field d "email") by (rewrite <- He; reflexivity).
    apply values_eqb_refl.
Qed.

(** ** Concrete instances *)

Example status_not_reset :
  get_field (Doc 2%N (set_field "status" (VStr "in_transit")
                        (upsert_fields deliveryKey (deliveryDefaults 1000 0%N))))
    "status" = VStr "in_transit" ∧
  docs_of status_changed collections_deliveries =
    [Doc 2%N (set_field "status" (VStr "in_transit")
                (upsert_fields deliveryKey (deliveryDefaults 1000 0%N)))] ∧
  main mongosh 2000 status_changed = (Ok tt, status_changed).
Proof. vm_compute. auto. Qed.

(** The same index name with other keys is refused and alters nothing. *)
Example conflicting_index_refused :
  createIndex collections_users [("email", Desc)] true "users_email_unique"
    (fresh mongosh 1000) = (Threw IndexKeySpecsConflict, fresh mongosh 1000).
Proof. vm_compute. reflexivity. Qed.

(** On users that already share an email the unique index cannot be made:
    the run throws there and seeds nothing. *)
Example run_aborts_on_duplicates :
  (main mongosh 1000 duplicate_emails).1 = Threw DuplicateKey ∧
  docs_of (run_on duplicate_emails (main mongosh 1000)) collections_users =
    docs_of duplicate_emails collections_users ∧
  docs_of (run_on duplicate_emails (main mongosh 1000)) collections_deliveries
    = [].
Proof. vm_compute. auto. Qed.

(** With a client that returns null from every [findOneAndUpdate] the
    identifiers are found by the lookups, here on users stored in the other
    order: the delivery gets the customer's identifier, 1. *)
Example null_returning_client :
  main (Driver false false) 1000 users_only = main mongosh 1000 users_only ∧
  map (λ d, get_field d "customerId")
    (docs_of (run_on users_only (main (Driver false false) 1000))
       collections_deliveries) = [VOid 1%N].
Proof. vm_compute. auto. Qed.

Lemma existing_documents_untouched_witness :
  upsert collections_deliveries deliveryKey (deliveryDefaults 2000 0%N)
    status_changed =
    (Ok (false,
         Doc 2%N (set_field "status" (VStr "in_transit")
                    (upsert_fields deliveryKey (deliveryDefaults 1000 0%N)))),
     status_changed) ∧
  List.filter (matches deliveryKey)
    (docs_of (run_on status_changed (main mongosh 2000)) collections_deliveries) =
  List.filter (matches deliveryKey) (docs_of status_changed collections_deliveries).
Proof.
  destruct (existing_documents_untouched mongosh 2000 status_changed)
    as (_ & H2 & H3).
  split.
  - apply H2. vm_compute. reflexivity.
  - apply (H3 collections_deliveries deliveryKey
             (Doc 2%N (set_field "status" (VStr "in_transit")
                         (upsert_fields deliveryKey (deliveryDefaults 1000 0%N))))).
    + vm_compute. auto.
    + vm_compute. auto.
    + vm_compute. reflexivity.
Defined.

Lemma empty_store_respected : indexes_respected empty_store.
Proof. intros c ix Hin. destruct Hin. Qed.

Lemma email_unique_witness :
  emails_unique (run_on empty_store (main mongosh 1000)) ∧
  indexes_respected (run_on empty_store (main mongosh 1000)) ∧
  emails_unique (fresh mongosh 1000) ∧
  insertOne collections_users
    [("email", VStr customerEmail); ("role", VStr "courier")]
    (fresh mongosh 1000) = (Threw DuplicateKey, fresh mongosh 1000).
Proof.
  destruct (email_unique mongosh 1000 empty_store) as (H1 & H2 & H3).
  destruct (H3 (fresh mongosh 1000)) as [H4 H5]; [vm_compute; reflexivity|].
  split; [|split; [|split]].
  - apply H1. apply NoDup_nil_2.
  - apply H2. exact empty_store_respected.
  - apply H4. exact empty_store_respected.
  - apply (H5 _ (Doc 0%N (upsert_fields customerKey (customerDefaults 1000)))).
    + vm_compute. auto.
    + vm_compute. reflexivity.
Defined.

(** ** The order in which a run creates documents *)

Lemma order_inv_mono s0 k k' s :
  (k <= k')%nat → order_inv s0 k s → order_inv s0 k' s.
Proof.
  intros Hk (G & B & O). split; [done|]. split; [|done].
  intros c d Hd. destruct (B c d Hd). split; [done | lia].
Qed.

Lemma stage_pure s0 k {A} (m : M A) : pure_cmd m → stage s0 k k m.
Proof. intros Hm s Hs. by rewrite Hm. Qed.

Lemma stage_bind s0 k k1 k2 {A B} (m : M A) (f : A → M B) :
  stage s0 k k1 m → (∀ a, stage s0 k1 k2 (f a)) → (k1 <= k2)%nat →
  stage s0 k k2 (bind m f).
Proof.
  intros Hm Hf Hk s Hs. unfold bind. specialize (Hm s Hs).
  destruct (m s) as [[a|e] s1]; simpl in *.
  - by apply Hf.
  - by eapply order_inv_mono.
Qed.

Lemma pure_ret {A} (a : A) : pure_cmd (ret a).
Proof. by intros s. Qed.

Lemma pure_findOne c q : pure_cmd (findOne c q).
Proof. by intros s. Qed.

Lemma pure_id_of d : pure_cmd (id_of d).
Proof. by destruct d; intros s. Qed.

Lemma pure_bind {A B} (m : M A) (f : A → M B) :
  pure_cmd m → (∀ a, pure_cmd (f a)) → pure_cmd (bind m f).
Proof.
  intros Hm Hf s. unfold bind. specialize (Hm s).
  destruct (m s) as [[a|e] s1]; simpl in *; subst; [apply Hf | done].
Qed.

Lemma new_docs_insert s0 c fs s d s' c' d' :
  grows_to s0 s → insert_fields c fs s = (Ok d, s') →
  In d' (new_docs s0 s' c') →
  In d' (new_docs s0 s c') ∨ (c' = c ∧ d' = d).
Proof.
  intros G Hi Hin.
  apply insert_fields_ok in Hi as (_ & Hdocs & Hother & _).
  unfold new_docs in *. destruct (decide (c' = c)) as [->|Hne].
  - rewrite Hdocs, drop_prefix_snoc in Hin by apply G.
    apply in_app_or in Hin as [?|[<-|[]]]; auto.
  - rewrite Hother in Hin by done. auto.
Qed.

Lemma stage_upsert s0 k r c q soi :
  (k <= r)%nat →
  (∀ i, step_rank c (Doc i (upsert_fields q soi)) = r) →
  stage s0 k (S r) (upsert c q soi).
Proof.
  intros Hk Hr s Hs.
  pose proof (upsert_cases c q soi s) as H.
  destruct (upsert c q soi s) as [[[[] d]|e] s'] eqn:E; simpl.
  - destruct H as [_ Hi]. destruct Hs as (G & B & O).
    pose proof (insert_fields_ok _ _ _ _ _ Hi) as (Hd & _ & _ & _ & Hn & _ & Gs).
    split; [by etrans|]. split.
    + intros c' d' Hin.
      destruct (new_docs_insert _ _ _ _ _ _ _ _ G Hi Hin) as [Hold|[-> ->]].
      * destruct (B _ _ Hold). split; lia.
      * rewrite Hd at 1. rewrite Hd at 1. rewrite Hr, Hn. simpl. lia.
    + intros c1 d1 c2 d2 H1 H2 Hlt.
      destruct (new_docs_insert _ _ _ _ _ _ _ _ G Hi H1) as [O1|[-> ->]],
               (new_docs_insert _ _ _ _ _ _ _ _ G Hi H2) as [O2|[-> ->]].
      * by eapply O.
      * destruct (B _ _ O1). rewrite Hd. simpl. lia.
      * destruct (B _ _ O2). rewrite Hd, Hr in Hlt. lia.
      * lia.
  - destruct H as [_ ->]. eapply order_inv_mono; [|exact Hs]. lia.
  - subst s'. eapply order_inv_mono; [|exact Hs]. lia.
Qed.

Lemma stage_findOneAndUpdate s0 k r drv c q soi :
  (k <= r)%nat →
  (∀ i, step_rank c (Doc i (upsert_fields q soi)) = r) →
  stage s0 k (S r) (findOneAndUpdate drv c q soi).
Proof.
  intros Hk Hr. unfold findOneAndUpdate.
  eapply stage_bind; [by apply stage_upsert | | done].
  intros a. apply stage_pure, pure_ret.
Qed.

Lemma stage_updateOne s0 k r c q soi :
  (k <= r)%nat →
  (∀ i, step_rank c (Doc i (upsert_fields q soi)) = r) →
  stage s0 k (S r) (updateOne c q soi).
Proof.
  intros Hk Hr. unfold updateOne.
  eapply stage_bind; [by apply stage_upsert | | done].
  intros a. apply stage_pure, pure_ret.
Qed.

Lemma seed_order s0 drv now :
  stage s0 0 6
    (seed drv now collections_users collections_deliveries
       collections_tracking_events collections_notifications).
Proof.
  unfold seed.
  eapply stage_bind;
    [apply (stage_findOneAndUpdate s0 0 0); [lia | by intros]
    |intros customerUpsert | lia].
  eapply stage_bind;
    [apply (stage_findOneAndUpdate s0 1 1); [lia | by intros]
    |intros courierUpsert | lia].
  eapply stage_bind;
    [apply stage_pure; destruct customerUpsert;
       [apply pure_ret
       |apply pure_bind; [apply pure_findOne | intros; apply pure_id_of]]
    |intros customerId | lia].
  eapply stage_bind;
    [apply stage_pure; destruct courierUpsert;
       [apply pure_ret
       |apply pure_bind; [apply pure_findOne | intros; apply pure_id_of]]
    |intros courierId | lia].
  eapply stage_bind;
    [apply (stage_findOneAndUpdate s0 2 2); [lia | by intros]
    |intros deliveryUpsert | lia].
  eapply stage_bind;
    [apply stage_pure; destruct deliveryUpsert;
       [apply pure_ret | apply pure_findOne]
    |intros delivery | lia].
  eapply stage_bind;
    [apply stage_pure, pure_id_of | intros deliveryId | lia].
  eapply stage_bind;
    [apply (stage_updateOne s0 3 3); [lia | by intros] | intros _ | lia].
  eapply stage_bind;
    [apply (stage_updateOne s0 4 4); [lia | by intros] | intros _ | lia].
  apply (stage_updateOne s0 5 5); [lia | by intros].
Qed.

Lemma main_created_in_order drv now s :
  created_in_order s (run_on s (main drv now)).
Proof.
  assert (order_inv s 6 (run_on s (main drv now))) as (_ & _ & O); [|exact O].
  unfold run_on, main, bind.
  pose proof (provision_grows s) as G.
  pose proof (provision_same_docs s) as D.
  assert (H0 : order_inv s 0 (provision s).2).
  { split; [done|]. split.
    - intros c d. by rewrite new_docs_same.
    - intros c1 d1 c2 d2. by rewrite new_docs_same. }
  destruct (provision s) as [[h|e] s1] eqn:E; simpl in *.
  - apply provision_names in E as ->. by apply seed_order.
  - eapply order_inv_mono; [|exact H0]. lia.
Qed.

(** C6. On a fresh run the documents are created in the order customer,
    courier, delivery, first and second tracking event, notification (the
    store hands out identifiers in insertion order: 0 to 5); the delivery
    and the notification carry the customer's identifier, both tracking
    events carry the delivery's, and the delivery's [courierId] is null.
    On any store, a delivery the run adds has a null [courierId] and the
    identifier of a user under the customer's key as [customerId], a
    tracking event it adds has the identifier of a delivery under the
    delivery's key, a notification that of a user under the customer's
    key: each parent was found or created before its dependants.  And
    among the documents a run adds to any store, the one of an earlier
    step has the smaller identifier: they are inserted in the order of the
    steps. *)
Theorem seed_dependency_order (drv : driver) (now : Z) :
  (∃ customer courier delivery e1 e2 notification,
    docs_of (fresh drv now) collections_users = [customer; courier] ∧
    docs_of (fresh drv now) collections_deliveries = [delivery] ∧
    docs_of (fresh drv now) collections_tracking_events = [e1; e2] ∧
    docs_of (fresh drv now) collections_notifications = [notification] ∧
    matches customerKey customer = true ∧
    matches courierKey courier = true ∧
    matches deliveryKey delivery = true ∧
    matches tracking1Key e1 = true ∧
    matches tracking2Key e2 = true ∧
    matches notificationKey notification = true ∧
    map _id [customer; courier; delivery; e1; e2; notification] =
      [0; 1; 2; 3; 4; 5]%N ∧
    get_field delivery "customerId" = VOid (_id customer) ∧
    get_field delivery "courierId" = VNull ∧
    get_field e1 "deliveryId" = VOid (_id delivery) ∧
    get_field e2 "deliveryId" = VOid (_id delivery) ∧
    get_field notification "userId" = VOid (_id customer)) ∧
  (∀ s d,
     In d (new_docs s (run_on s (main drv now)) collections_deliveries) →
     get_field d "courierId" = VNull ∧
     resolves (run_on s (main drv now)) collections_users customerKey
       (get_field d "customerId")) ∧
  (∀ s d,
     In d (new_docs s (run_on s (main drv now)) collections_tracking_events) →
     resolves (run_on s (main drv now)) collections_deliveries deliveryKey
       (get_field d "deliveryId")) ∧
  (∀ s d,
     In d (new_docs s (run_on s (main drv now)) collections_notifications) →
     resolves (run_on s (main drv now)) collections_users customerKey
       (get_field d "userId")) ∧
  (∀ s, created_in_order s (run_on s (main drv now))).
Proof.
  split; [|split; [|split; [|split]]]; [| | | |intros s; apply main_created_in_order].
  - rewrite fresh_any_driver, fresh_users, fresh_deliveries,
      fresh_tracking_events, fresh_notifications.
    eexists _, _, _, _, _, _.
    repeat (split; [reflexivity|]). reflexivity.
  - intros s d Hd. destruct (main_seed_inv drv now s) as [_ N].
    apply N, seeded_delivery in Hd as (cid & R & Hf).
    by rewrite !(get_field_fields _ _ _ Hf).
  - intros s d Hd. destruct (main_seed_inv drv now s) as [_ N].
    apply N, seeded_tracking_event in Hd as (did & R & [Hf|Hf]);
      by rewrite (get_field_fields _ _ _ Hf).
  - intros s d Hd. destruct (main_seed_inv drv now s) as [_ N].
    apply N, seeded_notification in Hd as (cid & R & Hf).
    by rewrite (get_field_fields _ _ _ Hf).
Qed.

Lemma seed_dependency_order_witness :
  (get_field (Doc 2%N (upsert_fields deliveryKey (deliveryDefaults 1000 1%N)))
     "courierId" = VNull ∧
   resolves (run_on users_only (main mongosh 1000)) collections_users
     customerKey
     (get_field (Doc 2%N (upsert_fields deliveryKey (deliveryDefaults 1000 1%N)))
        "customerId")) ∧
  resolves (run_on users_only (main mongosh 1000)) collections_deliveries
    deliveryKey
    (get_field (Doc 3%N (upsert_fields tracking1Key (event1 1000 2%N)))
       "deliveryId") ∧
  resolves (run_on users_only (main mongosh 1000)) collections_users
    customerKey
    (get_field (Doc 5%N (upsert_fields notificationKey
                           (notificationDefaults 1000 1%N))) "userId") ∧
  (_id (Doc 4%N (upsert_fields tracking2Key (event2 1000 2%N))) <
   _id (Doc 5%N (upsert_fields notificationKey
                   (notificationDefaults 1000 1%N))))%N.
Proof.
  destruct (seed_dependency_order mongosh 1000) as (_ & H1 & H2 & H3 & H4).
  split; [|split; [|split]].
  - apply (H1 users_only). vm_compute. auto.
  - apply (H2 users_only). vm_compute. auto.
  - apply (H3 users_only). vm_compute. auto.
  - apply (H4 users_only collections_tracking_events _
             collections_notifications).
    + vm_compute. auto.
    + vm_compute. auto.
    + vm_compute. lia.
Defined.

(** * Further properties of the script *)

(** ** [ensureCollection] *)

(** X1. [ensureCollection] never throws and returns the name it was given.
    Afterwards the collection is there; one that was there already, and
    every other collection, keeps its documents and indexes, and the store
    is not touched at all when the collection existed.  Calling it again
    changes nothing. *)
Theorem ensureCollection_idempotent (c : string) (s : store) :
  (ensureCollection c s).1 = Ok c ∧
  is_Some (alookup c (colls (ensureCollection c s).2)) ∧
  (∀ c', coll_of (ensureCollection c s).2 c' = coll_of s c') ∧
  next_oid (ensureCollection c s).2 = next_oid s ∧
  (is_Some (alookup c (colls s)) → (ensureCollection c s).2 = s) ∧
  ensureCollection c (ensureCollection c s).2 =
    (Ok c, (ensureCollection c s).2).
Proof.
  split; [by rewrite ensureCollection_eq|].
  split; [apply ensureCollection_creates|].
  split; [|split; [|split]].
  - intros c'. rewrite ensureCollection_eq. simpl.
    destruct (alookup c (colls s)) eqn:E; [done|].
    destruct (decide (c = c')) as [->|Hne].
    + rewrite coll_of_put_eq. unfold coll_of. by rewrite E.
    + by rewrite coll_of_put_ne.
  - rewrite ensureCollection_eq. simpl. by destruct (alookup c (colls s)).
  - intros [col E]. rewrite ensureCollection_eq. simpl. by rewrite E.
  - apply ensureCollection_present, ensureCollection_creates.
Qed.

Lemma ensureCollection_idempotent_witness :
  (ensureCollection collections_users (fresh mongosh 1000)).2 =
    fresh mongosh 1000.
Proof.
  apply (ensureCollection_idempotent collections_users (fresh mongosh 1000)).
  vm_compute. eauto.
Defined.

(** ** What may be thrown *)

Lemma throws_only_ret P {A} (a : A) : throws_only P (ret a).
Proof. intros s e. discriminate. Qed.

Lemma throws_only_bind P {A B} (m : M A) (k : A → M B) :
  throws_only P m → (∀ a, throws_only P (k a)) → throws_only P (bind m k).
Proof.
  intros Hm Hk s e. unfold bind. specialize (Hm s).
  destruct (m s) as [[a|e'] s1]; simpl in *; [apply Hk|].
  intros [= <-]. by apply Hm.
Qed.

Lemma ensureCollection_throws P c : throws_only P (ensureCollection c).
Proof. intros s e. rewrite ensureCollection_eq. discriminate. Qed.

Lemma createIndex_throws c key u name :
  throws_only index_error (createIndex c key u name).
Proof.
  intros s e. unfold createIndex, index_error.
  destruct (find _ _); [destruct (_ && _); simpl; [discriminate | intros [= <-]; auto]|].
  destruct (existsb _ _); simpl; [intros [= <-]; auto|].
  destruct (_ && _); simpl; [intros [= <-]; auto | discriminate].
Qed.

Lemma provision_throws : throws_only index_error provision.
Proof.
  unfold provision.
  repeat (apply throws_only_bind;
          [first [apply ensureCollection_throws | apply createIndex_throws]
          |intros ?]).
  apply throws_only_ret.
Qed.

Lemma upsert_threw c q soi s e s' :
  upsert c q soi s = (Threw e, s') → e = DuplicateKey ∧ s' = s.
Proof.
  unfold upsert. destruct (find _ _); [discriminate|].
  destruct (insert_fields _ _ _) as [[d|e'] s1] eqn:E; [discriminate|].
  intros [= <- <-]. by apply insert_fields_threw in E as [-> ->].
Qed.

Lemma updateOne_threw c q soi s e s' :
  updateOne c q soi s = (Threw e, s') → e = DuplicateKey.
Proof.
  unfold updateOne, bind.
  destruct (upsert c q soi s) as [[r|e'] s1] eqn:E; [discriminate|].
  intros [= <- <-]. by apply upsert_threw in E as [-> _].
Qed.

(** The seed throws nothing but a duplicate key: the lookups after a null
    always find their document. *)
Lemma seed_threw now u d t n s e s' :
  seed mongosh now u d t n s = (Threw e, s') → e = DuplicateKey.
Proof.
  unfold seed.
  destruct (upsert u [("email", VStr customerEmail)] (customerDefaults now) s)
    as [[[ins1 d1]|e1] s1] eqn:E1.
  2:{ rewrite (bind_threw _ _ _ _ _ (findOneAndUpdate_threw _ _ _ _ _ _ _ E1)).
      intros [= <- <-]. by apply upsert_threw in E1 as [-> _]. }
  rewrite (bind_ok _ _ _ _ _ (findOneAndUpdate_ok _ _ _ _ _ _ _ _ E1)).
  apply upsert_find in E1 as [F1 _]; [|reflexivity].
  destruct (upsert u [("email", VStr courierEmail)] (courierDefaults now) s1)
    as [[[ins2 d2]|e2] s2] eqn:E2.
  2:{ rewrite (bind_threw _ _ _ _ _ (findOneAndUpdate_threw _ _ _ _ _ _ _ E2)).
      intros [= <- <-]. by apply upsert_threw in E2 as [-> _]. }
  rewrite (bind_ok _ _ _ _ _ (findOneAndUpdate_ok _ _ _ _ _ _ _ _ E2)).
  pose proof (growing_eq _ _ _ _ (upsert_grows _ _ _) E2) as G2.
  apply upsert_find in E2 as [F2 _]; [|reflexivity].
  apply (find_grows _ _ _ _ _ G2) in F1.
  rewrite (bind_ok _ _ _ _ _ (resolve_id _ _ _ _ _ F1 (returned_or_null _ _))).
  rewrite (bind_ok _ _ _ _ _ (resolve_id _ _ _ _ _ F2 (returned_or_null _ _))).
  destruct (upsert d [("seedMarker", VStr deliveryMarker)]
              (deliveryDefaults now (_id d1)) s2)
    as [[[ins3 d3]|e3] s3] eqn:E3.
  2:{ rewrite (bind_threw _ _ _ _ _ (findOneAndUpdate_threw _ _ _ _ _ _ _ E3)).
      intros [= <- <-]. by apply upsert_threw in E3 as [-> _]. }
  rewrite (bind_ok _ _ _ _ _ (findOneAndUpdate_ok _ _ _ _ _ _ _ _ E3)).
  apply upsert_find in E3 as [F3 _]; [|reflexivity].
  rewrite (bind_ok _ _ _ _ _ (resolve_doc _ _ _ _ _ F3 (returned_or_null _ _))).
  rewrite (bind_ok _ _ s3 (_id d3) s3) by done.
  unfold bind at 1.
  destruct (updateOne t _ (event1 now (_id d3)) s3) as [[[]|e4] s4] eqn:E4.
  2:{ intros [= <- <-]. by apply updateOne_threw in E4. }
  unfold bind at 1.
  destruct (updateOne t _ (event2 now (_id d3)) s4) as [[[]|e5] s5] eqn:E5.
  2:{ intros [= <- <-]. by apply updateOne_threw in E5. }
  apply updateOne_threw.
Qed.

(** X2. Provisioning, however it ends, neither adds, removes nor changes a
    document and hands out no identifier; collections and indexes are only
    ever added.  When it throws, the error is one of [createIndex]. *)
Theorem provision_keeps_documents (s : store) :
  same_docs s (provision s).2 ∧
  grows_to s (provision s).2 ∧
  next_oid (provision s).2 = next_oid s ∧
  ∀ e, (provision s).1 = Threw e → index_error e.
Proof.
  split; [apply provision_same_docs|]. split; [apply provision_grows|].
  split; [|apply provision_throws].
  unfold provision.
  assert (K : ∀ {A} (m : M A) (k : A → M (string * string * string * string)) s0,
            next_oid (m s0).2 = next_oid s0 →
            (∀ a s1, next_oid (k a s1).2 = next_oid s1) →
            next_oid (bind m k s0).2 = next_oid s0).
  { intros A m k s0 Hm Hk. unfold bind.
    destruct (m s0) as [[a|e] s1]; simpl in *; [by rewrite Hk | done]. }
  assert (E : ∀ c s0, next_oid (ensureCollection c s0).2 = next_oid s0).
  { intros c s0. rewrite ensureCollection_eq. simpl.
    by destruct (alookup c (colls s0)). }
  assert (I : ∀ c key u name s0,
            next_oid (createIndex c key u name s0).2 = next_oid s0).
  { intros c key u name s0. unfold createIndex.
    destruct (find _ _); [by destruct (_ && _)|].
    destruct (existsb _ _); [done|]. by destruct (_ && _). }
  revert s.
  repeat (intros ?s; apply K; [first [apply E | apply I]|intros ?]).
  done.
Qed.

Lemma provision_keeps_documents_witness :
  index_error IndexKeySpecsConflict.
Proof.
  apply (provision_keeps_documents conflicting_index). vm_compute. reflexivity.
Defined.

(** X3. Whatever the store and whatever the client returns, a run throws
    neither a [TypeError] (the lookups on lines 102, 103 and 147 never come
    back null) nor "collection exists": when it throws, the error is one of
    [createIndex] or a duplicate key.  An index conflict is thrown before
    any seeding: the documents of the store are as they were. *)
Theorem run_errors (drv : driver) (now : Z) (s : store) (e : error) :
  (main drv now s).1 = Threw e →
  index_error e ∧
  (e ≠ DuplicateKey → same_docs s (run_on s (main drv now))).
Proof.
  unfold run_on. rewrite main_driver_independent. unfold main, bind.
  pose proof (provision_throws s) as T.
  pose proof (provision_same_docs s) as D.
  destruct (provision s) as [[h|e'] s1] eqn:E; simpl in *.
  - apply provision_names in E as ->.
    destruct (seed mongosh now _ _ _ _ s1) as [r s'] eqn:Es. simpl.
    intros ->. apply seed_threw in Es as ->.
    split; [unfold index_error; auto | done].
  - intros [= <-]. split; [by apply T | done].
Qed.

Lemma run_errors_witness :
  index_error IndexKeySpecsConflict ∧
  same_docs conflicting_index (run_on conflicting_index (main mongosh 1000)).
Proof.
  destruct (run_errors mongosh 1000 conflicting_index IndexKeySpecsConflict)
    as [H1 H2]; [vm_compute; reflexivity|].
  split; [exact H1 | apply H2; discriminate].
Defined.

(** ** Indexes are left alone by the seed *)

Global Instance same_indexes_preorder : PreOrder same_indexes.
Proof.
  split.
  - by intros s c.
  - intros s1 s2 s3 H1 H2 c. by rewrite H2, H1.
Qed.

Lemma upsert_same_indexes c q soi : relates same_indexes (upsert c q soi).
Proof.
  intros s. pose proof (upsert_cases c q soi s) as H.
  destruct (upsert c q soi s) as [[[[] d]|e] s']; simpl.
  - destruct H as [_ H].
    by apply insert_fields_ok in H as (_ & _ & _ & Hi & _).
  - by destruct H as [_ ->].
  - by subst.
Qed.

Lemma seed_same_indexes drv now u d t n :
  relates same_indexes (seed drv now u d t n).
Proof.
  unfold seed, findOneAndUpdate, updateOne.
  repeat match goal with
  | |- relates _ (ret _) => apply (relates_ret same_indexes)
  | |- relates _ (upsert _ _ _) => apply upsert_same_indexes
  | |- relates _ (match ?x with _ => _ end) => destruct x
  | |- relates _ (findOne _ _) => by intros ?
  | |- relates _ (id_of ?x) => by destruct x; intros ?
  | |- relates _ (bind _ _) => apply (relates_bind same_indexes); [|intros ?]
  end.
Qed.

(** X4. The seed adds no index: the indexes of every collection after a
    run, however it ends, are those provisioning left, and those the store
    had before are still there, first and unchanged. *)
Theorem run_keeps_indexes (drv : driver) (now : Z) (s : store) (c : string) :
  indexes_of (run_on s (main drv now)) c = indexes_of (provision s).2 c ∧
  indexes_of s c `prefix_of` indexes_of (run_on s (main drv now)) c.
Proof.
  assert (H : indexes_of (run_on s (main drv now)) c =
              indexes_of (provision s).2 c).
  { unfold run_on, main, bind.
    destruct (provision s) as [[[[[u d] t] n]|e] s1]; simpl; [|done].
    apply seed_same_indexes. }
  split; [exact H|]. rewrite H.
  by destruct (provision_grows s) as (_ & I & _).
Qed.

(** ** Completed runs *)

Lemma provisioned_grows s s' : grows_to s s' → provisioned s → provisioned s'.
Proof.
  intros G [Hc Hi]. split.
  - intros c Hin. destruct G as (_ & _ & C & _). by apply C, Hc.
  - intros c ix Hin. eapply find_index_grows; [exact G | by apply Hi].
Qed.

Lemma updateOne_matched c q soi s d :
  List.find (matches q) (docs_of s c) = Some d →
  updateOne c q soi s = (Ok tt, s).
Proof.
  intros F. unfold updateOne.
  by rewrite (bind_ok _ _ _ _ _ (upsert_matched _ _ soi _ _ F)).
Qed.

Lemma updateOne_inv_ok c q soi s s' :
  matches q (Doc (next_oid s) (upsert_fields q soi)) = true →
  updateOne c q soi s = (Ok tt, s') →
  grows_to s s' ∧ ∃ d, List.find (matches q) (docs_of s' c) = Some d.
Proof.
  intros Hm H. unfold updateOne in H.
  apply bind_inv_ok in H as ([ins d] & s1 & E & [= <-]).
  split; [exact (growing_eq _ _ _ _ (upsert_grows _ _ _) E)|].
  apply upsert_find in E as [F _]; eauto.
Qed.

Lemma seed_keys_cases (P : string → query → Prop) :
  P collections_users customerKey → P collections_users courierKey →
  P collections_deliveries deliveryKey →
  P collections_tracking_events tracking1Key →
  P collections_tracking_events tracking2Key →
  P collections_notifications notificationKey →
  ∀ c q, In q (seed_keys c) → P c q.
Proof.
  intros H1 H2 H3 H4 H5 H6 c q. unfold seed_keys.
  repeat match goal with
  | |- In _ (if String.eqb c ?n then _ else _) → _ =>
      let E := fresh "E" in
      destruct (String.eqb c n) eqn:E;
      [apply String.eqb_eq in E; subst c|]
  end; simpl; intros Hq;
  repeat (destruct Hq as [<-|Hq]; [assumption|]); destruct Hq.
Qed.

Lemma seed_ok_seeded now s s' :
  seed mongosh now collections_users collections_deliveries
    collections_tracking_events collections_notifications s = (Ok tt, s') →
  all_seeded s'.
Proof.
  unfold seed.
  destruct (upsert collections_users [("email", VStr customerEmail)]
              (customerDefaults now) s) as [[[ins1 d1]|e1] s1] eqn:E1;
    [|by rewrite (bind_threw _ _ _ _ _ (findOneAndUpdate_threw _ _ _ _ _ _ _ E1))].
  rewrite (bind_ok _ _ _ _ _ (findOneAndUpdate_ok _ _ _ _ _ _ _ _ E1)).
  apply upsert_find in E1 as [F1 _]; [|reflexivity].
  destruct (upsert collections_users [("email", VStr courierEmail)]
              (courierDefaults now) s1) as [[[ins2 d2]|e2] s2] eqn:E2;
    [|by rewrite (bind_threw _ _ _ _ _ (findOneAndUpdate_threw _ _ _ _ _ _ _ E2))].
  rewrite (bind_ok _ _ _ _ _ (findOneAndUpdate_ok _ _ _ _ _ _ _ _ E2)).
  pose proof (growing_eq _ _ _ _ (upsert_grows _ _ _) E2) as G2.
  apply upsert_find in E2 as [F2 _]; [|reflexivity].
  apply (find_grows _ _ _ _ _ G2) in F1.
  rewrite (bind_ok _ _ _ _ _ (resolve_id _ _ _ _ _ F1 (returned_or_null _ _))).
  rewrite (bind_ok _ _ _ _ _ (resolve_id _ _ _ _ _ F2 (returned_or_null _ _))).
  destruct (upsert collections_deliveries [("seedMarker", VStr deliveryMarker)]
              (deliveryDefaults now (_id d1)) s2)
    as [[[ins3 d3]|e3] s3] eqn:E3;
    [|by rewrite (bind_threw _ _ _ _ _ (findOneAndUpdate_threw _ _ _ _ _ _ _ E3))].
  rewrite (bind_ok _ _ _ _ _ (findOneAndUpdate_ok _ _ _ _ _ _ _ _ E3)).
  pose proof (growing_eq _ _ _ _ (upsert_grows _ _ _) E3) as G3.
  apply upsert_find in E3 as [F3 _]; [|reflexivity].
  rewrite (bind_ok _ _ _ _ _ (resolve_doc _ _ _ _ _ F3 (returned_or_null _ _))).
  rewrite (bind_ok _ _ s3 (_id d3) s3) by done.
  intros H.
  apply bind_inv_ok in H as ([] & s4 & U4 & H).
  apply bind_inv_ok in H as ([] & s5 & U5 & H).
  apply updateOne_inv_ok in U4 as [G4 [d4 F4]]; [|reflexivity].
  apply updateOne_inv_ok in U5 as [G5 [d5 F5]]; [|reflexivity].
  apply updateOne_inv_ok in H as [G6 [d6 F6]]; [|reflexivity].
  assert (G36 : grows_to s3 s') by (etrans; [exact G4|]; by etrans).
  assert (G26 : grows_to s2 s') by by etrans.
  unfold all_seeded.
  apply (seed_keys_cases
           (λ c q, ∃ d0, List.find (matches q) (docs_of s' c) = Some d0)).
  - exists d1. by apply (find_grows _ _ _ _ _ G26).
  - exists d2. by apply (find_grows _ _ _ _ _ G26).
  - exists d3. by apply (find_grows _ _ _ _ _ G36).
  - exists d4. apply (find_grows _ _ s4); [by etrans | done].
  - exists d5. by apply (find_grows _ _ s5).
  - by exists d6.
Qed.

Lemma seed_steady drv now s :
  all_seeded s →
  seed drv now collections_users collections_deliveries
    collections_tracking_events collections_notifications s = (Ok tt, s).
Proof.
  intros A. rewrite seed_driver_independent.
  destruct (A collections_users customerKey) as [d1 F1]; [simpl; auto|].
  destruct (A collections_users courierKey) as [d2 F2]; [simpl; auto|].
  destruct (A collections_deliveries deliveryKey) as [d3 F3]; [simpl; auto|].
  destruct (A collections_tracking_events tracking1Key) as [d4 F4]; [simpl; auto|].
  destruct (A collections_tracking_events tracking2Key) as [d5 F5]; [simpl; auto|].
  destruct (A collections_notifications notificationKey) as [d6 F6]; [simpl; auto|].
  unfold customerKey, courierKey, deliveryKey, tracking1Key, tracking2Key,
    notificationKey in *.
  unfold seed.
  rewrite (bind_ok _ _ _ _ _
             (findOneAndUpdate_ok mongosh _ _ _ _ _ _ _ (upsert_matched _ _ _ _ _ F1))).
  rewrite (bind_ok _ _ _ _ _
             (findOneAndUpdate_ok mongosh _ _ _ _ _ _ _ (upsert_matched _ _ _ _ _ F2))).
  rewrite (bind_ok _ _ s (_id d1) s) by done.
  rewrite (bind_ok _ _ s (_id d2) s) by done.
  rewrite (bind_ok _ _ _ _ _
             (findOneAndUpdate_ok mongosh _ _ _ _ _ _ _ (upsert_matched _ _ _ _ _ F3))).
  rewrite (bind_ok _ _ s (Some d3) s) by done.
  rewrite (bind_ok _ _ s (_id d3) s) by done.
  rewrite (bind_ok _ _ _ _ _ (updateOne_matched _ _ _ _ _ F4)).
  rewrite (bind_ok _ _ _ _ _ (updateOne_matched _ _ _ _ _ F5)).
  exact (updateOne_matched _ _ _ _ _ F6).
Qed.

Lemma main_ok_steady drv now s s' :
  main drv now s = (Ok tt, s') → provisioned s' ∧ all_seeded s'.
Proof.
  rewrite main_driver_independent. unfold main. intros H.
  apply bind_inv_ok in H as (h & s1 & Hp & Hs).
  pose proof (provision_provisioned _ _ _ Hp) as P.
  apply provision_names in Hp as ->.
  split.
  - eapply provisioned_grows; [|exact P].
    exact (growing_eq _ _ _ _ (seed_grows _ _ _ _ _ _) Hs).
  - by eapply seed_ok_seeded.
Qed.

(** X5. A run that completes, on any store, leaves the four collections
    and every index of the table in place and a document under each of the
    six keys of the script. *)
Theorem completed_run_seeded (drv : driver) (now : Z) (s s' : store) :
  main drv now s = (Ok tt, s') → provisioned s' ∧ all_seeded s'.
Proof. apply main_ok_steady. Qed.

Lemma completed_run_seeded_witness :
  provisioned (fresh mongosh 1000) ∧ all_seeded (fresh mongosh 1000).
Proof.
  apply (completed_run_seeded mongosh 1000 empty_store). vm_compute. reflexivity.
Defined.

(** X6. The stores a run leaves alone are exactly those with the
    collections, the indexes and a document under each key: on such a
    store a run, with any clock and any client, completes and changes
    nothing, and a run that completes without changing the store was on
    such a store.  So the store a completed run produces is a fixed point
    of every later run, whatever the store the first run started from. *)
Theorem steady_state (drv : driver) (now : Z) (s : store) :
  (provisioned s ∧ all_seeded s ↔ main drv now s = (Ok tt, s)) ∧
  (∀ s', main drv now s = (Ok tt, s') →
         ∀ drv' now', main drv' now' s' = (Ok tt, s')).
Proof.
  assert (K : ∀ drv0 now0 s0, provisioned s0 → all_seeded s0 →
                main drv0 now0 s0 = (Ok tt, s0)).
  { intros drv0 now0 s0 P A. unfold main.
    rewrite (bind_ok _ _ _ _ _ (provision_again _ P)). by apply seed_steady. }
  split.
  - split; [intros [P A]; by apply K | apply main_ok_steady].
  - intros s' H drv' now'. apply main_ok_steady in H as [P A]. by apply K.
Qed.

Lemma steady_state_witness :
  main (Driver false true) 2000 status_changed = (Ok tt, status_changed) ∧
  main mongosh 3000 (run_on users_only (main mongosh 1000)) =
    (Ok tt, run_on users_only (main mongosh 1000)).
Proof.
  split.
  - apply (steady_state (Driver false true) 2000 status_changed).
    apply (steady_state mongosh 2000 status_changed).
    vm_compute. reflexivity.
  - apply (steady_state mongosh 1000 users_only). vm_compute. reflexivity.
Defined.

(** ** The documents a run creates, on any store *)

Lemma new_docs_script_collections drv now s c d :
  In d (new_docs s (run_on s (main drv now)) c) → In c script_collections.
Proof.
  intros Hd. destruct (main_seed_inv drv now s) as [_ N].
  destruct (N _ _ Hd) as (q & soi & St & _).
  destruct St; simpl; auto.
Qed.

(** X7. On any store and however the run ends, a delivery the run adds has
    the fields [seedMarker], [customerId], [courierId], [pickupAddress],
    [dropoffAddress], [packageDetails], [price], [status], [createdAt],
    [updatedAt], with addresses of [line1], [city], [state], [postalCode],
    [country], package details of [description], [weightKg], [fragile],
    and status ["requested"]; a tracking event has [seedMarker],
    [deliveryId], [location] (of [lat], [lng]), [heading], [speed],
    [createdAt]; a notification has [seedMarker], [userId], [type],
    [title], [message], [read], [createdAt] and is unread.  A run adds
    documents to no collection but its four. *)
Theorem created_document_fields (drv : driver) (now : Z) (s : store) :
  (∀ d, In d (new_docs s (run_on s (main drv now)) collections_deliveries) →
     field_names d ≡ₚ
       ["seedMarker"; "customerId"; "courierId"; "pickupAddress";
        "dropoffAddress"; "packageDetails"; "price"; "status"; "createdAt";
        "updatedAt"] ∧
     subfield_names d "pickupAddress" =
       ["line1"; "city"; "state"; "postalCode"; "country"] ∧
     subfield_names d "dropoffAddress" =
       ["line1"; "city"; "state"; "postalCode"; "country"] ∧
     subfield_names d "packageDetails" = ["description"; "weightKg"; "fragile"] ∧
     get_field d "status" = VStr "requested") ∧
  (∀ d, In d (new_docs s (run_on s (main drv now)) collections_tracking_events) →
     field_names d ≡ₚ
       ["seedMarker"; "deliveryId"; "location"; "heading"; "speed"; "createdAt"] ∧
     subfield_names d "location" = ["lat"; "lng"]) ∧
  (∀ d, In d (new_docs s (run_on s (main drv now)) collections_notifications) →
     field_names d ≡ₚ
       ["seedMarker"; "userId"; "type"; "title"; "message"; "read"; "createdAt"] ∧
     get_field d "read" = VBool false) ∧
  (∀ c, ¬ In c script_collections →
        new_docs s (run_on s (main drv now)) c = []).
Proof.
  destruct (main_seed_inv drv now s) as [_ N].
  split; [|split; [|split]].
  - intros d Hd. apply N, seeded_delivery in Hd as (cid & _ & Hf).
    unfold field_names, subfield_names.
    rewrite !(get_field_fields _ _ _ Hf), Hf. by repeat split.
  - intros d Hd. apply N, seeded_tracking_event in Hd as (did & _ & [Hf|Hf]);
      unfold field_names, subfield_names;
      rewrite !(get_field_fields _ _ _ Hf), Hf; by repeat split.
  - intros d Hd. apply N, seeded_notification in Hd as (cid & _ & Hf).
    unfold field_names. rewrite !(get_field_fields _ _ _ Hf), Hf. by repeat split.
  - intros c Hc.
    destruct (new_docs s (run_on s (main drv now)) c) as [|d l] eqn:E; [done|].
    exfalso. apply Hc. apply (new_docs_script_collections drv now s c d).
    rewrite E. by left.
Qed.

Lemma created_document_fields_witness :
  subfield_names
    (Doc 2%N (upsert_fields deliveryKey (deliveryDefaults 1000 1%N)))
    "packageDetails" = ["description"; "weightKg"; "fragile"] ∧
  subfield_names
    (Doc 4%N (upsert_fields tracking2Key (event2 1000 2%N))) "location" =
    ["lat"; "lng"] ∧
  get_field (Doc 5%N (upsert_fields notificationKey
                        (notificationDefaults 1000 1%N))) "read" = VBool false ∧
  new_docs users_only (run_on users_only (main mongosh 1000)) "audit_log" = [].
Proof.
  destruct (created_document_fields mongosh 1000 users_only)
    as (H1 & H2 & H3 & H4).
  split; [|split; [|split]].
  - apply H1. vm_compute. auto.
  - apply H2. vm_compute. auto.
  - apply H3. vm_compute. auto.
  - apply H4. vm_compute. intros H.
    repeat (destruct H as [H|H]; [discriminate H|]). exact H.
Defined.

(** X8. On any store and however the run ends, every document the run adds
    is stamped from the run's own clock: users, deliveries and
    notifications with [now] (a delivery's [updatedAt] too), the tracking
    event under [seed_tracking_1] with two minutes before and the one under
    [seed_tracking_2] with one minute before.  No document is stamped
    later than [now] or more than two minutes before it. *)
Theorem created_document_timestamps (drv : driver) (now : Z) (s : store)
    (c : string) (d : doc) :
  In d (new_docs s (run_on s (main drv now)) c) →
  (∃ t, created_at d = Some t ∧ now - 120000 <= t <= now) ∧
  (c ≠ collections_tracking_events → created_at d = Some now) ∧
  (c = collections_deliveries → get_field d "updatedAt" = VDate now) ∧
  (c = collections_tracking_events →
     (matches tracking1Key d = true ∧ created_at d = Some (now - 120000)) ∨
     (matches tracking2Key d = true ∧ created_at d = Some (now - 60000))).
Proof.
  intros Hd. destruct (main_seed_inv drv now s) as [_ N].
  destruct (N _ _ Hd) as (q & soi & St & Hf & _).
  unfold created_at.
  destruct St; rewrite ?(get_field_fields _ _ _ Hf), ?(matches_fields _ _ _ Hf);
    (split; [eexists; split; [reflexivity | lia]|]);
    (split; [first [ intros Hc; by destruct Hc | intros _; reflexivity ]|]);
    (split; [first [ intros Hc; discriminate Hc | intros _; reflexivity ]|]);
    first [ intros Hc; discriminate Hc
          | intros _; left; split; reflexivity
          | intros _; right; split; reflexivity ].
Qed.

Lemma created_document_timestamps_witness :
  created_at (Doc 3%N (upsert_fields tracking1Key (event1 1000 2%N))) =
    Some (1000 - 120000) ∧
  get_field (Doc 2%N (upsert_fields deliveryKey (deliveryDefaults 1000 1%N)))
    "updatedAt" = VDate 1000.
Proof.
  split.
  - destruct (created_document_timestamps mongosh 1000 users_only
                collections_tracking_events
                (Doc 3%N (upsert_fields tracking1Key (event1 1000 2%N))))
      as (_ & _ & _ & H); [vm_compute; auto|].
    destruct (H eq_refl) as [[_ H1]|[H2 _]]; [exact H1 | discriminate H2].
  - apply (created_document_timestamps mongosh 1000 users_only
             collections_deliveries); [vm_compute; auto | reflexivity].
Defined.

(** ** One document per key *)

Section Staged.
Variable I : nat → store → Prop.
Hypothesis I_mono : ∀ k k' s, (k <= k')%nat → I k s → I k' s.
Hypothesis I_upsert : ∀ k r c q soi,
  (k <= r)%nat →
  (∀ i, step_rank c (Doc i (upsert_fields q soi)) = r) →
  staged I k (S r) (upsert c q soi).

Lemma staged_pure k {A} (m : M A) : pure_cmd m → staged I k k m.
Proof. intros Hm s Hs. by rewrite Hm. Qed.

Lemma staged_bind k k1 k2 {A B} (m : M A) (f : A → M B) :
  staged I k k1 m → (∀ a, staged I k1 k2 (f a)) → (k1 <= k2)%nat →
  staged I k k2 (bind m f).
Proof.
  intros Hm Hf Hk s Hs. unfold bind. specialize (Hm s Hs).
  destruct (m s) as [[a|e] s1]; simpl in *.
  - by apply Hf.
  - by eapply I_mono.
Qed.

Lemma staged_findOneAndUpdate k r drv c q soi :
  (k <= r)%nat →
  (∀ i, step_rank c (Doc i (upsert_fields q soi)) = r) →
  staged I k (S r) (findOneAndUpdate drv c q soi).
Proof.
  intros Hk Hr. unfold findOneAndUpdate.
  eapply staged_bind; [by apply I_upsert | | done].
  intros a. apply staged_pure, pure_ret.
Qed.

Lemma staged_updateOne k r c q soi :
  (k <= r)%nat →
  (∀ i, step_rank c (Doc i (upsert_fields q soi)) = r) →
  staged I k (S r) (updateOne c q soi).
Proof.
  intros Hk Hr. unfold updateOne.
  eapply staged_bind; [by apply I_upsert | | done].
  intros a. apply staged_pure, pure_ret.
Qed.

Lemma staged_seed drv now :
  staged I 0 6
    (seed drv now collections_users collections_deliveries
       collections_tracking_events collections_notifications).
Proof.
  unfold seed.
  eapply staged_bind;
    [apply (staged_findOneAndUpdate 0 0); [lia | by intros]
    |intros customerUpsert | lia].
  eapply staged_bind;
    [apply (staged_findOneAndUpdate 1 1); [lia | by intros]
    |intros courierUpsert | lia].
  eapply staged_bind;
    [apply staged_pure; destruct customerUpsert;
       [apply pure_ret
       |apply pure_bind; [apply pure_findOne | intros; apply pure_id_of]]
    |intros customerId | lia].
  eapply staged_bind;
    [apply staged_pure; destruct courierUpsert;
       [apply pure_ret
       |apply pure_bind; [apply pure_findOne | intros; apply pure_id_of]]
    |intros courierId | lia].
  eapply staged_bind;
    [apply (staged_findOneAndUpdate 2 2); [lia | by intros]
    |intros deliveryUpsert | lia].
  eapply staged_bind;
    [apply staged_pure; destruct deliveryUpsert;
       [apply pure_ret | apply pure_findOne]
    |intros delivery | lia].
  eapply staged_bind;
    [apply staged_pure, pure_id_of | intros deliveryId | lia].
  eapply staged_bind;
    [apply (staged_updateOne 3 3); [lia | by intros] | intros _ | lia].
  eapply staged_bind;
    [apply (staged_updateOne 4 4); [lia | by intros] | intros _ | lia].
  apply (staged_updateOne 5 5); [lia | by intros].
Qed.
End Staged.

Lemma sorted_snoc (l : list nat) (r : nat) :
  StronglySorted lt l → Forall (λ x, (x < r)%nat) l →
  StronglySorted lt (l ++ [r]).
Proof.
  induction 1 as [|a l Hl IH Ha]; simpl; intros Hr.
  - repeat constructor.
  - apply Forall_cons in Hr as [Har Hr]. constructor; [by apply IH|].
    apply Forall_app. split; [done|]. by constructor.
Qed.

Lemma sorted_filter_once {A} (f : A → nat) (g : A → bool) (r : nat) l :
  StronglySorted lt (map f l) →
  (∀ x, In x l → g x = true → f x = r) →
  (length (List.filter g l) <= 1)%nat.
Proof.
  induction l as [|a l IH]; simpl; [lia|].
  intros Hs Hg. apply StronglySorted_inv in Hs as [Hs Ha].
  destruct (g a) eqn:Ea; [|apply IH; auto].
  rewrite (filter_none g l); [simpl; lia|].
  intros x Hx. destruct (g x) eqn:Ex; [|done].
  rewrite Forall_forall in Ha.
  assert (f a < f x)%nat as Hlt.
  { apply Ha. apply list_elem_of_In, in_map. by apply list_elem_of_In; apply list_elem_of_In. }
  rewrite (Hg a), (Hg x) in Hlt by auto. lia.
Qed.

Lemma sorted_bounded_length (l : list nat) (lo n : nat) :
  StronglySorted lt l → Forall (λ x, (lo <= x < lo + n)%nat) l →
  (length l <= n)%nat.
Proof.
  revert lo n. induction l as [|a l IH]; simpl; intros lo n Hs Hb; [lia|].
  apply StronglySorted_inv in Hs as [Hs Ha].
  apply Forall_cons in Hb as [Hab Hb].
  destruct n as [|n]; [lia|].
  enough (length l <= n)%nat by lia.
  apply (IH (S a)); [done|].
  rewrite Forall_forall in Ha, Hb |- *. intros x Hx.
  specialize (Ha x Hx). specialize (Hb x Hx). lia.
Qed.

Lemma once_inv_mono s0 k k' s :
  (k <= k')%nat → once_inv s0 k s → once_inv s0 k' s.
Proof. intros Hk [O S]. split; [by eapply order_inv_mono | done]. Qed.

Lemma once_inv_upsert s0 k r c q soi :
  (k <= r)%nat →
  (∀ i, step_rank c (Doc i (upsert_fields q soi)) = r) →
  staged (once_inv s0) k (S r) (upsert c q soi).
Proof.
  intros Hk Hr s [O S].
  split; [by apply (stage_upsert s0 k r)|].
  pose proof (upsert_cases c q soi s) as H.
  destruct (upsert c q soi s) as [[[[] d]|e] s'] eqn:E; simpl.
  - destruct H as [_ Hi]. destruct O as (G & B & _).
    apply insert_fields_ok in Hi as (Hd & Hdocs & Hother & _).
    intros c'. unfold ranks, new_docs. destruct (decide (c' = c)) as [->|Hne].
    + rewrite Hdocs, drop_prefix_snoc by apply G. rewrite map_app. simpl.
      rewrite Hd, Hr.
      apply sorted_snoc; [apply S|].
      apply Forall_forall. intros x Hx.
      apply list_elem_of_In, in_map_iff in Hx as (d0 & <- & Hd0).
      destruct (B _ _ Hd0). lia.
    + rewrite Hother by done. apply S.
  - by destruct H as [_ ->].
  - by subst.
Qed.

Lemma main_once drv now s : once_inv s 6 (run_on s (main drv now)).
Proof.
  unfold run_on, main, bind.
  pose proof (provision_grows s) as G.
  pose proof (provision_same_docs s) as D.
  assert (H0 : once_inv s 0 (provision s).2).
  { split; [split; [done|]; split|].
    - intros c d. by rewrite new_docs_same.
    - intros c1 d1 c2 d2. by rewrite new_docs_same.
    - intros c. unfold ranks. rewrite new_docs_same by done. constructor. }
  destruct (provision s) as [[h|e] s1] eqn:E; simpl in *.
  - apply provision_names in E as ->.
    apply (staged_seed (once_inv s)); [apply once_inv_mono | apply once_inv_upsert | done].
  - eapply once_inv_mono; [|exact H0]. lia.
Qed.

Lemma matches_single_inj k v w d :
  matches [(k, VStr v)] d = true → matches [(k, VStr w)] d = true → v = w.
Proof.
  unfold matches. simpl. rewrite !andb_true_r.
  intros Hv%value_eqb_str Hw%value_eqb_str. congruence.
Qed.

Lemma step_rank_users d :
  step_rank collections_users d = if matches customerKey d then 0%nat else 1%nat.
Proof. reflexivity. Qed.

Lemma step_rank_deliveries d : step_rank collections_deliveries d = 2%nat.
Proof. reflexivity. Qed.

Lemma step_rank_tracking_events d :
  step_rank collections_tracking_events d =
    if matches tracking1Key d then 3%nat else 4%nat.
Proof. reflexivity. Qed.

Lemma step_rank_notifications d : step_rank collections_notifications d = 5%nat.
Proof. reflexivity. Qed.

(** The step a document under a key of the script belongs to. *)
Lemma key_rank c q :
  In q (seed_keys c) →
  ∃ r, ∀ d, matches q d = true → step_rank c d = r.
Proof.
  revert c q.
  apply (seed_keys_cases
           (λ c q, ∃ r, ∀ d, matches q d = true → step_rank c d = r)).
  - exists 0%nat. intros d Hm. by rewrite step_rank_users, Hm.
  - exists 1%nat. intros d Hm. rewrite step_rank_users.
    destruct (matches customerKey d) eqn:E; [|done].
    pose proof (matches_single_inj _ _ _ _ E Hm). discriminate.
  - exists 2%nat. intros d _. apply step_rank_deliveries.
  - exists 3%nat. intros d Hm. by rewrite step_rank_tracking_events, Hm.
  - exists 4%nat. intros d Hm. rewrite step_rank_tracking_events.
    destruct (matches tracking1Key d) eqn:E; [|done].
    pose proof (matches_single_inj _ _ _ _ E Hm). discriminate.
  - exists 5%nat. intros d _. apply step_rank_notifications.
Qed.

Lemma find_Some_count {A} (f : A → bool) l x :
  List.find f l = Some x → (1 <= length (List.filter f l))%nat.
Proof.
  induction l as [|a l IH]; simpl; [discriminate|].
  destruct (f a); simpl; [lia | exact IH].
Qed.

(** X9. On any store and however the run ends, a run adds at most one
    document under each key of the script, so at most two users, one
    delivery, two tracking events and one notification.  After a run that
    completes, a key that had no document has exactly one. *)
Theorem run_adds_once (drv : driver) (now : Z) (s : store) :
  (∀ c q, In q (seed_keys c) →
     (count_where q (new_docs s (run_on s (main drv now)) c) <= 1)%nat) ∧
  (length (new_docs s (run_on s (main drv now)) collections_users) <= 2)%nat ∧
  (length (new_docs s (run_on s (main drv now)) collections_deliveries) <= 1)%nat ∧
  (length (new_docs s (run_on s (main drv now)) collections_tracking_events) <= 2)%nat ∧
  (length (new_docs s (run_on s (main drv now)) collections_notifications) <= 1)%nat ∧
  (∀ s' c q,
     main drv now s = (Ok tt, s') → In q (seed_keys c) →
     count_where q (docs_of s c) = 0%nat →
     count_where q (docs_of s' c) = 1%nat).
Proof.
  destruct (main_once drv now s) as [_ S].
  assert (H1 : ∀ c q, In q (seed_keys c) →
     (count_where q (new_docs s (run_on s (main drv now)) c) <= 1)%nat).
  { intros c q Hq. destruct (key_rank c q Hq) as [r Hr].
    unfold count_where.
    apply (sorted_filter_once (step_rank c) (matches q) r); [apply S|].
    intros x _. apply Hr. }
  assert (L : ∀ c lo n,
     (∀ d, lo <= step_rank c d < lo + n)%nat →
     (length (new_docs s (run_on s (main drv now)) c) <= n)%nat).
  { intros c lo n Hb. rewrite <- (length_map (step_rank c)).
    apply (sorted_bounded_length _ lo); [apply S|].
    apply Forall_forall. intros x Hx.
    apply list_elem_of_In, in_map_iff in Hx as (d & <- & _). apply Hb. }
  split; [exact H1|].
  split; [apply (L _ 0%nat); intros d; rewrite step_rank_users;
          destruct (matches _ _); lia|].
  split; [apply (L _ 2%nat); intros d; rewrite step_rank_deliveries; lia|].
  split; [apply (L _ 3%nat); intros d; rewrite step_rank_tracking_events;
          destruct (matches _ _); lia|].
  split; [apply (L _ 5%nat); intros d; rewrite step_rank_notifications; lia|].
  intros s' c q Hok Hq H0.
  pose proof (H1 c q Hq) as Hle.
  destruct (main_ok_steady _ _ _ _ Hok) as [_ A].
  destruct (A c q Hq) as [d F]. apply find_Some_count in F.
  unfold run_on in Hle. rewrite Hok in Hle. simpl in Hle.
  assert (G : grows_to s s').
  { pose proof (main_seed_inv drv now s) as [G _].
    unfold run_on in G. by rewrite Hok in G. }
  unfold count_where in *.
  rewrite (docs_of_new _ _ c G), List.filter_app, length_app in F |- *.
  lia.
Qed.

Lemma run_adds_once_witness :
  (count_where courierKey
     (new_docs users_only (run_on users_only (main mongosh 1000))
        collections_users) <= 1)%nat ∧
  count_where deliveryKey
    (docs_of (run_on users_only (main mongosh 1000)) collections_deliveries)
    = 1%nat.
Proof.
  destruct (run_adds_once mongosh 1000 users_only) as (H1 & _ & _ & _ & _ & H2).
  split.
  - apply H1. vm_compute. auto.
  - apply H2; vm_compute; auto.
Defined.

(** ** When a run completes *)

Lemma script_collections_cases (P : string → Prop) :
  P collections_users → P collections_deliveries →
  P collections_tracking_events → P collections_notifications →
  ∀ c, In c script_collections → P c.
Proof.
  intros H1 H2 H3 H4 c Hc. simpl in Hc.
  destruct Hc as [<-|[<-|[<-|[<-|[]]]]]; assumption.
Qed.

Lemma table_name_unique c ix ix' :
  In c script_collections →
  In ix (index_table c) → In ix' (index_table c) →
  ix_name ix = ix_name ix' → ix = ix'.
Proof.
  intros Hc. revert c Hc ix ix'.
  apply (script_collections_cases
           (λ c, ∀ ix ix', In ix (index_table c) → In ix' (index_table c) →
                           ix_name ix = ix_name ix' → ix = ix'));
    intros ix ix' H H'; simpl in H, H';
    repeat (destruct H as [<-|H]; [|]); try destruct H;
    repeat (destruct H' as [<-|H']; [|]); try destruct H';
    simpl; intros E; first [reflexivity | discriminate E].
Qed.

Lemma table_key_unique c ix ix' :
  In c script_collections →
  In ix (index_table c) → In ix' (index_table c) →
  ix_key ix = ix_key ix' → ix = ix'.
Proof.
  intros Hc. revert c Hc ix ix'.
  apply (script_collections_cases
           (λ c, ∀ ix ix', In ix (index_table c) → In ix' (index_table c) →
                           ix_key ix = ix_key ix' → ix = ix'));
    intros ix ix' H H'; simpl in H, H';
    repeat (destruct H as [<-|H]; [|]); try destruct H;
    repeat (destruct H' as [<-|H']; [|]); try destruct H';
    simpl; intros E; first [reflexivity | discriminate E].
Qed.

Lemma table_unique_users c ix :
  In ix (index_table c) → ix_unique ix = true →
  c = collections_users ∧ ix = Index "users_email_unique" [("email", Asc)] true.
Proof.
  unfold index_table.
  repeat match goal with
  | |- In _ (if String.eqb c ?n then _ else _) → _ =>
      let E := fresh "E" in
      destruct (String.eqb c n) eqn:E;
      [apply String.eqb_eq in E; subst c|]
  end; simpl; intros H;
  repeat (destruct H as [<-|H]; [simpl; intros Hu; first [discriminate Hu | by split]|]);
  destruct H.
Qed.

Lemma distinct_cons a l :
  distinct (a :: l) →
  (∀ b, In b l → value_compare a b ≠ Eq) ∧ distinct l.
Proof.
  intros H. split.
  - intros b Hb. apply list_elem_of_In, list_elem_of_lookup in Hb as [j Hj].
    apply (H 0%nat (S j)); [lia | done | done].
  - intros i j x y Hij Hi Hj. apply (H (S i) (S j)); [lia | done | done].
Qed.

(** Building the unique index on the emails goes through when no two of
    them compare equal. *)
Lemma emails_distinct_on name ds :
  distinct (map (λ d, get_field d "email") ds) →
  unique_on (Index name [("email", Asc)] true) ds = true.
Proof.
  induction ds as [|a ds IH]; [done|].
  cbn [map unique_on]. intros [Ha Hn]%distinct_cons.
  apply andb_true_iff. split; [|by apply IH].
  apply negb_true_iff.
  destruct (existsb _ ds) eqn:E; [|done].
  apply existsb_exists in E as (d & Hd & He).
  unfold index_key in He. cbn [ix_key map fst values_eqb] in He.
  rewrite andb_true_r, value_eqb_sym in He.
  apply value_eqb_compare in He. exfalso.
  apply (Ha (get_field d "email")); [|done].
  apply in_map_iff. eauto.
Qed.

Lemma ensureCollection_indexes c s c' :
  indexes_of (ensureCollection c s).2 c' = indexes_of s c'.
Proof.
  rewrite ensureCollection_eq. simpl.
  destruct (alookup c (colls s)) eqn:E; [done|].
  unfold indexes_of. destruct (decide (c = c')) as [->|Hne].
  - rewrite coll_of_put_eq. unfold coll_of. by rewrite E.
  - by rewrite coll_of_put_ne.
Qed.

Lemma ensureCollection_compatible c s :
  compatible s →
  ∃ s', ensureCollection c s = (Ok c, s') ∧ compatible s' ∧ same_docs s s'.
Proof.
  intros Hs. exists (ensureCollection c s).2. split; [|split].
  - by rewrite ensureCollection_eq.
  - intros c' ix Hc. rewrite ensureCollection_indexes. by apply Hs.
  - intros c'. apply ensureCollection_docs.
Qed.

Lemma createIndex_compatible c key u name s :
  compatible s → In c script_collections →
  In (Index name key u) (index_table c) →
  (u = true → unique_on (Index name key u) (docs_of s c) = true) →
  ∃ s', createIndex c key u name s = (Ok tt, s') ∧
        compatible s' ∧ same_docs s s'.
Proof.
  intros Hs Hc Ht Hu.
  pose proof (createIndex_docs c key u name s) as D.
  unfold createIndex in *.
  destruct (find _ (indexes (coll_of s c))) as [ix|] eqn:F.
  - exists s. pose proof F as F'. apply find_some in F as [Hin Hn].
    apply String.eqb_eq in Hn.
    assert (ix = Index name key u) as ->
      by (apply (table_name_unique c); [done | by apply Hs | done | done]).
    simpl. assert (key_spec_eqb key key = true) as -> by by apply key_spec_eqb_eq.
    rewrite Bool.eqb_reflx. by repeat split.
  - destruct (existsb _ (indexes (coll_of s c))) eqn:Ex.
    { exfalso. apply existsb_exists in Ex as (ix & Hin & Hk).
      apply key_spec_eqb_eq in Hk.
      assert (ix = Index name key u) as ->
        by (apply (table_key_unique c); [done | by apply Hs | done | done]).
      pose proof (find_none _ _ F _ Hin) as Hf. simpl in Hf.
      by rewrite String.eqb_refl in Hf. }
    assert (u && negb (unique_on (Index name key u) (docs (coll_of s c))) = false)
      as Hb.
    { destruct u; [|done]. simpl. apply negb_false_iff. by apply Hu. }
    rewrite Hb in D |- *. simpl in D. eexists. split; [done|]. split; [|exact D].
    intros c' ix Hc'. unfold indexes_of.
    destruct (decide (c = c')) as [->|Hne].
    + rewrite coll_of_put_eq. simpl. intros [Hin|[<-|[]]]%in_app_or.
      * by apply Hs.
      * done.
    + rewrite coll_of_put_ne by done. by apply Hs.
Qed.

Lemma provision_completes s :
  compatible s → emails_distinct s →
  ∃ s', provision s =
          (Ok (collections_users, collections_deliveries,
               collections_tracking_events, collections_notifications), s') ∧
        compatible s' ∧ same_docs s s'.
Proof.
  intros C0 E0. unfold provision.
  destruct (ensureCollection_compatible collections_users s C0)
    as (s1 & R1 & C1 & D1).
  rewrite (bind_ok _ _ _ _ _ R1).
  destruct (ensureCollection_compatible collections_deliveries s1 C1)
    as (s2 & R2 & C2 & D2).
  rewrite (bind_ok _ _ _ _ _ R2).
  destruct (ensureCollection_compatible collections_tracking_events s2 C2)
    as (s3 & R3 & C3 & D3).
  rewrite (bind_ok _ _ _ _ _ R3).
  destruct (ensureCollection_compatible collections_notifications s3 C3)
    as (s4 & R4 & C4 & D4).
  rewrite (bind_ok _ _ _ _ _ R4).
  assert (D04 : same_docs s s4) by (etrans; [exact D1|]; etrans; [exact D2|]; by etrans).
  destruct (createIndex_compatible collections_users [("email", Asc)] true
              "users_email_unique" s4 C4) as (t1 & I1 & K1 & L1);
    [simpl; auto | simpl; auto
    | intros _; apply emails_distinct_on; by rewrite (D04 collections_users) |].
  rewrite (bind_ok _ _ _ _ _ I1).
  destruct (createIndex_compatible collections_deliveries [("customerId", Asc)]
              false "deliveries_customerId" t1 K1) as (t2 & I2 & K2 & L2);
    [simpl; auto | simpl; auto | discriminate |].
  rewrite (bind_ok _ _ _ _ _ I2).
  destruct (createIndex_compatible collections_deliveries [("courierId", Asc)]
              false "deliveries_courierId" t2 K2) as (t3 & I3 & K3 & L3);
    [simpl; auto | simpl; auto | discriminate |].
  rewrite (bind_ok _ _ _ _ _ I3).
  destruct (createIndex_compatible collections_deliveries [("status", Asc)]
              false "deliveries_status" t3 K3) as (t4 & I4 & K4 & L4);
    [simpl; auto | simpl; auto | discriminate |].
  rewrite (bind_ok _ _ _ _ _ I4).
  destruct (createIndex_compatible collections_deliveries [("createdAt", Desc)]
              false "deliveries_createdAt_desc" t4 K4) as (t5 & I5 & K5 & L5);
    [simpl; auto | simpl; auto 6 | discriminate |].
  rewrite (bind_ok _ _ _ _ _ I5).
  destruct (createIndex_compatible collections_tracking_events
              [("deliveryId", Asc); ("createdAt", Desc)]
              false "tracking_deliveryId_createdAt_desc" t5 K5)
    as (t6 & I6 & K6 & L6);
    [simpl; auto | simpl; auto | discriminate |].
  rewrite (bind_ok _ _ _ _ _ I6).
  destruct (createIndex_compatible collections_notifications
              [("userId", Asc); ("read", Asc)]
              false "notifications_userId_read" t6 K6)
    as (t7 & I7 & K7 & L7);
    [simpl; auto | simpl; auto | discriminate |].
  rewrite (bind_ok _ _ _ _ _ I7).
  exists t7. split; [done|]. split; [done|].
  repeat (etrans; [eassumption|]). reflexivity.
Qed.

Lemma upsert_completes c q soi s :
  compatible s → In c script_collections →
  (c = collections_users →
   ∃ e, q = [("email", e)] ∧
        default VNull (lookup_field "email" (upsert_fields q soi)) = e) →
  ∃ r s', upsert c q soi s = (Ok r, s') ∧ compatible s'.
Proof.
  intros Hs Hc Hq. unfold upsert.
  destruct (find (matches q) (docs_of s c)) as [d|] eqn:F; [eauto|].
  assert (Hv : existsb
            (λ ix, violates ix (docs (coll_of s c))
                     (Doc (next_oid s) (upsert_fields q soi)))
            (indexes (coll_of s c)) = false).
  { destruct (existsb _ (indexes (coll_of s c))) eqn:E; [|done]. exfalso.
    apply existsb_exists in E as (ix & Hin & Hv).
    unfold violates in Hv. apply andb_true_iff in Hv as [Hu Hex].
    destruct (table_unique_users c ix (Hs _ _ Hc Hin) Hu) as [-> ->].
    destruct (Hq eq_refl) as (e & -> & He).
    apply existsb_exists in Hex as (d0 & Hd0 & Hk).
    unfold index_key in Hk. cbn [ix_key map fst values_eqb] in Hk.
    rewrite andb_true_r in Hk.
    pose proof (find_none _ _ F _ Hd0) as Hm.
    unfold matches in Hm. simpl in Hm. rewrite andb_true_r in Hm.
    assert (value_eqb (get_field d0 "email") e = true); [|congruence].
    rewrite <- He. exact Hk. }
  destruct (insert_fields c (upsert_fields q soi) s) as [[d|e] s'] eqn:Ei.
  - exists (true, d), s'. split; [done|].
    apply insert_fields_ok in Ei as (_ & _ & _ & Hi & _).
    intros c' ix Hc'. rewrite Hi. by apply Hs.
  - unfold insert_fields in Ei. rewrite Hv in Ei. discriminate.
Qed.

Lemma updateOne_completes c q soi s :
  compatible s → In c script_collections → c ≠ collections_users →
  ∃ s', updateOne c q soi s = (Ok tt, s') ∧ compatible s'.
Proof.
  intros Hs Hc Hne.
  destruct (upsert_completes c q soi s Hs Hc) as (r & s' & E & Hs'); [done|].
  exists s'. split; [|done]. unfold updateOne. by rewrite (bind_ok _ _ _ _ _ E).
Qed.

Lemma seed_completes now s :
  compatible s →
  ∃ s', seed mongosh now collections_users collections_deliveries
          collections_tracking_events collections_notifications s = (Ok tt, s').
Proof.
  intros C0. unfold seed.
  destruct (upsert_completes collections_users [("email", VStr customerEmail)]
              (customerDefaults now) s C0) as ([ins1 d1] & s1 & E1 & C1);
    [simpl; auto | intros _; eexists; split; reflexivity |].
  rewrite (bind_ok _ _ _ _ _ (findOneAndUpdate_ok _ _ _ _ _ _ _ _ E1)).
  apply upsert_find in E1 as [F1 _]; [|reflexivity].
  destruct (upsert_completes collections_users [("email", VStr courierEmail)]
              (courierDefaults now) s1 C1) as ([ins2 d2] & s2 & E2 & C2);
    [simpl; auto | intros _; eexists; split; reflexivity |].
  rewrite (bind_ok _ _ _ _ _ (findOneAndUpdate_ok _ _ _ _ _ _ _ _ E2)).
  pose proof (growing_eq _ _ _ _ (upsert_grows _ _ _) E2) as G2.
  apply upsert_find in E2 as [F2 _]; [|reflexivity].
  apply (find_grows _ _ _ _ _ G2) in F1.
  rewrite (bind_ok _ _ _ _ _ (resolve_id _ _ _ _ _ F1 (returned_or_null _ _))).
  rewrite (bind_ok _ _ _ _ _ (resolve_id _ _ _ _ _ F2 (returned_or_null _ _))).
  destruct (upsert_completes collections_deliveries
              [("seedMarker", VStr deliveryMarker)]
              (deliveryDefaults now (_id d1)) s2 C2) as ([ins3 d3] & s3 & E3 & C3);
    [simpl; auto | discriminate |].
  rewrite (bind_ok _ _ _ _ _ (findOneAndUpdate_ok _ _ _ _ _ _ _ _ E3)).
  apply upsert_find in E3 as [F3 _]; [|reflexivity].
  rewrite (bind_ok _ _ _ _ _ (resolve_doc _ _ _ _ _ F3 (returned_or_null _ _))).
  rewrite (bind_ok _ _ s3 (_id d3) s3) by done.
  destruct (updateOne_completes collections_tracking_events
              [("seedMarker", VStr "seed_tracking_1")] (event1 now (_id d3)) s3 C3)
    as (s4 & U4 & C4); [simpl; auto | discriminate |].
  rewrite (bind_ok _ _ _ _ _ U4).
  destruct (updateOne_completes collections_tracking_events
              [("seedMarker", VStr "seed_tracking_2")] (event2 now (_id d3)) s4 C4)
    as (s5 & U5 & C5); [simpl; auto | discriminate |].
  rewrite (bind_ok _ _ _ _ _ U5).
  destruct (updateOne_completes collections_notifications
              [("seedMarker", VStr "seed_notification_1")]
              (notificationDefaults now (_id d1)) s5 C5)
    as (s6 & U6 & C6); [simpl; auto | discriminate |].
  eauto.
Qed.

(** X10. A run completes on every store in which no two users have emails
    that compare equal (numbers by value, so that [1] and [1.0] are the
    same email) and whose indexes on the four collections, if any, are
    indexes of the table: whatever documents and other collections the
    store holds, with any clock and any client, the script returns without
    throwing. *)
Theorem run_completes (drv : driver) (now : Z) (s : store) :
  compatible s → emails_distinct s →
  ∃ s', main drv now s = (Ok tt, s').
Proof.
  intros C E. rewrite main_driver_independent. unfold main.
  destruct (provision_completes s C E) as (s1 & Hp & C1 & _).
  rewrite (bind_ok _ _ _ _ _ Hp). by apply seed_completes.
Qed.

Lemma no_indexes_compatible s :
  (∀ c, In c script_collections → indexes_of s c = []) → compatible s.
Proof. intros H c ix Hc Hin. rewrite (H c Hc) in Hin. destruct Hin. Qed.

Lemma users_only_compatible : compatible users_only.
Proof.
  apply no_indexes_compatible.
  apply (script_collections_cases (λ c, indexes_of users_only c = []));
    reflexivity.
Qed.

Lemma users_only_distinct : emails_distinct users_only.
Proof.
  intros i j a b Hij Hi Hj.
  destruct i as [|[|i]], j as [|[|j]]; try lia; try discriminate Hj;
    try discriminate Hi.
  injection Hi as <-. injection Hj as <-. discriminate.
Qed.

Lemma run_completes_witness :
  ∃ s', main (Driver false false) 1000 users_only = (Ok tt, s').
Proof.
  apply (run_completes (Driver false false) 1000 users_only).
  - exact users_only_compatible.
  - exact users_only_distinct.
Defined.

(** Two users whose emails are the same number, one written [1] and the
    other [1.0], have different emails as terms and the same email for the
    store: the unique index cannot be built and the run stops there,
    before it seeds anything. *)
Example run_on_equal_numbers :
  emails_unique decimal_emails ∧
  ¬ emails_distinct decimal_emails ∧
  compatible decimal_emails ∧
  (main mongosh 1000 decimal_emails).1 = Threw DuplicateKey ∧
  map (docs_of (main mongosh 1000 decimal_emails).2) script_collections =
    map (docs_of decimal_emails) script_collections.
Proof.
  split; [|split; [|split]].
  - unfold emails_unique. vm_compute. repeat constructor;
      rewrite list_elem_of_In; simpl; intros H;
      repeat (destruct H as [H|H]; [discriminate H|]); exact H.
  - intros H. by apply (H 0%nat 1%nat (VNum 1 0) (VNum 10 1)); [lia | | |].
  - apply no_indexes_compatible.
    apply (script_collections_cases (λ c, indexes_of decimal_emails c = []));
      reflexivity.
  - split; vm_compute; reflexivity.
Qed.

(** ** Collections that are not the script's *)

Global Instance same_at_preorder c : PreOrder (same_at c).
Proof.
  split.
  - by intros s.
  - intros s1 s2 s3 H1 H2. unfold same_at in *. by rewrite H2, H1.
Qed.

(** The rest of a sequence need only be followed from the values its first
    command can return. *)
Lemma relates_bind_returned R `{!PreOrder R} {A B} (m : M A) (k : A → M B) :
  relates R m →
  (∀ a s0 s1, m s0 = (Ok a, s1) → R s1 (k a s1).2) →
  relates R (bind m k).
Proof.
  intros Hm Hk s. unfold bind. specialize (Hm s).
  destruct (m s) as [[a|e] s1] eqn:E; simpl in *; [|done].
  etrans; [exact Hm | by eapply Hk].
Qed.

Lemma ensureCollection_same_at c c0 :
  c0 ≠ c → relates (same_at c) (ensureCollection c0).
Proof.
  intros Hne s. rewrite ensureCollection_eq. unfold same_at. simpl.
  destruct (alookup c0 (colls s)); [done|]. simpl. by rewrite alookup_aset_ne.
Qed.

Lemma createIndex_same_at c c0 key u name :
  c0 ≠ c → relates (same_at c) (createIndex c0 key u name).
Proof.
  intros Hne s. unfold createIndex, same_at.
  destruct (find _ _); [by destruct (_ && _)|].
  destruct (existsb _ _); [done|]. destruct (_ && _); [done|].
  simpl. by rewrite alookup_aset_ne.
Qed.

Lemma upsert_same_at c c0 q soi :
  c0 ≠ c → relates (same_at c) (upsert c0 q soi).
Proof.
  intros Hne s. unfold upsert, insert_fields, same_at.
  destruct (find _ _); [done|].
  destruct (existsb _ _); [done|]. simpl. by rewrite alookup_aset_ne.
Qed.

Lemma seed_same_at c drv now u d t n :
  u ≠ c → d ≠ c → t ≠ c → n ≠ c →
  relates (same_at c) (seed drv now u d t n).
Proof.
  intros Hu Hd Ht Hn. unfold seed, findOneAndUpdate, updateOne.
  repeat match goal with
  | |- relates _ (ret _) => apply (relates_ret (same_at c))
  | |- relates _ (upsert _ _ _) => by apply upsert_same_at
  | |- relates _ (match ?x with _ => _ end) => destruct x
  | |- relates _ (findOne _ _) => by intros ?
  | |- relates _ (id_of ?x) => by destruct x; intros ?
  | |- relates _ (bind _ _) => apply (relates_bind (same_at c)); [|intros ?]
  end.
Qed.

Lemma provision_same_at c :
  ¬ In c script_collections → relates (same_at c) provision.
Proof.
  intros Hc.
  assert (collections_users ≠ c ∧ collections_deliveries ≠ c ∧
          collections_tracking_events ≠ c ∧ collections_notifications ≠ c)
    as (H1 & H2 & H3 & H4).
  { repeat split; intros <-; apply Hc; simpl; auto. }
  unfold provision.
  do 4 (apply (relates_bind_returned (same_at c));
        [by apply ensureCollection_same_at
        |intros a s0 s1 E; rewrite ensureCollection_eq in E;
         injection E as <- _; clear s0; revert s1;
         match goal with
         | |- ∀ s1, same_at c s1 (?m s1).2 => change (relates (same_at c) m)
         end]).
  repeat (apply (relates_bind (same_at c));
          [by apply createIndex_same_at | intros ?]).
  apply (relates_ret (same_at c)).
Qed.

(** X11. A run touches no collection but its four: any other collection of
    the store keeps its documents and its indexes, and one that did not
    exist is not created, however the run ends. *)
Theorem foreign_collections_untouched (drv : driver) (now : Z) (s : store)
    (c : string) :
  ¬ In c script_collections →
  alookup c (colls (run_on s (main drv now))) = alookup c (colls s).
Proof.
  intros Hc.
  assert (collections_users ≠ c ∧ collections_deliveries ≠ c ∧
          collections_tracking_events ≠ c ∧ collections_notifications ≠ c)
    as (H1 & H2 & H3 & H4).
  { repeat split; intros <-; apply Hc; simpl; auto. }
  change (same_at c s (main drv now s).2). revert s.
  change (relates (same_at c) (main drv now)). unfold main.
  apply (relates_bind_returned (same_at c)); [by apply provision_same_at|].
  intros h s0 s1 E. apply provision_names in E as ->.
  by apply seed_same_at.
Qed.

Lemma foreign_collections_untouched_witness :
  alookup "audit_log"
    (colls (run_on
              (put_coll "audit_log"
                 (Collection [Doc 40%N [("event", VStr "login")]] []) users_only)
              (main mongosh 1000))) =
  alookup "audit_log"
    (colls (put_coll "audit_log"
              (Collection [Doc 40%N [("event", VStr "login")]] []) users_only)).
Proof.
  apply foreign_collections_untouched.
  vm_compute. intros H.
  repeat (destruct H as [H|H]; [discriminate H|]). exact H.
Defined.

(** ** References go to the first document under the parent's key *)

Lemma first_id_mono s s' c q v :
  grows_to s s' → first_id s c q v → first_id s' c q v.
Proof.
  intros G (p & F & ->). exists p. split; [|done]. by eapply find_grows.
Qed.

Lemma refers_to_first_mono s s' c d :
  grows_to s s' → refers_to_first s c d → refers_to_first s' c d.
Proof.
  intros G (H1 & H2 & H3).
  repeat split; intros Hc; eapply first_id_mono; eauto.
Qed.

Lemma upsert_first_inv s0 c q soi s :
  first_inv s0 s →
  (∀ i, refers_to_first s c (Doc i (upsert_fields q soi))) →
  first_inv s0 (upsert c q soi s).2.
Proof.
  intros [G N] Hr.
  pose proof (upsert_cases c q soi s) as H.
  destruct (upsert c q soi s) as [[[[] d]|e] s'] eqn:E; simpl.
  - destruct H as [_ Hi].
    pose proof (insert_fields_ok _ _ _ _ _ Hi) as (Hd & _ & _ & _ & _ & _ & Gs).
    split; [by etrans|].
    intros c' d' Hin.
    destruct (new_docs_insert _ _ _ _ _ _ _ _ G Hi Hin) as [Hold|[-> ->]].
    + eapply refers_to_first_mono; [exact Gs | by apply N].
    + eapply refers_to_first_mono; [exact Gs|]. rewrite Hd. apply Hr.
  - by destruct H as [_ ->].
  - by subst.
Qed.

Lemma updateOne_first_inv s0 c q soi s :
  first_inv s0 s →
  (∀ i, refers_to_first s c (Doc i (upsert_fields q soi))) →
  first_inv s0 (updateOne c q soi s).2.
Proof.
  intros HJ Hr. unfold updateOne, bind.
  pose proof (upsert_first_inv s0 c q soi s HJ Hr) as H.
  by destruct (upsert c q soi s) as [[r|e] s'].
Qed.

Lemma seed_first_inv now s0 s :
  first_inv s0 s →
  first_inv s0
    (seed mongosh now collections_users collections_deliveries
       collections_tracking_events collections_notifications s).2.
Proof.
  intros J0. unfold seed.
  pose proof (upsert_first_inv s0 collections_users
                [("email", VStr customerEmail)] (customerDefaults now) s J0) as J1.
  destruct (upsert collections_users [("email", VStr customerEmail)]
              (customerDefaults now) s) as [[[ins1 d1]|e1] s1] eqn:E1;
    simpl in J1.
  2:{ rewrite (bind_threw _ _ _ _ _ (findOneAndUpdate_threw _ _ _ _ _ _ _ E1)).
      apply J1. intros i. repeat split; discriminate. }
  rewrite (bind_ok _ _ _ _ _ (findOneAndUpdate_ok _ _ _ _ _ _ _ _ E1)).
  apply upsert_find in E1 as [F1 _]; [|reflexivity].
  assert (J1' : first_inv s0 s1)
    by (apply J1; intros i; repeat split; discriminate).
  clear J1.
  pose proof (upsert_first_inv s0 collections_users
                [("email", VStr courierEmail)] (courierDefaults now) s1 J1') as J2.
  destruct (upsert collections_users [("email", VStr courierEmail)]
              (courierDefaults now) s1) as [[[ins2 d2]|e2] s2] eqn:E2;
    simpl in J2.
  2:{ rewrite (bind_threw _ _ _ _ _ (findOneAndUpdate_threw _ _ _ _ _ _ _ E2)).
      apply J2. intros i. repeat split; discriminate. }
  rewrite (bind_ok _ _ _ _ _ (findOneAndUpdate_ok _ _ _ _ _ _ _ _ E2)).
  pose proof (growing_eq _ _ _ _ (upsert_grows _ _ _) E2) as G2.
  apply upsert_find in E2 as [F2 _]; [|reflexivity].
  assert (J2' : first_inv s0 s2)
    by (apply J2; intros i; repeat split; discriminate).
  clear J2.
  apply (find_grows _ _ _ _ _ G2) in F1.
  rewrite (bind_ok _ _ _ _ _ (resolve_id _ _ _ _ _ F1 (returned_or_null _ _))).
  rewrite (bind_ok _ _ _ _ _ (resolve_id _ _ _ _ _ F2 (returned_or_null _ _))).
  assert (R1 : first_id s2 collections_users customerKey (VOid (_id d1)))
    by by exists d1.
  pose proof (upsert_first_inv s0 collections_deliveries
                [("seedMarker", VStr deliveryMarker)]
                (deliveryDefaults now (_id d1)) s2 J2') as J3.
  destruct (upsert collections_deliveries [("seedMarker", VStr deliveryMarker)]
              (deliveryDefaults now (_id d1)) s2)
    as [[[ins3 d3]|e3] s3] eqn:E3; simpl in J3.
  2:{ rewrite (bind_threw _ _ _ _ _ (findOneAndUpdate_threw _ _ _ _ _ _ _ E3)).
      apply J3. intros i. repeat split; first [discriminate | by intros _]. }
  rewrite (bind_ok _ _ _ _ _ (findOneAndUpdate_ok _ _ _ _ _ _ _ _ E3)).
  pose proof (growing_eq _ _ _ _ (upsert_grows _ _ _) E3) as G3.
  apply upsert_find in E3 as [F3 _]; [|reflexivity].
  assert (J3' : first_inv s0 s3)
    by (apply J3; intros i; repeat split; first [discriminate | by intros _]).
  clear J3.
  rewrite (bind_ok _ _ _ _ _ (resolve_doc _ _ _ _ _ F3 (returned_or_null _ _))).
  rewrite (bind_ok _ _ s3 (_id d3) s3) by done.
  assert (R3 : first_id s3 collections_deliveries deliveryKey (VOid (_id d3)))
    by by exists d3.
  apply (first_id_mono _ _ _ _ _ G3) in R1.
  pose proof (updateOne_first_inv s0 collections_tracking_events
                [("seedMarker", VStr "seed_tracking_1")]
                (event1 now (_id d3)) s3 J3') as J4.
  pose proof (updateOne_grows collections_tracking_events
                [("seedMarker", VStr "seed_tracking_1")] (event1 now (_id d3)) s3) as G4.
  unfold bind at 1.
  destruct (updateOne collections_tracking_events _ (event1 now (_id d3)) s3)
    as [[[]|e4] s4]; simpl in J4, G4.
  2:{ apply J4. intros i. repeat split; first [discriminate | by intros _]. }
  assert (J4' : first_inv s0 s4)
    by (apply J4; intros i; repeat split; first [discriminate | by intros _]).
  clear J4.
  apply (first_id_mono _ _ _ _ _ G4) in R1, R3.
  pose proof (updateOne_first_inv s0 collections_tracking_events
                [("seedMarker", VStr "seed_tracking_2")]
                (event2 now (_id d3)) s4 J4') as J5.
  pose proof (updateOne_grows collections_tracking_events
                [("seedMarker", VStr "seed_tracking_2")] (event2 now (_id d3)) s4) as G5.
  unfold bind at 1.
  destruct (updateOne collections_tracking_events _ (event2 now (_id d3)) s4)
    as [[[]|e5] s5]; simpl in J5, G5.
  2:{ apply J5. intros i. repeat split; first [discriminate | by intros _]. }
  assert (J5' : first_inv s0 s5)
    by (apply J5; intros i; repeat split; first [discriminate | by intros _]).
  clear J5.
  apply (first_id_mono _ _ _ _ _ G5) in R1.
  apply updateOne_first_inv; [done|].
  intros i. repeat split; first [discriminate | by intros _].
Qed.

Lemma main_first_inv drv now s : first_inv s (run_on s (main drv now)).
Proof.
  unfold run_on. rewrite main_driver_independent. unfold main, bind.
  pose proof (provision_grows s) as G.
  pose proof (provision_same_docs s) as D.
  destruct (provision s) as [[h|e] s1] eqn:E; simpl in G, D.
  - apply provision_names in E as ->.
    apply seed_first_inv. split; [done|].
    intros c d. by rewrite new_docs_same.
  - simpl. split; [done|]. intros c d. by rewrite new_docs_same.
Qed.

(** X12. The parent a reference names is the one a lookup by key returns,
    the first document under the parent's key, also when several documents
    share that key: on any store and however the run ends, the deliveries
    and notifications a run adds carry the identifier of the first user
    under the customer's email and the tracking events that of the first
    delivery under the delivery marker.  So the two tracking events of a
    run name the same delivery, and its delivery and notification the same
    customer. *)
Theorem references_go_to_first (drv : driver) (now : Z) (s : store) :
  (∀ c d, In d (new_docs s (run_on s (main drv now)) c) →
          refers_to_first (run_on s (main drv now)) c d) ∧
  (∀ e1 e2,
     In e1 (new_docs s (run_on s (main drv now)) collections_tracking_events) →
     In e2 (new_docs s (run_on s (main drv now)) collections_tracking_events) →
     get_field e1 "deliveryId" = get_field e2 "deliveryId") ∧
  (∀ d n,
     In d (new_docs s (run_on s (main drv now)) collections_deliveries) →
     In n (new_docs s (run_on s (main drv now)) collections_notifications) →
     get_field d "customerId" = get_field n "userId").
Proof.
  destruct (main_first_inv drv now s) as [_ N].
  split; [exact N|]. split.
  - intros e1 e2 H1 H2.
    destruct (N _ _ H1) as (_ & (p1 & F1 & ->) & _); [done|].
    destruct (N _ _ H2) as (_ & (p2 & F2 & ->) & _); [done|]. congruence.
  - intros d n H1 H2.
    destruct (N _ _ H1) as ((p1 & F1 & ->) & _); [done|].
    destruct (N _ _ H2) as (_ & _ & (p2 & F2 & ->)); [done|]. congruence.
Qed.

Lemma references_go_to_first_witness :
  refers_to_first (run_on two_deliveries (main mongosh 1000))
    collections_tracking_events
    (Doc 4%N (upsert_fields tracking1Key (event1 1000 0%N))) ∧
  get_field (Doc 4%N (upsert_fields tracking1Key (event1 1000 0%N)))
    "deliveryId" =
  get_field (Doc 5%N (upsert_fields tracking2Key (event2 1000 0%N)))
    "deliveryId" ∧
  get_field (Doc 2%N (upsert_fields deliveryKey (deliveryDefaults 1000 1%N)))
    "customerId" =
  get_field (Doc 5%N (upsert_fields notificationKey
                        (notificationDefaults 1000 1%N))) "userId".
Proof.
  destruct (references_go_to_first mongosh 1000 two_deliveries) as (H1 & H2 & _).
  destruct (references_go_to_first mongosh 1000 users_only) as (_ & _ & H3).
  split; [|split].
  - apply H1. vm_compute. auto.
  - apply H2; vm_compute; auto.
  - apply H3; vm_compute; auto.
Defined.

(** * Parent references when identifiers are any value *)

Module LooseFacts.
Import Loose.



Global Instance loose_extends_preorder : PreOrder extends.
Proof.
  split.
  - by intros s c.
  - intros s1 s2 s3 H1 H2 c. etrans; [apply H1 | apply H2].
Qed.






















(** ** The invariant on the children a run adds *)











(** ** When a parent is not found

    Whatever client answers the calls: a lookup that finds no customer,
    or no delivery, ends the run where it stands. *)




End LooseFacts.

(** * The two embeddings agree

    On a store whose documents all have ObjectIds, which is every store
    that only the script has written to, the script over documents with
    any identifier does what the script over documents with ObjectIds
    does. *)

Lemma alookup_loose c l :
  alookup c (map (λ kc : string * collection, (kc.1, loose_collection kc.2)) l)
  = loose_collection <$> alookup c l.
Proof.
  induction l as [|[k v] l IH]; [done|]. simpl.
  by destruct (String.eqb k c).
Qed.

Lemma aset_loose c col l :
  aset c (loose_collection col)
    (map (λ kc : string * collection, (kc.1, loose_collection kc.2)) l)
  = map (λ kc : string * collection, (kc.1, loose_collection kc.2))
      (aset c col l).
Proof.
  induction l as [|[k v] l IH]; [done|]. simpl.
  destruct (String.eqb k c); simpl; [done | by rewrite IH].
Qed.

Lemma coll_of_loose s c :
  Loose.coll_of (loose_store s) c = loose_collection (coll_of s c).
Proof.
  unfold Loose.coll_of, coll_of, loose_store. cbn [Loose.colls].
  rewrite alookup_loose. by destruct (alookup c (colls s)).
Qed.

Lemma docs_of_loose s c :
  Loose.docs_of (loose_store s) c = map loose_doc (docs_of s c).
Proof. unfold Loose.docs_of, docs_of. by rewrite coll_of_loose. Qed.

Lemma put_coll_loose c col s :
  Loose.put_coll c (loose_collection col) (loose_store s)
  = loose_store (put_coll c col s).
Proof.
  unfold Loose.put_coll, put_coll, loose_store. cbn [Loose.colls Loose.next_oid colls next_oid].
  by rewrite aset_loose.
Qed.

Lemma bump_oid_loose s :
  loose_store (bump_oid s) = Loose.bump_oid (loose_store s).
Proof. reflexivity. Qed.

Lemma find_loose q l :
  List.find (Loose.matches q) (map loose_doc l)
  = loose_doc <$> List.find (matches q) l.
Proof.
  induction l as [|d l IH]; [done|]. simpl.
  change (Loose.matches q (loose_doc d)) with (matches q d).
  by destruct (matches q d).
Qed.

Lemma existsb_loose ix d l :
  existsb (λ d', values_eqb (Loose.index_key ix d')
                   (Loose.index_key ix (loose_doc d))) (map loose_doc l)
  = existsb (λ d', values_eqb (index_key ix d') (index_key ix d)) l.
Proof. induction l as [|a l IH]; [done|]. simpl. by rewrite IH. Qed.

Lemma violates_loose ix ds d :
  Loose.violates ix (map loose_doc ds) (loose_doc d) = violates ix ds d.
Proof. unfold Loose.violates, violates. by rewrite existsb_loose. Qed.

Lemma unique_on_loose ix ds :
  Loose.unique_on ix (map loose_doc ds) = unique_on ix ds.
Proof.
  induction ds as [|d ds IH]; [done|]. cbn [map Loose.unique_on unique_on].
  by rewrite existsb_loose, IH.
Qed.

Lemma existsb_violates_loose ixs ds d :
  existsb (λ ix, Loose.violates ix (map loose_doc ds) (loose_doc d)) ixs
  = existsb (λ ix, violates ix ds d) ixs.
Proof.
  induction ixs as [|ix ixs IH]; [done|]. simpl.
  by rewrite violates_loose, IH.
Qed.

Lemma agrees_ret {A B} (f : A → B) a : agrees f (ret a) (Loose.ret (f a)).
Proof. by intros s. Qed.

Lemma agrees_bind {A B A' B'} (f : A → A') (g : B → B')
    (m : M A) (k : A → M B) m' k' :
  agrees f m m' → (∀ a, agrees g (k a) (k' (f a))) →
  agrees g (bind m k) (Loose.bind m' k').
Proof.
  intros Hm Hk s. unfold Loose.bind, bind. rewrite (Hm s).
  unfold loose_outcome. destruct (m s) as [[a|e] s1]; simpl; [apply Hk | done].
Qed.

Lemma agrees_insert_fields c fs :
  agrees loose_doc (insert_fields c fs) (Loose.insert_fields c fs).
Proof.
  intros s. unfold Loose.insert_fields, insert_fields, loose_outcome.
  rewrite coll_of_loose. cbn [loose_collection Loose.docs Loose.indexes].
  change (Loose.Doc (VOid (Loose.next_oid (loose_store s))) fs)
    with (loose_doc (Doc (next_oid s) fs)).
  rewrite existsb_violates_loose.
  destruct (existsb _ (indexes (coll_of s c))); [done|].
  cbn [fst snd]. f_equal.
  rewrite bump_oid_loose, <- put_coll_loose.
  unfold loose_collection. cbn [docs indexes]. by rewrite map_app.
Qed.

Lemma agrees_getCollectionInfos name :
  agrees id (getCollectionInfos name) (Loose.getCollectionInfos name).
Proof.
  intros s. unfold Loose.getCollectionInfos, getCollectionInfos, loose_outcome.
  simpl. rewrite alookup_loose. by destruct (alookup name (colls s)).
Qed.

Lemma agrees_createCollection name :
  agrees id (createCollection name) (Loose.createCollection name).
Proof.
  intros s. unfold Loose.createCollection, createCollection, loose_outcome.
  simpl. rewrite alookup_loose.
  destruct (alookup name (colls s)); simpl; [done|].
  by rewrite <- put_coll_loose.
Qed.

Lemma agrees_createIndex c key u name :
  agrees id (createIndex c key u name) (Loose.createIndex c key u name).
Proof.
  intros s. unfold Loose.createIndex, createIndex, loose_outcome.
  rewrite coll_of_loose. cbn [loose_collection Loose.docs Loose.indexes].
  destruct (find _ (indexes (coll_of s c))); [by destruct (_ && _)|].
  destruct (existsb _ (indexes (coll_of s c))); [done|].
  rewrite unique_on_loose. destruct (u && _); [done|]. simpl.
  by rewrite <- put_coll_loose.
Qed.

Lemma agrees_upsert c q soi :
  agrees (prod_map id loose_doc) (upsert c q soi) (Loose.upsert c q soi).
Proof.
  intros s. unfold Loose.upsert, upsert.
  rewrite docs_of_loose, find_loose.
  destruct (find (matches q) (docs_of s c)); [done|]. simpl.
  change (Loose.upsert_fields q soi) with (upsert_fields q soi).
  rewrite (agrees_insert_fields c (upsert_fields q soi) s).
  unfold loose_outcome. by destruct (insert_fields c _ s) as [[d|e] s1].
Qed.

Lemma agrees_findOneAndUpdate drv c q soi :
  agrees (fmap loose_doc) (findOneAndUpdate drv c q soi)
    (Loose.findOneAndUpdate (Loose.store_client drv) c q soi).
Proof.
  apply (agrees_bind (prod_map id loose_doc)); [apply agrees_upsert|].
  intros [b d] s. simpl. unfold loose_outcome, Loose.ret. simpl.
  by destruct (if b then _ else _).
Qed.

Lemma agrees_findOne drv c q :
  agrees (fmap loose_doc) (findOne c q)
    (Loose.findOne (Loose.store_client drv) c q).
Proof.
  intros s. simpl. unfold findOne, loose_outcome. simpl.
  by rewrite docs_of_loose, find_loose.
Qed.

Lemma agrees_updateOne drv c q soi :
  agrees id (updateOne c q soi)
    (Loose.updateOne (Loose.store_client drv) c q soi).
Proof.
  apply (agrees_bind (prod_map id loose_doc)); [apply agrees_upsert|].
  intros a. apply (agrees_ret id).
Qed.

Lemma agrees_id_of d :
  agrees VOid (id_of d) (Loose.id_of (loose_doc <$> d)).
Proof. by destruct d. Qed.

(** An ObjectId is truthy: the lookup is made exactly when the upsert
    returned nothing. *)
Lemma agrees_id_or drv c q r :
  agrees VOid
    (match r with
     | Some d => ret (_id d)
     | None => let* found := findOne c q in id_of found
     end)
    (Loose.id_or (loose_doc <$> r)
       (Loose.bind (Loose.findOne (Loose.store_client drv) c q) Loose.id_of)).
Proof.
  destruct r as [d|]; [by intros s|].
  apply (agrees_bind (fmap loose_doc)); [apply agrees_findOne|].
  apply agrees_id_of.
Qed.

Lemma agrees_ensureCollection name :
  agrees id (ensureCollection name) (Loose.ensureCollection name).
Proof.
  apply (agrees_bind id); [apply agrees_getCollectionInfos|]. intros infos.
  apply (agrees_bind id); [|intros; apply (agrees_ret id)].
  unfold id. destruct (negb _); [apply agrees_createCollection|apply (agrees_ret id)].
Qed.

Lemma agrees_provision : agrees id provision Loose.provision.
Proof.
  unfold provision, Loose.provision.
  repeat (apply (agrees_bind id);
          [first [apply agrees_ensureCollection | apply agrees_createIndex]
          | intros ?]).
  apply (agrees_ret id).
Qed.

Lemma agrees_seed drv now users deliveries trackingEvents notifications :
  agrees id
    (seed drv now users deliveries trackingEvents notifications)
    (Loose.seed (Loose.store_client drv) now users deliveries trackingEvents
       notifications).
Proof.
  unfold seed, Loose.seed.
  apply (agrees_bind (fmap loose_doc)); [apply agrees_findOneAndUpdate|].
  intros customerUpsert.
  apply (agrees_bind (fmap loose_doc)); [apply agrees_findOneAndUpdate|].
  intros courierUpsert.
  apply (agrees_bind VOid); [apply agrees_id_or|]. intros customerId.
  apply (agrees_bind VOid); [apply agrees_id_or|]. intros courierId.
  apply (agrees_bind (fmap loose_doc)); [apply agrees_findOneAndUpdate|].
  intros deliveryUpsert.
  apply (agrees_bind (fmap loose_doc)).
  { destruct deliveryUpsert as [d|]; [by intros s | apply agrees_findOne]. }
  intros delivery.
  apply (agrees_bind VOid); [apply agrees_id_of|]. intros deliveryId.
  apply (agrees_bind id); [apply agrees_updateOne|]. intros _.
  apply (agrees_bind id); [apply agrees_updateOne|]. intros _.
  apply agrees_updateOne.
Qed.

(** The run over documents with any identifier, on a store whose documents
    have ObjectIds, is the run over documents with ObjectIds. *)
Lemma main_agrees drv now : agrees id (main drv now) (Loose.main drv now).
Proof.
  unfold main, Loose.main.
  apply (agrees_bind id); [apply agrees_provision|].
  intros [[[users deliveries] trackingEvents] notifications].
  apply agrees_seed.
Qed.



